(** * isl_binary_heap: an indirect binary heap, embedded and verified

    Shallow embedding of [isl_binary_heap.h] (v1.0.0).  The heap is an array
    of nodes, each node carrying an item pointer and its own array index;
    callers hold pointers to nodes.

    Conventions of the embedding:
    - [size_t] is a 64-bit unsigned integer, a [Z] in [0, 2^64); every
      arithmetic operation of the source on [size_t] is followed by [wrap].
    - [const void *] is an address, a [Z]; [NULL] is [0].
    - the node array is a list of slots; a slot is [None] until the program
      has written it (memory returned by [malloc]/[realloc] is indeterminate).
    - every function that touches the array returns an [outcome]: [Done] with
      its result, [Fault] when it reads or writes outside the array or reads
      a slot never written, [OutOfFuel] when a loop runs out of fuel.
    - the result of [malloc]/[realloc] is a boolean argument of the call.
    - [realloc] asked for 0 bytes and returning [NULL] has freed the block,
      as the C library's does; an array that has been freed is the empty
      list: every access to it is a [Fault].  (Passing the freed block to
      [realloc] again is undefined in C; the model lets that call answer as
      for an array of no slot.) *)

From stdpp Require Import base numbers list.
From Stdlib Require Import ZArith Lia Permutation Sorted.

Local Open Scope Z_scope.

Ltac Zify.zify_post_hook ::= Z.div_mod_to_equations.

(** ** Machine integers *)

Definition size_bits : Z := 64.
Definition SIZE_MOD : Z := 2 ^ size_bits.
Definition wrap (z : Z) : Z := z mod SIZE_MOD.

(** [sizeof(islbh_node)]: a pointer and a [size_t]. *)
Definition sizeof_islbh_node : Z := 16.

Definition ptr : Type := Z.
Definition NULL : ptr := 0.

(** ** Data model *)

(** [typedef int (*islbh_cmp)(const void *, const void *)] *)
Definition islbh_cmp : Type := ptr -> ptr -> Z.

Record islbh_node : Type := mk_node {
  item : ptr;
  index : Z
}.

Record islbh_binary_heap : Type := mk_heap {
  length : Z;
  allocated : Z;
  cmp : islbh_cmp;
  nodes : list (option islbh_node)
}.

Inductive islbh_error : Type :=
| ISLBH_ERROR_OK
| ISLBH_ERROR_BAD_ALLOC
| ISLBH_ERROR_NOT_EXIST
| ISLBH_ERROR_NULL_NODE.

(** A value of type [islbh_node *]: null, the address of slot [i] of the
    heap's current array, or the address of a node object that lives
    elsewhere (a snapshot written by [islbh_batchenq], a node of an array
    that has since been reallocated). *)
Inductive node_ptr : Type :=
| NullNode
| NodeAt (i : Z)
| Detached (n : islbh_node).

(** ** Outcomes *)

Inductive outcome (A : Type) : Type :=
| Done (a : A)
| Fault
| OutOfFuel.
Arguments Done {A} a.
Arguments Fault {A}.
Arguments OutOfFuel {A}.

Definition bind {A B : Type} (c : outcome A) (k : A -> outcome B) : outcome B :=
  match c with
  | Done a => k a
  | Fault => Fault
  | OutOfFuel => OutOfFuel
  end.

Notation "'let*' x ':=' c 'in' k" := (bind c (fun x => k))
  (at level 10, x pattern, c at level 100, k at level 200).

(** ** Array accesses *)

Definition set_nodes (self : islbh_binary_heap) (l : list (option islbh_node)) :=
  mk_heap (length self) (allocated self) (cmp self) l.

Definition set_length (self : islbh_binary_heap) (n : Z) :=
  mk_heap n (allocated self) (cmp self) (nodes self).

(** [self->nodes[i]] as an rvalue. *)
Definition load (self : islbh_binary_heap) (i : Z) : outcome islbh_node :=
  match nodes self !! Z.to_nat i with
  | Some (Some n) => Done n
  | _ => Fault
  end.

(** [self->nodes[i] = n]. *)
Definition store (self : islbh_binary_heap) (i : Z) (n : islbh_node)
  : outcome islbh_binary_heap :=
  if i <? Z.of_nat (List.length (nodes self))
  then Done (set_nodes self (<[Z.to_nat i := Some n]> (nodes self)))
  else Fault.

(** [self->nodes[i].index = v]. *)
Definition store_index (self : islbh_binary_heap) (i v : Z)
  : outcome islbh_binary_heap :=
  let* n := load self i in
  store self i (mk_node (item n) v).

(** ** Creation and growth *)

(** [islbh_create]: [self_ok] and [nodes_ok] are the results of the two
    allocations.  The array holds as many nodes as fit in the
    [prealloc * sizeof(islbh_node)] bytes requested. *)
Definition islbh_create (prealloc : Z) (c : islbh_cmp) (self_ok nodes_ok : bool)
  : option islbh_binary_heap :=
  if self_ok then
    if nodes_ok then
      Some (mk_heap 0 prealloc c
              (replicate
                 (Z.to_nat (wrap (prealloc * sizeof_islbh_node) / sizeof_islbh_node))
                 None))
    else None
  else None.

(** [islbh__grow]: [realloc_ok] tells whether [ISLBH_REALLOC] returned a
    block.  When it returned [NULL], [self] is not written; but a request of
    0 bytes ([sizeof(islbh_node) * newalloc] is 0 in [size_t]) that returns
    [NULL] has freed the array, as [realloc(p, 0)] of the C library does:
    [self->nodes] is left pointing to no slot at all. *)
Definition islbh__grow (self : islbh_binary_heap) (newalloc : Z) (realloc_ok : bool)
  : islbh_error * islbh_binary_heap :=
  if realloc_ok then
    (ISLBH_ERROR_OK,
     mk_heap (length self) newalloc (cmp self)
       (resize
          (Z.to_nat (wrap (sizeof_islbh_node * newalloc) / sizeof_islbh_node))
          None (nodes self)))
  else
    (ISLBH_ERROR_BAD_ALLOC,
     if wrap (sizeof_islbh_node * newalloc) =? 0
     then set_nodes self []
     else self).

(** ** Swap and the sift primitives *)

Definition islbh__swap (self : islbh_binary_heap) (index1 index2 : Z)
  : outcome islbh_binary_heap :=
  let* tmp := load self index1 in
  let* n2 := load self index2 in
  let* self := store self index1 n2 in
  let* self := store self index2 tmp in
  let* self := store_index self index1 index1 in
  store_index self index2 index2.

(** [(index-1) >> 1] *)
Definition parent_of (index : Z) : Z := Z.shiftr (wrap (index - 1)) 1.
(** [(index << 1) + 1] *)
Definition left_of (index : Z) : Z := wrap (wrap (Z.shiftl index 1) + 1).
(** [left + 1] *)
Definition right_of (left : Z) : Z := wrap (left + 1).

Fixpoint siftup_loop (fuel : nat) (self : islbh_binary_heap) (index parent : Z)
  : outcome (Z * islbh_binary_heap) :=
  if 0 <? index then
    let* a := load self index in
    let* b := load self parent in
    if cmp self (item a) (item b) <? 0 then
      match fuel with
      | O => OutOfFuel
      | S fuel' =>
          let* self := islbh__swap self index parent in
          siftup_loop fuel' self parent (parent_of parent)
      end
    else Done (index, self)
  else Done (index, self).

Definition islbh__siftup (self : islbh_binary_heap) (index : Z)
  : outcome (Z * islbh_binary_heap) :=
  siftup_loop (Z.to_nat index) self index (parent_of index).

(** [( right < self->length && cmp(nodes[right].item, nodes[left].item) < 0 )
     ? right : left] *)
Definition higher_child (self : islbh_binary_heap) (left right : Z) : outcome Z :=
  if right <? length self then
    let* r := load self right in
    let* l := load self left in
    Done (if cmp self (item r) (item l) <? 0 then right else left)
  else Done left.

(** The descending loop of [islbh__siftdown_floyd]; returns the leaf reached. *)
Fixpoint floyd_descend (fuel : nat) (self : islbh_binary_heap) (index left right : Z)
  : outcome (Z * islbh_binary_heap) :=
  if left <? length self then
    match fuel with
    | O => OutOfFuel
    | S fuel' =>
        let* higher := higher_child self left right in
        let* self := islbh__swap self index higher in
        floyd_descend fuel' self higher (left_of higher) (right_of (left_of higher))
    end
  else Done (index, self).

Definition islbh__siftdown_floyd (self : islbh_binary_heap) (index : Z)
  : outcome islbh_binary_heap :=
  let* (leaf, self) := floyd_descend (Z.to_nat (length self)) self index
                      (left_of index) (right_of (left_of index)) in
  let* (_, self) := islbh__siftup self leaf in
  Done self.

Fixpoint siftdown_loop (fuel : nat) (self : islbh_binary_heap) (index left right : Z)
  : outcome islbh_binary_heap :=
  if left <? length self then
    match fuel with
    | O => OutOfFuel
    | S fuel' =>
        let* higher := higher_child self left right in
        let* a := load self index in
        let* b := load self higher in
        if cmp self (item a) (item b) <? 0 then Done self
        else
          let* self := islbh__swap self index higher in
          siftdown_loop fuel' self higher (left_of higher) (right_of (left_of higher))
    end
  else Done self.

Definition islbh__siftdown (self : islbh_binary_heap) (index : Z)
  : outcome islbh_binary_heap :=
  siftdown_loop (Z.to_nat (length self)) self index
    (left_of index) (right_of (left_of index)).

(** The [for] loop of [islbh__floyd_algorithm]: [todo] iterations remain,
    the loop variable is [i]. *)
Fixpoint floyd_loop (todo : nat) (self : islbh_binary_heap) (n i : Z)
  : outcome islbh_binary_heap :=
  match todo with
  | O => Done self
  | S todo' =>
      let* self := islbh__siftdown self (wrap (wrap (n - i) - 1)) in
      floyd_loop todo' self n (wrap (i + 1))
  end.

Definition islbh__floyd_algorithm (self : islbh_binary_heap)
  : outcome islbh_binary_heap :=
  let n := Z.shiftr (length self) 1 in
  floyd_loop (Z.to_nat n) self n 0.

(** ** Public operations *)

(** [islbh_enqueue]; [realloc_ok] is the result of the reallocation, if the
    call makes one.  The result is [&self->nodes[index]], or [NULL]. *)
Definition islbh_enqueue (self : islbh_binary_heap) (it : ptr) (realloc_ok : bool)
  : outcome (node_ptr * islbh_binary_heap) :=
  let index := length self in
  let node := mk_node it index in
  let grown :=
    if allocated self <=? length self
    then islbh__grow self (wrap (allocated self * 2)) realloc_ok
    else (ISLBH_ERROR_OK, self) in
  match grown with
  | (ISLBH_ERROR_OK, self) =>
      let* self := store self index node in
      let self := set_length self (wrap (length self + 1)) in
      let* (index, self) := islbh__siftup self index in
      Done (NodeAt index, self)
  | (_, self) => Done (NullNode, self)
  end.

Definition islbh_dequeue (self : islbh_binary_heap)
  : outcome (ptr * islbh_binary_heap) :=
  if length self =? 0 then Done (NULL, self)
  else if length self =? 1 then
    let self := set_length self 0 in
    let* n := load self 0 in
    Done (item n, self)
  else
    let* n := load self 0 in
    let self := set_length self (wrap (length self - 1)) in
    let* self := islbh__swap self 0 (length self) in
    let* self := islbh__siftdown_floyd self 0 in
    Done (item n, self).

Definition islbh_peek (self : islbh_binary_heap) : outcome ptr :=
  let* n := load self 0 in
  Done (item n).

(** [*node] *)
Definition deref (self : islbh_binary_heap) (node : node_ptr) : outcome islbh_node :=
  match node with
  | NullNode => Fault
  | NodeAt i => load self i
  | Detached n => Done n
  end.

(** [self->nodes + i == node] *)
Definition same_slot (i : Z) (node : node_ptr) : bool :=
  match node with
  | NodeAt j => i =? j
  | _ => false
  end.

Definition islbh_update (self : islbh_binary_heap) (node : node_ptr)
  : outcome islbh_binary_heap :=
  let* n := deref self node in
  let* (index, self) := islbh__siftup self (index n) in
  islbh__siftdown self index.

Definition islbh_remove (self : islbh_binary_heap) (node : node_ptr)
  : outcome (islbh_error * islbh_binary_heap) :=
  match node with
  | NullNode => Done (ISLBH_ERROR_NULL_NODE, self)
  | _ =>
      let* n := deref self node in
      if (length self <=? index n) || negb (same_slot (index n) node)
      then Done (ISLBH_ERROR_NOT_EXIST, self)
      else
        let index := index n in
        let self := set_length self (wrap (length self - 1)) in
        let last := length self in
        let* self :=
          (if negb (index =? last) then islbh__swap self index last else Done self) in
        let* self := islbh_update self (NodeAt index) in
        Done (ISLBH_ERROR_OK, self)
  end.

(** The [while ( allocated < length + count ) allocated *= 2] loop. *)
Fixpoint batchenq_capacity (fuel : nat) (allocated target : Z) : outcome Z :=
  if allocated <? target then
    match fuel with
    | O => OutOfFuel
    | S fuel' => batchenq_capacity fuel' (wrap (allocated * 2)) target
    end
  else Done allocated.

(** [items + i*itemsize] *)
Definition item_address (items : ptr) (itemsize i : Z) : ptr :=
  wrap (items + wrap (i * itemsize)).

(** The loop that appends the [count] new leaves. *)
Fixpoint batchenq_append (todo : nat) (self : islbh_binary_heap)
    (items : ptr) (itemsize length i : Z) : outcome islbh_binary_heap :=
  match todo with
  | O => Done self
  | S todo' =>
      let node := mk_node (item_address items itemsize i) (wrap (length + i)) in
      let* self := store self (wrap (length + i)) node in
      batchenq_append todo' self items itemsize length (wrap (i + 1))
  end.

(** The loop that copies the new leaves to the caller's [nodes] array. *)
Fixpoint batchenq_copy (todo : nat) (self : islbh_binary_heap) (length i : Z)
  : outcome (list islbh_node) :=
  match todo with
  | O => Done []
  | S todo' =>
      let* n := load self (wrap (length + i)) in
      let* rest := batchenq_copy todo' self length (wrap (i + 1)) in
      Done (n :: rest)
  end.

(** After [size_bits] doublings the capacity is [0] for good, so
    [size_bits + 1] rounds of the capacity loop decide whether it ends
    (see [batchenq_capacity_fuel]). *)
Definition capacity_fuel : nat := S (Z.to_nat size_bits).

(** [islbh_batchenq]; [want_nodes] tells whether [nodes != NULL], and the
    last component of the result is what the call wrote there. *)
Definition islbh_batchenq (self : islbh_binary_heap) (items : ptr)
    (itemsize count : Z) (want_nodes : bool) (realloc_ok : bool)
  : outcome (islbh_error * islbh_binary_heap * option (list islbh_node)) :=
  let length := length self in
  let* allocated' :=
    batchenq_capacity capacity_fuel (allocated self) (wrap (length + count)) in
  let grown :=
    if allocated self <? allocated'
    then islbh__grow self allocated' realloc_ok
    else (ISLBH_ERROR_OK, self) in
  match grown with
  | (ISLBH_ERROR_OK, self) =>
      let* self := batchenq_append (Z.to_nat count) self items itemsize length 0 in
      let* copied :=
        (if want_nodes
         then let* l := batchenq_copy (Z.to_nat count) self length 0 in Done (Some l)
         else Done None) in
      let self := set_length self (wrap (length + count)) in
      let* self := islbh__floyd_algorithm self in
      Done (ISLBH_ERROR_OK, self, copied)
  | (_, self) => Done (ISLBH_ERROR_BAD_ALLOC, self, None)
  end.

(** ** Callers' loops used by the properties below *)

(** A sequence of [islbh_enqueue] calls, each with the result its
    reallocation would have. *)
Fixpoint enqueue_all (self : islbh_binary_heap) (calls : list (ptr * bool))
  : outcome islbh_binary_heap :=
  match calls with
  | [] => Done self
  | (it, realloc_ok) :: calls' =>
      let* (_, self) := islbh_enqueue self it realloc_ok in
      enqueue_all self calls'
  end.

(** [while ( self->length > 0 ) out[k++] = islbh_dequeue( self )] *)
Fixpoint dequeue_loop (fuel : nat) (self : islbh_binary_heap)
  : outcome (list ptr * islbh_binary_heap) :=
  if 0 <? length self then
    match fuel with
    | O => OutOfFuel
    | S fuel' =>
        let* (it, self) := islbh_dequeue self in
        let* (rest, self) := dequeue_loop fuel' self in
        Done (it :: rest, self)
    end
  else Done ([], self).

Definition dequeue_all (self : islbh_binary_heap)
  : outcome (list ptr * islbh_binary_heap) :=
  dequeue_loop (Z.to_nat (length self)) self.

(** [node->item = x] for the node at slot [i]: the write a caller makes
    through a node pointer when the priority of an item changes. *)
Definition set_item (self : islbh_binary_heap) (i : Z) (x : ptr)
  : outcome islbh_binary_heap :=
  let* n := load self i in
  store self i (mk_node x (index n)).

(** * Vocabulary of the verification *)

(** ** The comparator contract *)

(** A consistent total preorder given by a three-way comparison: the signs
    of [c a b] and [c b a] are opposite, and "not after" is transitive. *)
Record total_preorder (c : islbh_cmp) : Prop := {
  cmp_sign : forall a b, c a b < 0 <-> 0 < c b a;
  cmp_trans : forall x y z, c x y <= 0 -> c y z <= 0 -> c x z <= 0
}.

(** ** Slots and items *)

(** The item of slot [i] ([NULL] where there is no readable slot). *)
Definition key (self : islbh_binary_heap) (i : Z) : ptr :=
  match nodes self !! Z.to_nat i with
  | Some (Some n) => item n
  | _ => NULL
  end.

(** The array after [islbh__swap self i j] (see [swap_done]). *)
Definition swapped (self : islbh_binary_heap) (i j : Z) : islbh_binary_heap :=
  set_nodes self
    (<[Z.to_nat j := Some (mk_node (key self i) j)]>
       (<[Z.to_nat i := Some (mk_node (key self j) i)]> (nodes self))).

Definition slot_item (o : option islbh_node) : ptr :=
  match o with
  | Some n => item n
  | None => NULL
  end.

(** The items of the active slots, in array order. *)
Definition heap_items (self : islbh_binary_heap) : list ptr :=
  slot_item <$> take (Z.to_nat (length self)) (nodes self).

(** [self'] holds the same items as [self], possibly in another order. *)
Definition rearranged (self self' : islbh_binary_heap) : Prop :=
  length self' = length self
  /\ allocated self' = allocated self
  /\ cmp self' = cmp self
  /\ heap_items self' ≡ₚ heap_items self.

(** Slot [k] is on the path from slot [i] to the root, [i] excluded: it is
    the parent of [i], or the parent of a slot of that path. *)
Inductive ancestor : Z -> Z -> Prop :=
| ancestor_parent i : 0 < i -> ancestor ((i - 1) / 2) i
| ancestor_up k i : 0 < i -> ancestor k ((i - 1) / 2) -> ancestor k i.

(** ** Invariants *)

(** What the array must be for the heap to be usable: the counters are
    consistent with the memory that was obtained, and every active slot has
    been written and records its own position. *)
Record heap_rep (self : islbh_binary_heap) : Prop := {
  rep_length : 0 <= length self <= allocated self;
  rep_allocated : allocated self <= Z.of_nat (List.length (nodes self));
  rep_bytes : Z.of_nat (List.length (nodes self)) * sizeof_islbh_node < SIZE_MOD;
  rep_position :
    forall i, 0 <= i < length self -> exists n, load self i = Done n /\ index n = i
}.

(** Slot [j] is not strictly before its parent, the slot at [(j - 1) / 2]. *)
Definition edge (self : islbh_binary_heap) (j : Z) : Prop :=
  cmp self (key self j) (key self ((j - 1) / 2)) >= 0.

(** Heap order: no active slot other than the root is strictly before its
    parent. *)
Definition heap_order (self : islbh_binary_heap) : Prop :=
  forall i, 0 < i < length self -> edge self i.

(** The invariants of the heap. *)
Definition heap_ok (self : islbh_binary_heap) : Prop :=
  heap_rep self /\ heap_order self.

(** The invariants in the words of the specification: [length <= capacity];
    every active slot records its own index; no active slot other than the
    root is strictly before its parent, the slot at [(i - 1) / 2]. *)
Definition spec_invariants (self : islbh_binary_heap) : Prop :=
  length self <= allocated self
  /\ (forall i, 0 <= i < length self ->
        exists n, load self i = Done n /\ index n = i)
  /\ (forall i, 0 < i < length self ->
        exists n p, load self i = Done n /\ load self ((i - 1) / 2) = Done p
                    /\ cmp self (item n) (item p) >= 0).

(** Heap order restricted to the slots whose parent is at or after [k]. *)
Definition ordered_from (k : Z) (self : islbh_binary_heap) : Prop :=
  forall j, 0 < j < length self -> k <= (j - 1) / 2 -> edge self j.

(** Heap order from [k] on, except on the edges that touch slot [i]; the
    children of [i] are nevertheless not before the parent of [i]. *)
Definition hole (k : Z) (self : islbh_binary_heap) (i : Z) : Prop :=
  (forall j, 0 < j < length self -> k <= (j - 1) / 2 ->
             j <> i -> (j - 1) / 2 <> i -> edge self j)
  /\ (forall j, 0 < j < length self -> (j - 1) / 2 = i ->
                0 < i -> k <= (i - 1) / 2 ->
                cmp self (key self j) (key self ((i - 1) / 2)) >= 0).

(** Slot [i] is the root, or has its parent before [k], or is not strictly
    before its parent. *)
Definition up_ok (k : Z) (self : islbh_binary_heap) (i : Z) : Prop :=
  0 < i -> k <= (i - 1) / 2 -> edge self i.

(** No child of slot [i] is strictly before it. *)
Definition down_ok (self : islbh_binary_heap) (i : Z) : Prop :=
  forall j, 0 < j < length self -> (j - 1) / 2 = i -> edge self j.

(** ** Steps of the operations *)

(** The child of [i] that both sift-downs move to: the left one, unless there
    is a right one that is strictly before it. *)
Definition pick (self : islbh_binary_heap) (i : Z) : Z :=
  if (2 * i + 2 <? length self)
     && (cmp self (key self (2 * i + 2)) (key self (2 * i + 1)) <? 0)
  then 2 * i + 2 else 2 * i + 1.

(** The conditional sift-down as the code performs it, step by step: from
    slot [i] of [self] it ends in [self']. *)
Inductive sift_down : islbh_binary_heap -> Z -> islbh_binary_heap -> Prop :=
| sift_down_leaf self i :
    length self <= 2 * i + 1 ->
    sift_down self i self
| sift_down_stop self i :
    2 * i + 1 < length self ->
    cmp self (key self i) (key self (pick self i)) < 0 ->
    sift_down self i self
| sift_down_swap self i self' :
    2 * i + 1 < length self ->
    cmp self (key self i) (key self (pick self i)) >= 0 ->
    sift_down (swapped self i (pick self i)) (pick self i) self' ->
    sift_down self i self'.

(** The conditional sift-down in the words of the specification: pick the
    higher-priority child; if the current slot already outranks or ties
    that child, stop; otherwise swap down and continue. *)
Fixpoint siftdown_as_specified (fuel : nat) (self : islbh_binary_heap) (index : Z)
  : outcome islbh_binary_heap :=
  if 2 * index + 1 <? length self then
    match fuel with
    | O => OutOfFuel
    | S fuel' =>
        let child := pick self index in
        let* a := load self index in
        let* b := load self child in
        if cmp self (item a) (item b) <=? 0 then Done self
        else
          let* self := islbh__swap self index child in
          siftdown_as_specified fuel' self child
    end
  else Done self.

(** What [islbh_enqueue] does once there is room (see [enqueue_unfold]). *)
Definition enqueue_tail (self : islbh_binary_heap) (it : ptr)
  : outcome (node_ptr * islbh_binary_heap) :=
  let index := length self in
  let* self := store self index (mk_node it index) in
  let self := set_length self (wrap (length self + 1)) in
  let* (index, self) := islbh__siftup self index in
  Done (NodeAt index, self).

(** What [islbh_batchenq] does once there is room (see [batchenq_unfold]). *)
Definition batchenq_tail (self : islbh_binary_heap) (items : ptr)
    (itemsize count : Z) (want_nodes : bool)
  : outcome (islbh_error * islbh_binary_heap * option (list islbh_node)) :=
  let length := length self in
  let* self := batchenq_append (Z.to_nat count) self items itemsize length 0 in
  let* copied :=
    (if want_nodes
     then let* l := batchenq_copy (Z.to_nat count) self length 0 in Done (Some l)
     else Done None) in
  let self := set_length self (wrap (length + count)) in
  let* self := islbh__floyd_algorithm self in
  Done (ISLBH_ERROR_OK, self, copied).

(** The item pointers [islbh_batchenq] stores, in order. *)
Definition batch_items (items : ptr) (itemsize count : Z) : list ptr :=
  item_address items itemsize <$> seqZ 0 count.

(** The nodes [islbh_batchenq] copies to the caller's array. *)
Definition batch_snapshot (items : ptr) (itemsize len0 count : Z) : list islbh_node :=
  (fun i => mk_node (item_address items itemsize i) (len0 + i)) <$> seqZ 0 count.

(** ** Dequeued sequences *)

(** The number of items of [l] strictly before [x]. *)
Definition count_before (c : islbh_cmp) (x : ptr) (l : list ptr) : nat :=
  List.length (List.filter (fun y => c y x <? 0) l).

(** What two heaps lead to once they are drained: sorted sequences of the
    same items, equal position by position up to the order of items that
    tie. *)
Definition same_drain (c : islbh_cmp) (hb hs : islbh_binary_heap) : Prop :=
  exists out_b end_b out_s end_s,
    dequeue_all hb = Done (out_b, end_b)
    /\ dequeue_all hs = Done (out_s, end_s)
    /\ length end_b = 0 /\ length end_s = 0
    /\ out_b ≡ₚ out_s
    /\ StronglySorted (fun a b => c a b <= 0) out_b
    /\ StronglySorted (fun a b => c a b <= 0) out_s
    /\ Forall2 (fun a b => c a b = 0) out_b out_s.

(** ** Deciding the invariants of a concrete heap *)

Definition check_rep (self : islbh_binary_heap) : bool :=
  (0 <=? length self) && (length self <=? allocated self)
  && (allocated self <=? Z.of_nat (List.length (nodes self)))
  && (Z.of_nat (List.length (nodes self)) * sizeof_islbh_node <? SIZE_MOD)
  && forallb (fun i => match load self i with
                       | Done n => index n =? i
                       | _ => false
                       end) (seqZ 0 (length self)).

Definition check_ordered_from (k : Z) (self : islbh_binary_heap) : bool :=
  forallb (fun j => implb (k <=? (j - 1) / 2)
                      (0 <=? cmp self (key self j) (key self ((j - 1) / 2))))
    (seqZ 1 (length self - 1)).

Definition check_order (self : islbh_binary_heap) : bool :=
  forallb (fun i => 0 <=? cmp self (key self i) (key self ((i - 1) / 2)))
    (seqZ 1 (length self - 1)).

(** ** Comparators and heaps of the examples *)

(** Items ordered by address. *)
Definition by_address : islbh_cmp := fun a b => a - b.

(** Items ordered by the tens of the address: a comparator with ties. *)
Definition by_tens : islbh_cmp := fun a b => a / 10 - b / 10.

(** A heap of three items in an array of four slots. *)
Definition sample_heap : islbh_binary_heap :=
  mk_heap 3 4 by_address
    [Some (mk_node 10 0); Some (mk_node 50 1); Some (mk_node 30 2); None].

(** The heap left by one enqueue and one dequeue on a new heap of capacity 1. *)
Definition drained_heap : islbh_binary_heap :=
  mk_heap 0 1 by_address [Some (mk_node 7 0)].

(** Two items that tie under [by_tens]. *)
Definition tied_heap : islbh_binary_heap :=
  mk_heap 2 2 by_tens [Some (mk_node 50 0); Some (mk_node 51 1)].

(** A state that is not heap-ordered below the root: the conditional
    sift-down stops at once, the sift-down of [islbh_dequeue] does not. *)
Definition unordered_heap : islbh_binary_heap :=
  mk_heap 4 4 by_address
    [Some (mk_node 10 0); Some (mk_node 50 1); Some (mk_node 60 2); Some (mk_node 5 3)].

(** The heap of [islbh_dequeue] after the last item has been moved to the
    root: only the root is out of order. *)
Definition displaced_heap : islbh_binary_heap :=
  mk_heap 4 5 by_address
    [Some (mk_node 70 0); Some (mk_node 20 1); Some (mk_node 30 2);
     Some (mk_node 40 3); Some (mk_node 10 4)].

(** A heap created with capacity 0: its array has no slot. *)
Definition zero_heap : islbh_binary_heap := mk_heap 0 0 by_address [].



(** * Verification *)

(** ** Machine arithmetic *)

Lemma SIZE_MOD_val : SIZE_MOD = 18446744073709551616.
Proof. reflexivity. Qed.

Lemma wrap_small z : 0 <= z < SIZE_MOD -> wrap z = z.
Proof. intros H. unfold wrap. apply Z.mod_small; assumption. Qed.

Lemma wrap_range z : 0 <= wrap z < SIZE_MOD.
Proof. unfold wrap. apply Z.mod_pos_bound. rewrite SIZE_MOD_val. lia. Qed.

Lemma parent_of_eq i : 0 < i < SIZE_MOD -> parent_of i = (i - 1) / 2.
Proof.
  intros H. unfold parent_of. rewrite wrap_small by lia.
  rewrite Z.shiftr_div_pow2 by lia. reflexivity.
Qed.

Lemma left_of_eq i : 0 <= i -> 2 * i + 1 < SIZE_MOD -> left_of i = 2 * i + 1.
Proof.
  intros H0 H. unfold left_of. rewrite Z.shiftl_mul_pow2 by lia.
  change (2 ^ 1) with 2. rewrite (wrap_small (i * 2)) by lia.
  rewrite wrap_small by lia. lia.
Qed.

Lemma right_of_eq l : 0 <= l -> l + 1 < SIZE_MOD -> right_of l = l + 1.
Proof. intros H0 H. unfold right_of. apply wrap_small. lia. Qed.

(** ** The array *)

Lemma load_Done self i n :
  load self i = Done n <-> nodes self !! Z.to_nat i = Some (Some n).
Proof.
  unfold load. destruct (nodes self !! Z.to_nat i) as [[m|]|]; split; intros H;
    try discriminate; congruence.
Qed.

Lemma load_key self i n : load self i = Done n -> key self i = item n.
Proof. intros H. apply load_Done in H. unfold key. rewrite H. reflexivity. Qed.

Lemma load_bound self i n :
  0 <= i -> load self i = Done n -> i < Z.of_nat (List.length (nodes self)).
Proof.
  intros Hi H. apply load_Done in H. apply lookup_lt_Some in H. lia.
Qed.

Lemma load_set_length self n i : load (set_length self n) i = load self i.
Proof. reflexivity. Qed.

Lemma key_set_length self n i : key (set_length self n) i = key self i.
Proof. reflexivity. Qed.

Lemma store_Done self i n :
  0 <= i < Z.of_nat (List.length (nodes self)) ->
  store self i n = Done (set_nodes self (<[Z.to_nat i := Some n]> (nodes self))).
Proof.
  intros H. unfold store. destruct (Z.ltb_spec i (Z.of_nat (List.length (nodes self)))).
  - reflexivity.
  - lia.
Qed.

Lemma load_store_eq self i n :
  0 <= i < Z.of_nat (List.length (nodes self)) ->
  load (set_nodes self (<[Z.to_nat i := Some n]> (nodes self))) i = Done n.
Proof.
  intros H. apply load_Done. simpl. apply list_lookup_insert_eq. lia.
Qed.

Lemma load_store_ne self i j n :
  0 <= i -> 0 <= j -> i <> j ->
  load (set_nodes self (<[Z.to_nat i := Some n]> (nodes self))) j = load self j.
Proof.
  intros Hi Hj Hne. unfold load. simpl.
  rewrite list_lookup_insert_ne by lia. reflexivity.
Qed.

Lemma store_index_Done self i v n :
  0 <= i -> load self i = Done n ->
  store_index self i v
  = Done (set_nodes self (<[Z.to_nat i := Some (mk_node (item n) v)]> (nodes self))).
Proof.
  intros Hi H. unfold store_index. rewrite H. simpl.
  apply store_Done. split; [assumption | eapply load_bound; eassumption].
Qed.

Lemma swap_done self i j a b :
  0 <= i -> 0 <= j ->
  load self i = Done a -> load self j = Done b ->
  islbh__swap self i j = Done (swapped self i j).
Proof.
  intros Hi Hj Ha Hb.
  pose proof (load_bound _ _ _ Hi Ha) as Bi.
  pose proof (load_bound _ _ _ Hj Hb) as Bj.
  unfold islbh__swap, swapped. rewrite Ha, Hb. simpl.
  rewrite (load_key _ _ _ Ha), (load_key _ _ _ Hb).
  rewrite store_Done by lia. simpl.
  rewrite store_Done by (simpl; rewrite length_insert; lia). simpl.
  destruct (Z.eq_dec i j) as [->|Hne].
  - assert (a = b) by congruence. subst b.
    rewrite list_insert_insert_eq.
    erewrite store_index_Done; [|lia|].
    2:{ apply load_Done. simpl. apply list_lookup_insert_eq. lia. }
    simpl. rewrite list_insert_insert_eq.
    erewrite store_index_Done; [|lia|].
    2:{ apply load_Done. simpl. apply list_lookup_insert_eq. lia. }
    simpl. unfold set_nodes. simpl. rewrite !list_insert_insert_eq. reflexivity.
  - erewrite store_index_Done; [|lia|].
    2:{ apply load_Done. simpl. rewrite list_lookup_insert_ne by lia.
        apply list_lookup_insert_eq. lia. }
    simpl.
    erewrite store_index_Done; [|lia|].
    2:{ apply load_Done. simpl. rewrite list_lookup_insert_ne by lia.
        apply list_lookup_insert_eq. rewrite length_insert. lia. }
    simpl. unfold set_nodes. simpl. f_equal. f_equal.
    rewrite (list_insert_insert_ne _ (Z.to_nat i) (Z.to_nat j)) by lia.
    rewrite list_insert_insert_eq.
    f_equal. apply list_insert_insert_eq.
Qed.

Lemma swapped_fields self i j :
  length (swapped self i j) = length self
  /\ allocated (swapped self i j) = allocated self
  /\ cmp (swapped self i j) = cmp self
  /\ List.length (nodes (swapped self i j)) = List.length (nodes self).
Proof.
  unfold swapped, set_nodes; simpl. rewrite !length_insert. repeat split.
Qed.

Lemma load_swapped_l self i j a b :
  0 <= i -> 0 <= j -> i <> j ->
  load self i = Done a -> load self j = Done b ->
  load (swapped self i j) i = Done (mk_node (item b) i).
Proof.
  intros Hi Hj Hne Ha Hb.
  pose proof (load_bound _ _ _ Hi Ha). pose proof (load_bound _ _ _ Hj Hb).
  apply load_Done. unfold swapped; simpl.
  rewrite list_lookup_insert_ne by lia.
  rewrite list_lookup_insert_eq by lia.
  rewrite (load_key _ _ _ Hb). reflexivity.
Qed.

Lemma load_swapped_r self i j a b :
  0 <= i -> 0 <= j ->
  load self i = Done a -> load self j = Done b ->
  load (swapped self i j) j = Done (mk_node (item a) j).
Proof.
  intros Hi Hj Ha Hb.
  pose proof (load_bound _ _ _ Hi Ha). pose proof (load_bound _ _ _ Hj Hb).
  apply load_Done. unfold swapped; simpl.
  rewrite list_lookup_insert_eq by (rewrite length_insert; lia).
  rewrite (load_key _ _ _ Ha). reflexivity.
Qed.

Lemma load_swapped_other self i j k :
  0 <= i -> 0 <= j -> 0 <= k -> k <> i -> k <> j ->
  load (swapped self i j) k = load self k.
Proof.
  intros Hi Hj Hk Hki Hkj. unfold load, swapped; simpl.
  rewrite !list_lookup_insert_ne by lia. reflexivity.
Qed.

Lemma key_swapped_l self i j a b :
  0 <= i -> 0 <= j ->
  load self i = Done a -> load self j = Done b ->
  key (swapped self i j) i = key self j.
Proof.
  intros Hi Hj Ha Hb. destruct (Z.eq_dec i j) as [->|Hne].
  - erewrite (load_key (swapped self j j)) by (eapply load_swapped_r; eassumption).
    simpl. symmetry. apply load_key. assumption.
  - erewrite (load_key (swapped self i j)) by (eapply load_swapped_l; eassumption).
    simpl. symmetry. apply load_key. assumption.
Qed.

Lemma key_swapped_r self i j a b :
  0 <= i -> 0 <= j ->
  load self i = Done a -> load self j = Done b ->
  key (swapped self i j) j = key self i.
Proof.
  intros Hi Hj Ha Hb.
  erewrite (load_key (swapped self i j)) by (eapply load_swapped_r; eassumption).
  simpl. symmetry. apply load_key. assumption.
Qed.

Lemma key_swapped_other self i j k :
  0 <= i -> 0 <= j -> 0 <= k -> k <> i -> k <> j ->
  key (swapped self i j) k = key self k.
Proof.
  intros Hi Hj Hk Hki Hkj. unfold key, swapped; simpl.
  rewrite !list_lookup_insert_ne by lia. reflexivity.
Qed.

(** ** The comparator contract *)

Section Comparator.
Variable c : islbh_cmp.
Hypothesis TP : total_preorder c.

Lemma cmp_refl a : c a a = 0.
Proof. pose proof (cmp_sign c TP a a). lia. Qed.

Lemma cmp_ge_le a b : c a b >= 0 <-> c b a <= 0.
Proof. pose proof (cmp_sign c TP a b). lia. Qed.

Lemma cmp_lt_ge a b : c a b < 0 -> c b a >= 0.
Proof. pose proof (cmp_sign c TP a b). lia. Qed.

Lemma cmp_ge_trans x y z : c x y >= 0 -> c y z >= 0 -> c x z >= 0.
Proof.
  intros H1 H2. apply cmp_ge_le. apply cmp_ge_le in H1. apply cmp_ge_le in H2.
  eapply cmp_trans; eassumption.
Qed.

(** [x] strictly before [y] and [y] not after [z]: [x] strictly before [z]. *)
Lemma cmp_lt_ge_lt x y z : c x y < 0 -> c z y >= 0 -> c x z < 0.
Proof.
  intros H1 H2. destruct (Z_lt_ge_dec (c x z) 0) as [H|H]; [assumption|].
  exfalso. apply cmp_ge_le in H. apply cmp_ge_le in H2.
  pose proof (cmp_trans c TP _ _ _ H2 H) as H3.
  pose proof (cmp_sign c TP x y). pose proof (cmp_sign c TP y x). lia.
Qed.

Lemma cmp_lt_ge_ge x y z : c x y < 0 -> c z y >= 0 -> c z x >= 0.
Proof.
  intros H1 H2. apply cmp_lt_ge. eapply cmp_lt_ge_lt; eassumption.
Qed.
End Comparator.

(** ** Invariants *)

Lemma heap_order_ordered_from self : heap_order self <-> ordered_from 0 self.
Proof.
  unfold heap_order, ordered_from. split; intros H j Hj.
  - intros _. auto.
  - apply H; [assumption|]. lia.
Qed.

Lemma hole_closed k self i :
  hole k self i -> up_ok k self i -> down_ok self i -> ordered_from k self.
Proof.
  intros [H1 _] Hup Hdown j Hj Hk.
  destruct (Z.eq_dec j i) as [->|Hne].
  - apply Hup; lia.
  - destruct (Z.eq_dec ((j - 1) / 2) i) as [He|Hne'].
    + apply Hdown; assumption.
    + apply H1; assumption.
Qed.

Lemma ordered_from_hole k self i :
  total_preorder (cmp self) ->
  k <= i -> ordered_from k self -> hole k self i.
Proof.
  intros TP Hk H. split.
  - intros j Hj Hkj _ _. apply H; assumption.
  - intros j Hj Hp Hi Hki.
    eapply cmp_ge_trans; [exact TP | |].
    + pose proof (H j Hj ltac:(lia)) as E. unfold edge in E. rewrite Hp in E. exact E.
    + apply (H i); lia.
Qed.

Lemma rep_bound self :
  heap_rep self -> length self * sizeof_islbh_node < SIZE_MOD.
Proof.
  intros [[H0 H1] H2 H3 _]. unfold sizeof_islbh_node in *. lia.
Qed.

Lemma rep_load self i :
  heap_rep self -> 0 <= i < length self ->
  exists n, load self i = Done n /\ index n = i /\ item n = key self i.
Proof.
  intros R Hi. destruct (rep_position _ R i Hi) as (n & Hn & Hx).
  exists n. repeat split; try assumption. symmetry. apply load_key. assumption.
Qed.

Lemma heap_rep_swapped self i j a b :
  heap_rep self -> 0 <= i -> 0 <= j ->
  load self i = Done a -> load self j = Done b ->
  heap_rep (swapped self i j).
Proof.
  intros R Hi Hj Ha Hb.
  destruct (swapped_fields self i j) as (Hl & Hal & _ & Hn).
  constructor.
  - rewrite Hl, Hal. apply R.
  - rewrite Hal, Hn. apply R.
  - rewrite Hn. apply R.
  - intros k Hk. rewrite Hl in Hk.
    destruct (Z.eq_dec k j) as [->|Hkj].
    + eexists. split; [eapply load_swapped_r; eassumption | reflexivity].
    + destruct (Z.eq_dec k i) as [->|Hki].
      * eexists. split; [eapply load_swapped_l; eassumption | reflexivity].
      * rewrite load_swapped_other by lia. apply R. assumption.
Qed.

Lemma heap_items_lookup self i :
  0 <= i < length self -> length self <= Z.of_nat (List.length (nodes self)) ->
  heap_items self !! Z.to_nat i = Some (key self i).
Proof.
  intros Hi Hl. unfold heap_items, key.
  rewrite list_lookup_fmap, lookup_take_lt by lia.
  destruct (nodes self !! Z.to_nat i) as [o|] eqn:E.
  - destruct o; reflexivity.
  - apply lookup_ge_None in E. lia.
Qed.

Lemma heap_items_swapped self i j :
  0 <= i < length self -> 0 <= j < length self ->
  length self <= Z.of_nat (List.length (nodes self)) ->
  heap_items (swapped self i j) ≡ₚ heap_items self.
Proof.
  intros Hi Hj Hl.
  pose proof (heap_items_lookup self i Hi Hl) as Li.
  pose proof (heap_items_lookup self j Hj Hl) as Lj.
  unfold heap_items in *. unfold swapped; simpl.
  rewrite !take_insert_lt by lia. rewrite !list_fmap_insert. simpl.
  apply Permutation_insert_swap; assumption.
Qed.

Lemma heap_items_length self :
  0 <= length self <= Z.of_nat (List.length (nodes self)) ->
  Z.of_nat (List.length (heap_items self)) = length self.
Proof.
  intros H. unfold heap_items. rewrite length_fmap, length_take. lia.
Qed.

Lemma rearranged_refl self : rearranged self self.
Proof. unfold rearranged. auto. Qed.

Lemma rearranged_trans a b c :
  rearranged a b -> rearranged b c -> rearranged a c.
Proof.
  intros (H1 & H2 & H3 & H4) (G1 & G2 & G3 & G4).
  repeat split; try congruence. etransitivity; eassumption.
Qed.

Lemma rearranged_swapped self i j :
  heap_rep self -> 0 <= i < length self -> 0 <= j < length self ->
  rearranged self (swapped self i j).
Proof.
  intros R Hi Hj. destruct (swapped_fields self i j) as (Hl & Hal & Hc & _).
  repeat split; try assumption.
  apply heap_items_swapped; try assumption.
  destruct R as [[? ?] ? _ _]. lia.
Qed.

Lemma key_swapped self i j k a b :
  0 <= i -> 0 <= j -> 0 <= k ->
  load self i = Done a -> load self j = Done b ->
  key (swapped self i j) k
  = if k =? j then key self i else if k =? i then key self j else key self k.
Proof.
  intros Hi Hj Hk Ha Hb.
  destruct (Z.eqb_spec k j) as [->|Hkj].
  - eapply key_swapped_r; eassumption.
  - destruct (Z.eqb_spec k i) as [->|Hki].
    + eapply key_swapped_l; eassumption.
    + apply key_swapped_other; assumption.
Qed.

(** Rewrites the keys of a swapped array, deciding the index comparisons by
    linear arithmetic. *)
Ltac swapped_keys Hi Hj Ha Hb :=
  repeat match goal with
  | |- context [key (swapped ?h ?i ?j) ?k] =>
      rewrite (key_swapped h i j k _ _ Hi Hj ltac:(lia) Ha Hb);
      repeat match goal with
      | |- context [?x =? ?y] =>
          first [ replace (x =? y) with true by (symmetry; apply Z.eqb_eq; lia)
                | replace (x =? y) with false by (symmetry; apply Z.eqb_neq; lia) ]
      end
  end.

(** ** Sift-up *)

Section SiftUp.
Variable self : islbh_binary_heap.
Hypothesis TP : total_preorder (cmp self).
Hypothesis R : heap_rep self.
Variable i : Z.
Hypothesis Hi : 0 < i < length self.
Hypothesis Hlt : cmp self (key self i) (key self ((i - 1) / 2)) < 0.
Hypothesis Hhole : hole 0 self i.

Let p := (i - 1) / 2.

Lemma siftup_step_loads :
  exists a b, load self i = Done a /\ load self p = Done b.
Proof.
  destruct (rep_load self i R ltac:(lia)) as (a & Ha & _).
  destruct (rep_load self p R ltac:(unfold p; lia)) as (b & Hb & _).
  eauto.
Qed.

Lemma siftup_step_hole : hole 0 (swapped self i p) p.
Proof.
  destruct siftup_step_loads as (a & b & Ha & Hb).
  assert (Hi0 : 0 <= i) by lia. assert (Hp0 : 0 <= p) by (unfold p; lia).
  destruct Hhole as [H1 H2].
  destruct (swapped_fields self i p) as (Hl & _ & Hc & _).
  split.
  - intros j Hj _ Hjp Hpp. rewrite Hl in Hj. unfold edge. rewrite Hc.
    fold p in Hpp.
    destruct (Z.eq_dec ((j - 1) / 2) i) as [Hji|Hji].
    + rewrite Hji. swapped_keys Hi0 Hp0 Ha Hb.
      apply (H2 j); unfold p in *; lia.
    + assert (j <> i) by (intros ->; unfold p in *; lia).
      swapped_keys Hi0 Hp0 Ha Hb. apply (H1 j); unfold p in *; lia.
  - intros j Hj Hjp Hp _. rewrite Hl in Hj. rewrite Hc.
    assert (E : cmp self (key self p) (key self ((p - 1) / 2)) >= 0).
    { apply (H1 p); unfold p in *; lia. }
    destruct (Z.eq_dec j i) as [->|Hji].
    + swapped_keys Hi0 Hp0 Ha Hb. exact E.
    + swapped_keys Hi0 Hp0 Ha Hb.
      eapply cmp_ge_trans; [exact TP | | exact E].
      pose proof (H1 j Hj ltac:(lia) Hji ltac:(unfold p in *; lia)) as E'.
      unfold edge in E'. rewrite Hjp in E'. exact E'.
Qed.

Lemma siftup_step_down : down_ok (swapped self i p) p.
Proof.
  destruct siftup_step_loads as (a & b & Ha & Hb).
  assert (Hi0 : 0 <= i) by lia. assert (Hp0 : 0 <= p) by (unfold p; lia).
  destruct Hhole as [H1 H2].
  destruct (swapped_fields self i p) as (Hl & _ & Hc & _).
  intros j Hj Hjp. rewrite Hl in Hj. unfold edge. rewrite Hc, Hjp.
  destruct (Z.eq_dec j i) as [->|Hji].
  - swapped_keys Hi0 Hp0 Ha Hb. apply cmp_lt_ge; [exact TP | exact Hlt].
  - swapped_keys Hi0 Hp0 Ha Hb.
    eapply cmp_lt_ge_ge; [exact TP | exact Hlt |].
    pose proof (H1 j Hj ltac:(lia) Hji ltac:(unfold p in *; lia)) as E'.
    unfold edge in E'. rewrite Hjp in E'. exact E'.
Qed.
End SiftUp.

Lemma siftup_loop_eq fuel self i p :
  siftup_loop fuel self i p =
  if 0 <? i then
    let* a := load self i in
    let* b := load self p in
    if cmp self (item a) (item b) <? 0 then
      match fuel with
      | O => OutOfFuel
      | S fuel' =>
          let* self := islbh__swap self i p in
          siftup_loop fuel' self p (parent_of p)
      end
    else Done (i, self)
  else Done (i, self).
Proof. destruct fuel; reflexivity. Qed.

Lemma siftup_loop_correct fuel : forall self i,
  total_preorder (cmp self) -> heap_rep self ->
  0 <= i < length self -> (Z.to_nat i <= fuel)%nat -> hole 0 self i ->
  exists j self',
    siftup_loop fuel self i (parent_of i) = Done (j, self')
    /\ heap_rep self' /\ rearranged self self' /\ 0 <= j <= i
    /\ hole 0 self' j /\ up_ok 0 self' j
    /\ (j < i \/ down_ok self i -> down_ok self' j)
    /\ (j = i -> self' = self).
Proof.
  assert (Stay : forall self i, heap_rep self -> 0 <= i -> hole 0 self i ->
            up_ok 0 self i ->
            exists j self', Done (i, self) = Done (j, self')
              /\ heap_rep self' /\ rearranged self self' /\ 0 <= j <= i
              /\ hole 0 self' j /\ up_ok 0 self' j
              /\ (j < i \/ down_ok self i -> down_ok self' j)
              /\ (j = i -> self' = self)).
  { intros self i R Hi Hhole Hup. exists i, self.
    split; [reflexivity|]. split; [exact R|]. split; [apply rearranged_refl|].
    split; [lia|]. split; [exact Hhole|]. split; [exact Hup|].
    split; [intros [?|?]; [lia | assumption] | reflexivity]. }
  induction fuel as [|fuel IH]; intros self i TP R Hi Hfuel Hhole;
    rewrite siftup_loop_eq; pose proof (rep_bound self R) as RB;
    unfold sizeof_islbh_node in RB.
  - assert (i = 0) by lia. subst i. simpl.
    apply Stay; try assumption; try lia. intros ?; lia.
  - destruct (Z.ltb_spec 0 i) as [Hpos|Hzero].
    2:{ apply Stay; try assumption; try lia. intros ?; lia. }
    rewrite parent_of_eq by lia.
    destruct (rep_load self i R ltac:(lia)) as (a & Ha & _ & Ka).
    destruct (rep_load self ((i - 1) / 2) R ltac:(lia)) as (b & Hb & _ & Kb).
    rewrite Ha, Hb. simpl. rewrite Ka, Kb.
    destruct (Z.ltb_spec (cmp self (key self i) (key self ((i - 1) / 2))) 0) as [Hlt|Hge].
    + erewrite swap_done by (try eassumption; lia). simpl.
      destruct (swapped_fields self i ((i - 1) / 2)) as (Hl & Hal & Hc & Hn).
      destruct (IH (swapped self i ((i - 1) / 2)) ((i - 1) / 2))
        as (j & self' & Hrun & R' & Hre & Hj & Hh' & Hup' & Hdown' & _).
      * rewrite Hc. exact TP.
      * eapply heap_rep_swapped; try eassumption; lia.
      * rewrite Hl. lia.
      * lia.
      * apply siftup_step_hole; try assumption; lia.
      * exists j, self'. split; [exact Hrun|].
        split; [exact R'|]. split.
        { eapply rearranged_trans; [|exact Hre].
          apply rearranged_swapped; [assumption | lia | lia]. }
        split; [lia|]. split; [exact Hh'|]. split; [exact Hup'|]. split.
        { intros _. apply Hdown'. right.
          apply siftup_step_down; try assumption; lia. }
        { intros ->. lia. }
    + apply Stay; try assumption; try lia.
      intros _ _. unfold edge. lia.
Qed.

Lemma siftup_correct self i :
  total_preorder (cmp self) -> heap_rep self ->
  0 <= i < length self -> hole 0 self i ->
  exists j self',
    islbh__siftup self i = Done (j, self')
    /\ heap_rep self' /\ rearranged self self' /\ 0 <= j <= i
    /\ hole 0 self' j /\ up_ok 0 self' j
    /\ (j < i \/ down_ok self i -> down_ok self' j)
    /\ (j = i -> self' = self).
Proof.
  intros. unfold islbh__siftup. apply siftup_loop_correct; auto.
Qed.

(** ** The higher-priority child *)

Lemma higher_child_pick self i :
  heap_rep self -> 0 <= i -> 2 * i + 1 < length self ->
  higher_child self (left_of i) (right_of (left_of i)) = Done (pick self i).
Proof.
  intros R Hi Hl. pose proof (rep_bound self R) as RB. unfold sizeof_islbh_node in RB.
  rewrite left_of_eq by lia. rewrite right_of_eq by lia.
  unfold higher_child, pick. replace (2 * i + 1 + 1) with (2 * i + 2) by lia.
  destruct (Z.ltb_spec (2 * i + 2) (length self)) as [Hr|Hr]; simpl; [|reflexivity].
  destruct (rep_load self (2 * i + 2) R ltac:(lia)) as (r & Hr' & _ & Kr).
  destruct (rep_load self (2 * i + 1) R ltac:(lia)) as (l & Hl' & _ & Kl).
  rewrite Hr', Hl'. simpl. rewrite Kr, Kl.
  destruct (cmp self (key self (2 * i + 2)) (key self (2 * i + 1)) <? 0); reflexivity.
Qed.

Lemma pick_child self i :
  0 <= i -> 2 * i + 1 < length self ->
  i < pick self i < length self /\ (pick self i - 1) / 2 = i.
Proof.
  intros Hi Hl. unfold pick.
  destruct (Z.ltb_spec (2 * i + 2) (length self)); simpl;
    [destruct (cmp self (key self (2 * i + 2)) (key self (2 * i + 1)) <? 0)|]; lia.
Qed.

Lemma pick_first self i j :
  total_preorder (cmp self) ->
  0 <= i -> 0 < j < length self -> (j - 1) / 2 = i ->
  cmp self (key self j) (key self (pick self i)) >= 0.
Proof.
  intros TP Hi Hj Hp. unfold pick.
  assert (Hcases : j = 2 * i + 1 \/ j = 2 * i + 2) by lia.
  destruct (Z.ltb_spec (2 * i + 2) (length self)) as [Hr|Hr]; simpl.
  - destruct (Z.ltb_spec (cmp self (key self (2 * i + 2)) (key self (2 * i + 1))) 0)
      as [Hlt|Hge].
    + destruct Hcases as [->| ->].
      * apply cmp_lt_ge; assumption.
      * rewrite cmp_refl by assumption. lia.
    + destruct Hcases as [->| ->].
      * rewrite cmp_refl by assumption. lia.
      * lia.
  - assert (j = 2 * i + 1) by lia. subst j. rewrite cmp_refl by assumption. lia.
Qed.

(** ** One step down *)

Section Descend.
Variable self : islbh_binary_heap.
Hypothesis TP : total_preorder (cmp self).
Hypothesis R : heap_rep self.
Variables k i : Z.
Hypothesis Hk : 0 <= k <= i.
Hypothesis Hchild : 2 * i + 1 < length self.
Hypothesis Hhole : hole k self i.

Let c := pick self i.

Lemma descend_loads :
  exists a b, load self i = Done a /\ load self c = Done b.
Proof.
  destruct (pick_child self i ltac:(lia) Hchild) as [Hc _]. fold c in Hc.
  destruct (rep_load self i R ltac:(lia)) as (a & Ha & _).
  destruct (rep_load self c R ltac:(lia)) as (b & Hb & _).
  eauto.
Qed.

Lemma descend_hole : hole k (swapped self i c) c.
Proof.
  destruct descend_loads as (a & b & Ha & Hb).
  destruct (pick_child self i ltac:(lia) Hchild) as [Hc Hcp]. fold c in Hc, Hcp.
  assert (Hi0 : 0 <= i) by lia. assert (Hc0 : 0 <= c) by lia.
  destruct Hhole as [H1 H2].
  destruct (swapped_fields self i c) as (Hl & _ & Hcm & _).
  split.
  - intros j Hj Hkj Hjc Hpc. rewrite Hl in Hj. unfold edge. rewrite Hcm.
    destruct (Z.eq_dec j i) as [->|Hji].
    + swapped_keys Hi0 Hc0 Ha Hb. apply (H2 c); lia.
    + destruct (Z.eq_dec ((j - 1) / 2) i) as [Hpi|Hpi].
      * rewrite Hpi. swapped_keys Hi0 Hc0 Ha Hb.
        apply pick_first; try assumption; lia.
      * swapped_keys Hi0 Hc0 Ha Hb. apply (H1 j); lia.
  - intros j Hj Hjc _ Hkc. rewrite Hl in Hj. rewrite Hcm, Hcp.
    swapped_keys Hi0 Hc0 Ha Hb.
    pose proof (H1 j Hj ltac:(lia) ltac:(lia) ltac:(lia)) as E.
    unfold edge in E. rewrite Hjc in E. exact E.
Qed.

Lemma descend_up :
  cmp self (key self i) (key self c) >= 0 -> up_ok k (swapped self i c) c.
Proof.
  intros Hge.
  destruct descend_loads as (a & b & Ha & Hb).
  destruct (pick_child self i ltac:(lia) Hchild) as [Hc Hcp]. fold c in Hc, Hcp.
  assert (Hi0 : 0 <= i) by lia. assert (Hc0 : 0 <= c) by lia.
  destruct (swapped_fields self i c) as (_ & _ & Hcm & _).
  intros _ _. unfold edge. rewrite Hcm, Hcp.
  swapped_keys Hi0 Hc0 Ha Hb. exact Hge.
Qed.

Lemma descend_stop :
  cmp self (key self i) (key self c) < 0 -> down_ok self i.
Proof.
  intros Hlt j Hj Hp. unfold edge. rewrite Hp.
  eapply cmp_lt_ge_ge; [exact TP | exact Hlt |].
  apply pick_first; try assumption; lia.
Qed.
End Descend.

Lemma no_child_down_ok self i :
  0 <= i -> length self <= 2 * i + 1 -> down_ok self i.
Proof. intros Hi Hl j Hj Hp. lia. Qed.

(** ** Conditional sift-down *)

Lemma siftdown_loop_eq fuel self i l r :
  siftdown_loop fuel self i l r =
  if l <? length self then
    match fuel with
    | O => OutOfFuel
    | S fuel' =>
        let* higher := higher_child self l r in
        let* a := load self i in
        let* b := load self higher in
        if cmp self (item a) (item b) <? 0 then Done self
        else
          let* self := islbh__swap self i higher in
          siftdown_loop fuel' self higher (left_of higher) (right_of (left_of higher))
    end
  else Done self.
Proof. destruct fuel; reflexivity. Qed.

Lemma siftdown_loop_correct k fuel : forall self i,
  total_preorder (cmp self) -> heap_rep self ->
  0 <= k <= i -> (Z.to_nat (length self - i) <= fuel)%nat ->
  2 * i + 1 < SIZE_MOD ->
  hole k self i -> up_ok k self i ->
  exists self',
    siftdown_loop fuel self i (left_of i) (right_of (left_of i)) = Done self'
    /\ heap_rep self' /\ rearranged self self' /\ ordered_from k self'.
Proof.
  induction fuel as [|fuel IH]; intros self i TP R Hk Hfuel Hsmall Hhole Hup;
    rewrite siftdown_loop_eq; rewrite (left_of_eq i) by lia.
  - destruct (Z.ltb_spec (2 * i + 1) (length self)) as [Hl|Hl]; [lia|].
    exists self. split; [reflexivity|]. split; [exact R|].
    split; [apply rearranged_refl|].
    eapply hole_closed; [exact Hhole | exact Hup |].
    apply no_child_down_ok; lia.
  - destruct (Z.ltb_spec (2 * i + 1) (length self)) as [Hl|Hl].
    2:{ exists self. split; [reflexivity|]. split; [exact R|].
        split; [apply rearranged_refl|].
        eapply hole_closed; [exact Hhole | exact Hup |].
        apply no_child_down_ok; lia. }
    rewrite <- (left_of_eq i) by lia.
    rewrite higher_child_pick by (try assumption; lia). simpl.
    destruct (pick_child self i ltac:(lia) Hl) as [Hc Hcp].
    destruct (rep_load self i R ltac:(lia)) as (a & Ha & _ & Ka).
    destruct (rep_load self (pick self i) R ltac:(lia)) as (b & Hb & _ & Kb).
    rewrite Ha, Hb. simpl. rewrite Ka, Kb.
    destruct (Z.ltb_spec (cmp self (key self i) (key self (pick self i))) 0) as [Hlt|Hge].
    + exists self. split; [reflexivity|]. split; [exact R|].
      split; [apply rearranged_refl|].
      eapply hole_closed; [exact Hhole | exact Hup |].
      eapply descend_stop; try eassumption; lia.
    + erewrite swap_done by (try eassumption; lia). simpl.
      destruct (swapped_fields self i (pick self i)) as (Hlen & Hal & Hc' & Hn).
      pose proof (rep_bound self R) as RB. unfold sizeof_islbh_node in RB.
      destruct (IH (swapped self i (pick self i)) (pick self i))
        as (self' & Hrun & R' & Hre & Hord).
      * rewrite Hc'. exact TP.
      * eapply heap_rep_swapped; try eassumption; lia.
      * lia.
      * rewrite Hlen. lia.
      * lia.
      * eapply descend_hole; try eassumption; lia.
      * eapply descend_up; try eassumption; lia.
      * exists self'. split; [exact Hrun|]. split; [exact R'|].
        split; [|exact Hord].
        eapply rearranged_trans; [|exact Hre].
        apply rearranged_swapped; [assumption | lia | lia].
Qed.

Lemma siftdown_correct k self i :
  total_preorder (cmp self) -> heap_rep self ->
  0 <= k <= i -> i < length self ->
  hole k self i -> up_ok k self i ->
  exists self',
    islbh__siftdown self i = Done self'
    /\ heap_rep self' /\ rearranged self self' /\ ordered_from k self'.
Proof.
  intros TP R Hk Hi Hhole Hup. unfold islbh__siftdown.
  pose proof (rep_bound self R) as RB. unfold sizeof_islbh_node in RB.
  apply siftdown_loop_correct; try assumption; lia.
Qed.

(** Below the last parent the loop does not run at all. *)
Lemma siftdown_leaf self i :
  0 <= i -> length self <= 2 * i + 1 -> 2 * i + 1 < SIZE_MOD ->
  islbh__siftdown self i = Done self.
Proof.
  intros Hi Hl Hs. unfold islbh__siftdown. rewrite siftdown_loop_eq.
  rewrite left_of_eq by lia.
  destruct (Z.ltb_spec (2 * i + 1) (length self)); [lia | reflexivity].
Qed.

(** ** The sift-down of [islbh_dequeue] *)

Lemma floyd_descend_eq fuel self i l r :
  floyd_descend fuel self i l r =
  if l <? length self then
    match fuel with
    | O => OutOfFuel
    | S fuel' =>
        let* higher := higher_child self l r in
        let* self := islbh__swap self i higher in
        floyd_descend fuel' self higher (left_of higher) (right_of (left_of higher))
    end
  else Done (i, self).
Proof. destruct fuel; reflexivity. Qed.

Lemma floyd_descend_correct fuel : forall self i,
  total_preorder (cmp self) -> heap_rep self ->
  0 <= i < length self -> (Z.to_nat (length self - i) <= fuel)%nat ->
  hole 0 self i ->
  exists leaf self',
    floyd_descend fuel self i (left_of i) (right_of (left_of i)) = Done (leaf, self')
    /\ heap_rep self' /\ rearranged self self' /\ i <= leaf < length self
    /\ hole 0 self' leaf /\ down_ok self' leaf.
Proof.
  induction fuel as [|fuel IH]; intros self i TP R Hi Hfuel Hhole;
    rewrite floyd_descend_eq; pose proof (rep_bound self R) as RB;
    unfold sizeof_islbh_node in RB; rewrite (left_of_eq i) by lia.
  - lia.
  - destruct (Z.ltb_spec (2 * i + 1) (length self)) as [Hl|Hl].
    2:{ exists i, self. split; [reflexivity|]. split; [exact R|].
        split; [apply rearranged_refl|]. split; [lia|]. split; [exact Hhole|].
        apply no_child_down_ok; lia. }
    rewrite <- (left_of_eq i) by lia.
    rewrite higher_child_pick by (try assumption; lia). simpl.
    destruct (pick_child self i ltac:(lia) Hl) as [Hc Hcp].
    destruct (rep_load self i R ltac:(lia)) as (a & Ha & _ & Ka).
    destruct (rep_load self (pick self i) R ltac:(lia)) as (b & Hb & _ & Kb).
    erewrite swap_done by (try eassumption; lia). simpl.
    destruct (swapped_fields self i (pick self i)) as (Hlen & Hal & Hc' & Hn).
    destruct (IH (swapped self i (pick self i)) (pick self i))
      as (leaf & self' & Hrun & R' & Hre & Hleaf & Hh' & Hd').
    + rewrite Hc'. exact TP.
    + eapply heap_rep_swapped; try eassumption; lia.
    + rewrite Hlen. lia.
    + rewrite Hlen. lia.
    + eapply (descend_hole self TP R 0 i); try eassumption; lia.
    + exists leaf, self'. split; [exact Hrun|]. split; [exact R'|].
      split; [|split; [rewrite Hlen in Hleaf; lia | split; assumption]].
      eapply rearranged_trans; [|exact Hre].
      apply rearranged_swapped; [assumption | lia | lia].
Qed.

Lemma siftdown_floyd_correct self i :
  total_preorder (cmp self) -> heap_rep self ->
  0 <= i < length self -> hole 0 self i ->
  exists self',
    islbh__siftdown_floyd self i = Done self'
    /\ heap_rep self' /\ rearranged self self' /\ heap_order self'.
Proof.
  intros TP R Hi Hhole. unfold islbh__siftdown_floyd.
  destruct (floyd_descend_correct (Z.to_nat (length self)) self i)
    as (leaf & s1 & Hrun & R1 & Hre1 & Hleaf & Hh1 & Hd1); try assumption; try lia.
  rewrite Hrun. simpl.
  destruct Hre1 as (Hl1 & Ha1 & Hc1 & Hp1).
  destruct (siftup_correct s1 leaf)
    as (j & s2 & Hrun2 & R2 & Hre2 & Hj & Hh2 & Hup2 & Hd2 & _); try assumption.
  - rewrite Hc1. exact TP.
  - lia.
  - rewrite Hrun2. simpl. exists s2. split; [reflexivity|]. split; [exact R2|].
    split.
    + eapply rearranged_trans; [|exact Hre2]. repeat split; assumption.
    + apply heap_order_ordered_from.
      eapply hole_closed; [exact Hh2 | exact Hup2 |]. apply Hd2. right. exact Hd1.
Qed.

(** ** Floyd's construction *)

Lemma floyd_loop_correct todo : forall self n i,
  total_preorder (cmp self) -> heap_rep self ->
  0 <= i -> i + Z.of_nat todo = n -> 2 * n <= length self ->
  ordered_from (n - i) self ->
  exists self',
    floyd_loop todo self n i = Done self'
    /\ heap_rep self' /\ rearranged self self' /\ heap_order self'.
Proof.
  induction todo as [|todo IH]; intros self n i TP R Hi Hn Hlen Hord; simpl.
  - exists self. split; [reflexivity|]. split; [exact R|].
    split; [apply rearranged_refl|]. apply heap_order_ordered_from.
    replace (n - i) with 0 in Hord by lia. exact Hord.
  - pose proof (rep_bound self R) as RB. unfold sizeof_islbh_node in RB.
    rewrite (wrap_small (n - i)) by lia.
    rewrite (wrap_small (n - i - 1)) by lia.
    rewrite (wrap_small (i + 1)) by lia.
    destruct (siftdown_correct (n - i - 1) self (n - i - 1))
      as (s1 & Hrun & R1 & Hre1 & Hord1); try assumption; try lia.
    + split.
      * intros j Hj Hk _ Hne. apply Hord; [assumption | lia].
      * intros j Hj Hp Hpos Hk. lia.
    + intros Hpos Hk. lia.
    + rewrite Hrun. simpl.
      destruct Hre1 as (Hl1 & Ha1 & Hc1 & Hp1).
      destruct (IH s1 n (i + 1)) as (s2 & Hrun2 & R2 & Hre2 & Hord2);
        try assumption; try lia.
      * rewrite Hc1. exact TP.
      * replace (n - (i + 1)) with (n - i - 1) by lia. exact Hord1.
      * exists s2. split; [exact Hrun2|]. split; [exact R2|]. split; [|exact Hord2].
        eapply rearranged_trans; [|exact Hre2]. repeat split; assumption.
Qed.

Lemma floyd_algorithm_correct self :
  total_preorder (cmp self) -> heap_rep self ->
  exists self',
    islbh__floyd_algorithm self = Done self'
    /\ heap_rep self' /\ rearranged self self' /\ heap_order self'.
Proof.
  intros TP R. unfold islbh__floyd_algorithm.
  pose proof (rep_length self R) as HL.
  rewrite Z.shiftr_div_pow2 by lia. change (2 ^ 1) with 2.
  apply floyd_loop_correct; try assumption; try lia.
  intros j Hj Hk. lia.
Qed.

(** ** The root is first *)

Lemma root_first self :
  total_preorder (cmp self) -> heap_order self ->
  forall i, 0 <= i < length self -> cmp self (key self 0) (key self i) <= 0.
Proof.
  intros TP Hord.
  assert (H : forall n : nat, forall i, 0 <= i <= Z.of_nat n -> i < length self ->
              cmp self (key self 0) (key self i) <= 0).
  { induction n as [|n IH]; intros i Hi Hl.
    - assert (i = 0) by lia. subst i. rewrite cmp_refl by assumption. lia.
    - destruct (Z.eq_dec i 0) as [->|Hne].
      + rewrite cmp_refl by assumption. lia.
      + eapply cmp_trans; [exact TP | apply (IH ((i - 1) / 2)); lia |].
        apply cmp_ge_le; [exact TP|]. apply Hord. lia. }
  intros i Hi. apply (H (Z.to_nat i)); lia.
Qed.

Lemma heap_items_key self x :
  0 <= length self <= Z.of_nat (List.length (nodes self)) ->
  x ∈ heap_items self -> exists i, 0 <= i < length self /\ key self i = x.
Proof.
  intros Hl Hx. apply list_elem_of_lookup in Hx. destruct Hx as [n Hn].
  pose proof (lookup_lt_Some _ _ _ Hn) as Hlt.
  pose proof (heap_items_length self Hl) as Hlen.
  exists (Z.of_nat n). split; [lia|].
  rewrite <- (Nat2Z.id n) in Hn.
  rewrite heap_items_lookup in Hn by lia. congruence.
Qed.

Lemma heap_items_snoc self n :
  0 <= n < Z.of_nat (List.length (nodes self)) ->
  heap_items (set_length self (n + 1))
  = heap_items (set_length self n) ++ [key self n].
Proof.
  intros Hn. unfold heap_items, key. simpl.
  replace (Z.to_nat (n + 1)) with (S (Z.to_nat n)) by lia.
  destruct (nodes self !! Z.to_nat n) as [o|] eqn:E.
  - rewrite (take_S_r _ _ _ E). rewrite fmap_app. simpl.
    destruct o; reflexivity.
  - apply lookup_ge_None in E. lia.
Qed.

(** ** Dequeue *)

Lemma heap_rep_set_length self n :
  heap_rep self -> 0 <= n <= length self -> heap_rep (set_length self n).
Proof.
  intros R Hn. destruct R as [H1 H2 H3 H4]. constructor; simpl; try assumption.
  - lia.
  - intros i Hi. apply H4. lia.
Qed.

Lemma dequeue_correct self :
  total_preorder (cmp self) -> heap_ok self -> 0 < length self ->
  exists self',
    islbh_dequeue self = Done (key self 0, self')
    /\ heap_ok self'
    /\ length self' = length self - 1
    /\ allocated self' = allocated self
    /\ cmp self' = cmp self
    /\ heap_items self ≡ₚ key self 0 :: heap_items self'.
Proof.
  intros TP [R Hord] Hpos. unfold islbh_dequeue.
  pose proof (rep_bound self R) as RB. unfold sizeof_islbh_node in RB.
  pose proof (rep_length self R) as HL. pose proof (rep_allocated self R) as HA.
  destruct (Z.eqb_spec (length self) 0) as [?|_]; [lia|].
  destruct (rep_load self 0 R ltac:(lia)) as (n & Hn & _ & Kn).
  destruct (Z.eqb_spec (length self) 1) as [H1|H1].
  - rewrite load_set_length, Hn. simpl. rewrite Kn.
    exists (set_length self 0). split; [reflexivity|]. split.
    { split; [apply heap_rep_set_length; [assumption | lia]|].
      intros i Hi. simpl in Hi. lia. }
    split; [simpl; lia|]. split; [reflexivity|]. split; [reflexivity|].
    replace self with (set_length self (0 + 1)) at 1
      by (destruct self; unfold set_length; simpl in *; subst; reflexivity).
    rewrite heap_items_snoc by (simpl; lia). reflexivity.
  - rewrite Hn. simpl. rewrite Kn. rewrite wrap_small by lia.
    set (last := length self - 1).
    set (s1 := set_length self last).
    assert (R1 : heap_rep s1) by (apply heap_rep_set_length; [assumption | lia]).
    destruct (rep_load self last R ltac:(lia)) as (m & Hm & _ & Km).
    erewrite (swap_done s1 0 last) by (try rewrite load_set_length; try eassumption; lia).
    simpl.
    assert (R2 : heap_rep (swapped s1 0 last)).
    { eapply heap_rep_swapped; try eassumption; lia. }
    destruct (swapped_fields s1 0 last) as (Hl2 & Ha2 & Hc2 & Hn2).
    destruct (siftdown_floyd_correct (swapped s1 0 last) 0)
      as (s3 & Hrun & R3 & Hre3 & Hord3); try assumption.
    + rewrite Hl2. simpl. lia.
    + split.
      * intros j Hj _ Hj0 Hp0. rewrite Hl2 in Hj. simpl in Hj.
        unfold edge. rewrite Hc2. simpl.
        rewrite !key_swapped_other by lia. apply Hord. lia.
      * intros j _ _ Hlt. lia.
    + rewrite Hrun. simpl. exists s3. split; [reflexivity|].
      destruct Hre3 as (Hl3 & Ha3 & Hc3 & Hp3).
      split; [split; assumption|].
      split; [rewrite Hl3, Hl2; reflexivity|].
      split; [rewrite Ha3, Ha2; reflexivity|].
      split; [rewrite Hc3, Hc2; reflexivity|].
      rewrite Hp3.
      assert (Hfull : heap_items (swapped self 0 last) ≡ₚ heap_items self).
      { apply heap_items_swapped; lia. }
      rewrite <- Hfull.
      replace (swapped self 0 last)
        with (set_length (swapped s1 0 last) (last + 1)).
      2:{ unfold swapped, set_length, set_nodes, s1; simpl.
          f_equal. unfold last. lia. }
      rewrite heap_items_snoc by (rewrite Hn2; simpl; lia).
      replace (set_length (swapped s1 0 last) last) with (swapped s1 0 last).
      2:{ unfold swapped, set_length, set_nodes, s1; reflexivity. }
      erewrite key_swapped_r by (try rewrite load_set_length; try eassumption; lia).
      change (key s1 0) with (key self 0).
      rewrite Permutation_app_comm. reflexivity.
Qed.

Lemma dequeue_empty self :
  length self = 0 -> islbh_dequeue self = Done (NULL, self).
Proof. intros H. unfold islbh_dequeue. rewrite H. reflexivity. Qed.

(** ** Growth *)

Lemma key_resize self newalloc m i :
  0 <= i < length self -> length self <= Z.of_nat m ->
  length self <= Z.of_nat (List.length (nodes self)) ->
  key (mk_heap (length self) newalloc (cmp self) (resize m None (nodes self))) i
  = key self i.
Proof.
  intros Hi Hm Hl. unfold key; simpl. rewrite lookup_resize by lia. reflexivity.
Qed.

Lemma heap_rep_grown self newalloc :
  heap_rep self ->
  length self <= newalloc ->
  newalloc <= wrap (sizeof_islbh_node * newalloc) / sizeof_islbh_node ->
  let self' := snd (islbh__grow self newalloc true) in
  heap_rep self' /\ heap_items self' = heap_items self
  /\ length self' = length self /\ allocated self' = newalloc
  /\ cmp self' = cmp self
  /\ Z.of_nat (List.length (nodes self'))
     = wrap (sizeof_islbh_node * newalloc) / sizeof_islbh_node
  /\ (forall i, 0 <= i < length self -> key self' i = key self i).
Proof.
  intros R Hlen Hm. simpl.
  set (m := wrap (sizeof_islbh_node * newalloc) / sizeof_islbh_node) in *.
  pose proof (wrap_range (sizeof_islbh_node * newalloc)) as Hw.
  pose proof (rep_length self R) as HL. pose proof (rep_allocated self R) as HA.
  assert (Hm0 : 0 <= m) by lia.
  split.
  - constructor; simpl.
    + lia.
    + rewrite length_resize. lia.
    + rewrite length_resize. subst m. unfold sizeof_islbh_node in *. lia.
    + intros i Hi. destruct (rep_position self R i Hi) as (n & Hn & Hx).
      exists n. split; [|exact Hx]. apply load_Done. simpl.
      rewrite lookup_resize by lia. apply load_Done. exact Hn.
  - split; [|split; [reflexivity | split; [reflexivity | split; [reflexivity|split]]]].
    + unfold heap_items; simpl. f_equal.
      rewrite take_resize. rewrite Nat.min_l by lia.
      rewrite resize_le by lia. reflexivity.
    + rewrite length_resize. lia.
    + intros i Hi. apply key_resize; lia.
Qed.

Lemma heap_ok_grown self newalloc :
  heap_ok self ->
  length self <= newalloc ->
  newalloc <= wrap (sizeof_islbh_node * newalloc) / sizeof_islbh_node ->
  let self' := snd (islbh__grow self newalloc true) in
  heap_ok self' /\ heap_items self' = heap_items self
  /\ length self' = length self /\ allocated self' = newalloc
  /\ cmp self' = cmp self
  /\ Z.of_nat (List.length (nodes self'))
     = wrap (sizeof_islbh_node * newalloc) / sizeof_islbh_node.
Proof.
  intros [R Hord] Hlen Hm.
  destruct (heap_rep_grown self newalloc R Hlen Hm)
    as (R' & Hit & Hl & Ha & Hc & Hn & Hkey).
  cbv zeta. split; [split; [exact R'|]|].
  - intros i Hi. rewrite Hl in Hi. unfold edge. rewrite Hc.
    rewrite !Hkey by lia. apply Hord. exact Hi.
  - repeat split; assumption.
Qed.

(** If the slot at the old length exists after [islbh_enqueue] has doubled
    a full array, the doubling did not overflow. *)
Lemma doubling_fits a :
  0 <= a -> a * sizeof_islbh_node < SIZE_MOD ->
  a < wrap (sizeof_islbh_node * wrap (a * 2)) / sizeof_islbh_node ->
  a + 1 <= wrap (a * 2)
  /\ wrap (a * 2) <= wrap (sizeof_islbh_node * wrap (a * 2)) / sizeof_islbh_node.
Proof.
  unfold wrap, sizeof_islbh_node. rewrite SIZE_MOD_val. intros H0 H1 H2. lia.
Qed.

Lemma doubling_small a :
  0 < a -> a * 2 * sizeof_islbh_node < SIZE_MOD ->
  wrap (a * 2) = a * 2
  /\ wrap (sizeof_islbh_node * wrap (a * 2)) / sizeof_islbh_node = a * 2.
Proof.
  unfold wrap, sizeof_islbh_node. rewrite SIZE_MOD_val. intros H0 H1. lia.
Qed.

(** ** Enqueue *)

(** A reallocation that is refused leaves the heap as it is, unless the
    request was of 0 bytes: then the array is gone. *)
Lemma grow_refused_same self newalloc :
  wrap (sizeof_islbh_node * newalloc) <> 0 ->
  snd (islbh__grow self newalloc false) = self.
Proof.
  intros H. unfold islbh__grow. simpl.
  destruct (Z.eqb_spec (wrap (sizeof_islbh_node * newalloc)) 0); [contradiction|].
  reflexivity.
Qed.

Lemma grow_refused_freed self newalloc :
  wrap (sizeof_islbh_node * newalloc) = 0 ->
  snd (islbh__grow self newalloc false) = set_nodes self [].
Proof.
  intros H. unfold islbh__grow. simpl. rewrite H. reflexivity.
Qed.

Lemma grow_refused_fields self newalloc :
  length (snd (islbh__grow self newalloc false)) = length self
  /\ allocated (snd (islbh__grow self newalloc false)) = allocated self
  /\ cmp (snd (islbh__grow self newalloc false)) = cmp self.
Proof.
  unfold islbh__grow. simpl.
  destruct (wrap (sizeof_islbh_node * newalloc) =? 0); repeat split.
Qed.

(** The refused doubling of [islbh_enqueue] leaves a valid heap valid when
    the doubled capacity is representable: the request is of 0 bytes only
    for a capacity of 0, where the heap has no active slot to lose. *)
Lemma doubling_refused_ok self :
  heap_ok self -> allocated self <= length self ->
  allocated self * 2 * sizeof_islbh_node < SIZE_MOD ->
  heap_ok (snd (islbh__grow self (wrap (allocated self * 2)) false)).
Proof.
  intros [R Hord] Hfull Hsmall.
  pose proof (rep_length self R) as HL. unfold sizeof_islbh_node in Hsmall.
  destruct (Z.eq_dec (allocated self) 0) as [Hz|Hnz].
  - rewrite grow_refused_freed
      by (rewrite Hz; unfold wrap; rewrite SIZE_MOD_val; reflexivity).
    split.
    + constructor; simpl; try lia; intros i Hi; lia.
    + intros i Hi. simpl in Hi. lia.
  - rewrite grow_refused_same; [split; assumption|].
    rewrite (wrap_small (allocated self * 2)) by lia.
    unfold sizeof_islbh_node. rewrite wrap_small by lia. lia.
Qed.

Lemma enqueue_unfold self it realloc_ok :
  islbh_enqueue self it realloc_ok =
  if allocated self <=? length self then
    if realloc_ok
    then enqueue_tail (snd (islbh__grow self (wrap (allocated self * 2)) true)) it
    else Done (NullNode, snd (islbh__grow self (wrap (allocated self * 2)) false))
  else enqueue_tail self it.
Proof.
  unfold islbh_enqueue, enqueue_tail.
  destruct (allocated self <=? length self); [|reflexivity].
  destruct realloc_ok; reflexivity.
Qed.

Lemma enqueue_tail_correct self it :
  total_preorder (cmp self) -> heap_ok self -> length self < allocated self ->
  exists j self',
    enqueue_tail self it = Done (NodeAt j, self')
    /\ heap_ok self'
    /\ length self' = length self + 1
    /\ allocated self' = allocated self
    /\ cmp self' = cmp self
    /\ heap_items self' ≡ₚ it :: heap_items self
    /\ 0 <= j <= length self.
Proof.
  intros TP [R Hord] Hroom. unfold enqueue_tail.
  pose proof (rep_bound self R) as RB. unfold sizeof_islbh_node in RB.
  pose proof (rep_length self R) as HL. pose proof (rep_allocated self R) as HA.
  pose proof (rep_bytes self R) as HB. unfold sizeof_islbh_node in HB.
  set (a := length self) in *.
  rewrite store_Done by lia. simpl. rewrite wrap_small by lia.
  set (s1 := set_nodes self (<[Z.to_nat a := Some (mk_node it a)]> (nodes self))).
  set (s2 := set_length s1 (a + 1)).
  assert (Hload : forall i, 0 <= i -> i <> a -> load s2 i = load self i).
  { intros i Hi Hne. unfold s2. rewrite load_set_length. unfold s1.
    apply load_store_ne; lia. }
  assert (Hkey : forall i, 0 <= i -> i <> a -> key s2 i = key self i).
  { intros i Hi Hne. unfold key, s2, s1; simpl.
    rewrite list_lookup_insert_ne by lia. reflexivity. }
  assert (Hnew : load s2 a = Done (mk_node it a)).
  { unfold s2. rewrite load_set_length. unfold s1. apply load_store_eq. lia. }
  assert (R2 : heap_rep s2).
  { constructor; simpl.
    - fold a. lia.
    - rewrite length_insert. lia.
    - rewrite length_insert. exact (rep_bytes self R).
    - fold a. intros i Hi. destruct (Z.eq_dec i a) as [->|Hne].
      + eexists. split; [exact Hnew | reflexivity].
      + rewrite Hload by lia. apply (rep_position self R). fold a. lia. }
  destruct (siftup_correct s2 a)
    as (j & s3 & Hrun & R3 & Hre & Hj & Hh & Hup & Hdown & _); try assumption.
  - simpl. lia.
  - split.
    + intros e He _ Hea Hpa. simpl in He. unfold edge.
      rewrite !Hkey by lia. apply Hord. fold a. lia.
    + intros e He Hpa Hpos _. simpl in He. lia.
  - change (set_length s1 (length self + 1)) with s2.
    rewrite Hrun. simpl. exists j, s3. split; [reflexivity|].
    destruct Hre as (Hl3 & Ha3 & Hc3 & Hp3).
    split.
    { split; [exact R3|]. apply heap_order_ordered_from.
      eapply hole_closed; [exact Hh | exact Hup |]. apply Hdown. right.
      intros e He Hpa. simpl in He. lia. }
    split; [exact Hl3|]. split; [exact Ha3|]. split; [exact Hc3|].
    split; [|lia].
    rewrite Hp3. unfold s2. rewrite heap_items_snoc by (simpl; rewrite length_insert; lia).
    rewrite Permutation_app_comm. simpl.
    replace (key s1 a) with it
      by (symmetry; apply (load_key s1 a (mk_node it a)); apply load_store_eq; lia).
    apply Permutation_cons; [reflexivity|].
    unfold heap_items, s1; simpl. fold a.
    rewrite take_insert_ge by lia. reflexivity.
Qed.

Lemma store_Done_inv self i n self' :
  store self i n = Done self' -> i < Z.of_nat (List.length (nodes self)).
Proof.
  unfold store. destruct (Z.ltb_spec i (Z.of_nat (List.length (nodes self)))).
  - intros _. assumption.
  - discriminate.
Qed.

Lemma enqueue_tail_Done_inv self it r self' :
  enqueue_tail self it = Done (r, self') ->
  length self < Z.of_nat (List.length (nodes self)).
Proof.
  unfold enqueue_tail.
  destruct (store self (length self) (mk_node it (length self))) as [s| |] eqn:E;
    simpl; try discriminate.
  intros _. eapply store_Done_inv. exact E.
Qed.

(** Every completed call either added the item and leaves a valid heap, or
    returns [NULL] after a refused reallocation. *)
Lemma enqueue_Done self it realloc_ok r self' :
  total_preorder (cmp self) -> heap_ok self ->
  islbh_enqueue self it realloc_ok = Done (r, self') ->
  cmp self' = cmp self
  /\ ((r = NullNode /\ allocated self <= length self
       /\ self' = snd (islbh__grow self (wrap (allocated self * 2)) false))
      \/ (heap_ok self'
          /\ (exists j, r = NodeAt j /\ 0 <= j <= length self)
          /\ length self' = length self + 1
          /\ heap_items self' ≡ₚ it :: heap_items self
          /\ allocated self' =
               (if allocated self <=? length self
                then wrap (allocated self * 2) else allocated self))).
Proof.
  intros TP OK. rewrite enqueue_unfold.
  pose proof OK as [R Hord].
  pose proof (rep_length self R) as HL. pose proof (rep_allocated self R) as HA.
  pose proof (rep_bytes self R) as HB.
  destruct (Z.leb_spec (allocated self) (length self)) as [Hfull|Hroom].
  - destruct realloc_ok.
    + intros Hrun. pose proof (enqueue_tail_Done_inv _ _ _ _ Hrun) as Hslot.
      simpl in Hslot. rewrite length_resize in Hslot.
      assert (Ha : allocated self = length self) by lia.
      destruct (doubling_fits (allocated self)) as [F1 F2];
        [lia | unfold sizeof_islbh_node in *; lia | lia |].
      destruct (heap_ok_grown self (wrap (allocated self * 2)) OK)
        as (OK1 & Hit1 & Hl1 & Ha1 & Hc1 & _); [lia | lia |].
      destruct (enqueue_tail_correct _ it ltac:(rewrite Hc1; exact TP) OK1)
        as (j & s' & Hrun' & OK' & Hl' & Ha' & Hc' & Hp' & Hj); [lia|].
      rewrite Hrun' in Hrun. inversion Hrun; subst r self'.
      split; [congruence|]. right. split; [exact OK'|].
      split; [exists j; split; [reflexivity | lia]|].
      split; [lia|]. split; [rewrite Hp', Hit1; reflexivity|]. congruence.
    + intros Hrun. inversion Hrun; subst.
      split; [apply grow_refused_fields|].
      left. split; [reflexivity|]. split; [exact Hfull | reflexivity].
  - intros Hrun.
    destruct (enqueue_tail_correct self it TP OK Hroom)
      as (j & s' & Hrun' & OK' & Hl' & Ha' & Hc' & Hp' & Hj).
    rewrite Hrun' in Hrun. inversion Hrun; subst r self'.
    split; [exact Hc'|]. right. split; [exact OK'|].
    split; [exists j; split; [reflexivity | lia]|].
    split; [lia|]. split; [exact Hp'|]. exact Ha'.
Qed.

(** A completed call leaves a valid heap when the refused doubling, if
    there was one, was of a representable capacity. *)
Lemma enqueue_Done_ok self it realloc_ok r self' :
  total_preorder (cmp self) -> heap_ok self ->
  length self < allocated self
  \/ allocated self * 2 * sizeof_islbh_node < SIZE_MOD ->
  islbh_enqueue self it realloc_ok = Done (r, self') ->
  heap_ok self' /\ cmp self' = cmp self.
Proof.
  intros TP OK Hcond Hrun.
  destruct (enqueue_Done _ _ _ _ _ TP OK Hrun)
    as (Hc & [(_ & Hfull & ->)|(OK' & _)]).
  - split; [|exact Hc]. destruct Hcond as [?|Hsmall]; [lia|].
    apply doubling_refused_ok; assumption.
  - split; assumption.
Qed.

(** Where there is room, or the array is not empty and its doubling is
    representable, the call completes. *)
Lemma enqueue_total self it realloc_ok :
  total_preorder (cmp self) -> heap_ok self ->
  length self < allocated self
  \/ (0 < allocated self /\ allocated self * 2 * sizeof_islbh_node < SIZE_MOD) ->
  exists r self', islbh_enqueue self it realloc_ok = Done (r, self').
Proof.
  intros TP OK Hcond. rewrite enqueue_unfold.
  pose proof OK as [R Hord].
  pose proof (rep_length self R) as HL.
  destruct (Z.leb_spec (allocated self) (length self)) as [Hfull|Hroom].
  - destruct realloc_ok; [|eauto].
    destruct Hcond as [?|[Hpos Hsmall]]; [lia|].
    destruct (doubling_small _ Hpos Hsmall) as [D1 D2].
    destruct (heap_ok_grown self (wrap (allocated self * 2)) OK)
      as (OK1 & Hit1 & Hl1 & Ha1 & Hc1 & _); [lia | lia |].
    destruct (enqueue_tail_correct _ it ltac:(rewrite Hc1; exact TP) OK1)
      as (j & s' & Hrun' & _); [lia|]. eauto.
  - destruct (enqueue_tail_correct self it TP OK Hroom) as (j & s' & Hrun' & _).
    eauto.
Qed.

(** ** Update and remove *)

Lemma update_correct self node n :
  total_preorder (cmp self) -> heap_rep self ->
  deref self node = Done n -> 0 <= index n < length self ->
  hole 0 self (index n) ->
  exists self',
    islbh_update self node = Done self'
    /\ heap_rep self' /\ rearranged self self' /\ heap_order self'.
Proof.
  intros TP R Hn Hi Hhole. unfold islbh_update. rewrite Hn. simpl.
  destruct (siftup_correct self (index n))
    as (j & s1 & Hrun & R1 & Hre1 & Hj & Hh1 & Hup1 & _); try assumption.
  rewrite Hrun. simpl.
  destruct Hre1 as (Hl1 & Ha1 & Hc1 & Hp1).
  destruct (siftdown_correct 0 s1 j)
    as (s2 & Hrun2 & R2 & Hre2 & Hord2); try assumption; try lia.
  - rewrite Hc1. exact TP.
  - exists s2. split; [exact Hrun2|]. split; [exact R2|]. split.
    + eapply rearranged_trans; [|exact Hre2]. repeat split; assumption.
    + apply heap_order_ordered_from. exact Hord2.
Qed.

Lemma siftup_stay self i a b :
  0 < i < SIZE_MOD ->
  load self i = Done a -> load self ((i - 1) / 2) = Done b ->
  cmp self (item a) (item b) >= 0 ->
  islbh__siftup self i = Done (i, self).
Proof.
  intros Hi Ha Hb Hge. unfold islbh__siftup. rewrite siftup_loop_eq.
  destruct (Z.ltb_spec 0 i); [|lia].
  rewrite parent_of_eq by lia. rewrite Ha, Hb. simpl.
  destruct (Z.ltb_spec (cmp self (item a) (item b)) 0); [lia | reflexivity].
Qed.

Lemma siftup_root self : islbh__siftup self 0 = Done (0, self).
Proof. reflexivity. Qed.

Lemma remove_correct self j :
  total_preorder (cmp self) -> heap_ok self -> 0 <= j < length self ->
  exists self',
    islbh_remove self (NodeAt j) = Done (ISLBH_ERROR_OK, self')
    /\ heap_ok self'
    /\ length self' = length self - 1
    /\ allocated self' = allocated self
    /\ cmp self' = cmp self
    /\ heap_items self ≡ₚ key self j :: heap_items self'.
Proof.
  intros TP [R Hord] Hj. unfold islbh_remove, deref.
  pose proof (rep_bound self R) as RB. unfold sizeof_islbh_node in RB.
  pose proof (rep_length self R) as HL. pose proof (rep_allocated self R) as HA.
  destruct (rep_load self j R Hj) as (n & Hn & Hx & Kn).
  rewrite Hn. simpl. rewrite Hx.
  destruct (Z.leb_spec (length self) j) as [?|_]; [lia|].
  rewrite Z.eqb_refl. simpl. rewrite wrap_small by lia.
  set (last := length self - 1).
  set (s1 := set_length self last).
  assert (R1 : heap_rep s1) by (apply heap_rep_set_length; [assumption | lia]).
  destruct (rep_load self last R ltac:(lia)) as (m & Hm & Hxm & Km).
  assert (Hn1 : load s1 j = Done n) by exact Hn.
  assert (Hm1 : load s1 last = Done m) by exact Hm.
  destruct (Z.eqb_spec j last) as [Heq|Hne]; simpl.
  - (* the last slot is removed: nothing moves *)
    unfold islbh_update, deref. rewrite Hn1. simpl. rewrite Hx.
    assert (Hup : islbh__siftup s1 j = Done (j, s1)).
    { destruct (Z.eq_dec j 0) as [H0|H0].
      - rewrite H0. apply siftup_root.
      - destruct (rep_load self ((j - 1) / 2) R ltac:(lia)) as (b & Hb & _ & Kb).
        eapply (siftup_stay s1 j n b); [lia | exact Hn1 | exact Hb |].
        simpl. rewrite Kn, Kb. apply Hord. lia. }
    rewrite Hup. simpl.
    rewrite siftdown_leaf by (simpl; lia). simpl.
    exists s1. split; [reflexivity|]. split.
    { split; [exact R1|]. intros i Hi. simpl in Hi.
      apply (Hord i). lia. }
    split; [reflexivity|]. split; [reflexivity|]. split; [reflexivity|].
    replace self with (set_length self (last + 1)) at 1
      by (destruct self; unfold set_length, last; simpl; f_equal; lia).
    rewrite heap_items_snoc by lia. rewrite Permutation_app_comm.
    rewrite Heq. reflexivity.
  - rewrite (swap_done s1 j last n m) by (assumption || lia).
    simpl.
    set (s2 := swapped s1 j last).
    assert (R2 : heap_rep s2).
    { apply (heap_rep_swapped s1 j last n m); assumption || lia. }
    destruct (swapped_fields s1 j last) as (Hl2 & Ha2 & Hc2 & Hn2). fold s2 in Hl2, Ha2, Hc2, Hn2.
    assert (Hj0 : 0 <= j) by lia. assert (Hlast0 : 0 <= last) by lia.
    destruct (update_correct s2 (NodeAt j) (mk_node (item m) j))
      as (s3 & Hrun & R3 & Hre3 & Hord3); try assumption.
    + simpl. apply (load_swapped_l s1 j last n m); assumption || lia.
    + simpl. lia.
    + simpl. split.
      * intros e He _ Hej Hpj. rewrite Hl2 in He. simpl in He.
        unfold edge. rewrite Hc2. simpl.
        unfold s2. rewrite !key_swapped_other by lia.
        apply Hord. lia.
      * intros e He Hpj Hpos _. rewrite Hl2 in He. simpl in He.
        rewrite Hc2. simpl.
        unfold s2. rewrite !key_swapped_other by lia.
        change (cmp self (key self e) (key self ((j - 1) / 2)) >= 0).
        eapply cmp_ge_trans; [exact TP | | apply (Hord j); lia].
        pose proof (Hord e ltac:(lia)) as E. unfold edge in E.
        rewrite Hpj in E. exact E.
    + rewrite Hrun. simpl. exists s3. split; [reflexivity|].
      destruct Hre3 as (Hl3 & Ha3 & Hc3 & Hp3).
      split; [split; assumption|].
      split; [rewrite Hl3, Hl2; reflexivity|].
      split; [rewrite Ha3, Ha2; reflexivity|].
      split; [rewrite Hc3, Hc2; reflexivity|].
      rewrite Hp3.
      assert (Hfull : heap_items (swapped self j last) ≡ₚ heap_items self).
      { apply heap_items_swapped; lia. }
      rewrite <- Hfull.
      replace (swapped self j last) with (set_length s2 (last + 1)).
      2:{ unfold s2, swapped, set_length, set_nodes, s1; simpl.
          f_equal. unfold last. lia. }
      rewrite heap_items_snoc by (rewrite Hn2; simpl; lia).
      replace (set_length s2 last) with s2
        by (unfold s2, swapped, set_length, set_nodes, s1; reflexivity).
      unfold s2. rewrite (key_swapped_r s1 j last n m) by (assumption || lia).
      change (key s1 j) with (key self j).
      rewrite Permutation_app_comm. reflexivity.
Qed.

(** ** The capacity loop of [islbh_batchenq] *)

Lemma batchenq_capacity_eq fuel a t :
  batchenq_capacity fuel a t =
  if a <? t then
    match fuel with
    | O => OutOfFuel
    | S fuel' => batchenq_capacity fuel' (wrap (a * 2)) t
    end
  else Done a.
Proof. destruct fuel; reflexivity. Qed.

Lemma wrap_double_pow a k :
  0 <= k -> wrap (wrap (a * 2) * 2 ^ k) = wrap (a * 2 ^ (k + 1)).
Proof.
  intros Hk. unfold wrap. rewrite Z.mul_mod_idemp_l by (rewrite SIZE_MOD_val; lia).
  f_equal. rewrite Z.pow_add_r by lia. lia.
Qed.

(** The loop runs out of fuel exactly when none of the capacities it tries,
    [allocated * 2^k] modulo [2^64] for [k] up to the fuel, is enough. *)
Lemma batchenq_capacity_OutOfFuel fuel : forall a t,
  0 <= a < SIZE_MOD ->
  batchenq_capacity fuel a t = OutOfFuel
  <-> forall k, 0 <= k <= Z.of_nat fuel -> wrap (a * 2 ^ k) < t.
Proof.
  induction fuel as [|fuel IH]; intros a t Ha; rewrite batchenq_capacity_eq.
  - destruct (Z.ltb_spec a t) as [Hlt|Hge]; split; intros H; try discriminate.
    + intros k Hk. assert (k = 0) by lia. subst k.
      rewrite Z.pow_0_r, Z.mul_1_r, wrap_small by lia. exact Hlt.
    + reflexivity.
    + specialize (H 0 ltac:(lia)).
      rewrite Z.pow_0_r, Z.mul_1_r, wrap_small in H by lia. lia.
  - destruct (Z.ltb_spec a t) as [Hlt|Hge].
    + rewrite IH by apply wrap_range. split; intros H k Hk.
      * destruct (Z.eq_dec k 0) as [->|Hne].
        { rewrite Z.pow_0_r, Z.mul_1_r, wrap_small by lia. exact Hlt. }
        { replace k with ((k - 1) + 1) by lia.
          rewrite <- wrap_double_pow by lia. apply H. lia. }
      * rewrite wrap_double_pow by lia. apply H. lia.
    + split; intros H; [discriminate|].
      specialize (H 0 ltac:(lia)).
      rewrite Z.pow_0_r, Z.mul_1_r, wrap_small in H by lia. lia.
Qed.

Lemma wrap_pow_vanishes a k : size_bits <= k -> wrap (a * 2 ^ k) = 0.
Proof.
  intros Hk. unfold wrap, SIZE_MOD.
  replace k with ((k - size_bits) + size_bits) by lia.
  rewrite Z.pow_add_r by (unfold size_bits in *; lia).
  rewrite Z.mul_assoc. apply Z.mod_mul. unfold size_bits. lia.
Qed.

(** [capacity_fuel] rounds decide the loop: if they do not end it, no number
    of rounds does. *)
Lemma batchenq_capacity_fuel a t :
  0 <= a < SIZE_MOD ->
  batchenq_capacity capacity_fuel a t = OutOfFuel ->
  forall fuel, batchenq_capacity fuel a t = OutOfFuel.
Proof.
  intros Ha H fuel.
  rewrite batchenq_capacity_OutOfFuel in H by assumption.
  apply batchenq_capacity_OutOfFuel; [assumption|].
  intros k Hk. destruct (Z_lt_ge_dec k size_bits) as [Hs|Hs].
  - apply H. unfold capacity_fuel, size_bits in *. lia.
  - rewrite wrap_pow_vanishes by lia.
    rewrite <- (wrap_pow_vanishes a size_bits) by lia.
    apply H. unfold capacity_fuel, size_bits. lia.
Qed.

(** More fuel does not change a result. *)
Lemma batchenq_capacity_more fuel : forall a t r,
  batchenq_capacity fuel a t = Done r ->
  forall fuel', (fuel <= fuel')%nat -> batchenq_capacity fuel' a t = Done r.
Proof.
  induction fuel as [|fuel IH]; intros a t r H fuel' Hle;
    rewrite batchenq_capacity_eq in H; rewrite batchenq_capacity_eq;
    destruct (a <? t); try discriminate; try assumption.
  destruct fuel' as [|fuel']; [lia|]. apply (IH _ _ _ H). lia.
Qed.

(** What a completed loop returns: the capacity it started from, when that
    is enough, or else the double of a capacity that was not. *)
Lemma batchenq_capacity_Done fuel : forall a t r,
  0 <= a ->
  batchenq_capacity fuel a t = Done r ->
  t <= r /\ ((r = a) \/ (exists a', 0 <= a' < t /\ r = wrap (a' * 2))).
Proof.
  induction fuel as [|fuel IH]; intros a t r Ha H;
    rewrite batchenq_capacity_eq in H;
    destruct (Z.ltb_spec a t) as [Hlt|Hge]; try discriminate.
  - inversion H; subst. split; [lia | left; reflexivity].
  - destruct (IH _ _ _ ltac:(apply wrap_range) H) as [Ht [->|Hex]].
    + split; [exact Ht|]. right. exists a. split; [lia | reflexivity].
    + split; [exact Ht|]. right. exact Hex.
  - inversion H; subst. split; [lia | left; reflexivity].
Qed.

(** Without overflow the loop returns the first doubling that is enough. *)
Lemma batchenq_capacity_doubles fuel : forall a t,
  1 <= a < SIZE_MOD -> 2 * t <= SIZE_MOD ->
  t <= a * 2 ^ Z.of_nat fuel ->
  exists k : nat,
    (k <= fuel)%nat
    /\ batchenq_capacity fuel a t = Done (a * 2 ^ Z.of_nat k)
    /\ t <= a * 2 ^ Z.of_nat k
    /\ (forall j : nat, (j < k)%nat -> a * 2 ^ Z.of_nat j < t).
Proof.
  induction fuel as [|fuel IH]; intros a t Ha Ht Hfuel;
    rewrite batchenq_capacity_eq.
  - simpl in Hfuel. destruct (Z.ltb_spec a t); [lia|].
    exists 0%nat. simpl. rewrite Z.mul_1_r.
    split; [lia|]. split; [reflexivity|]. split; [lia|]. intros j Hj. lia.
  - destruct (Z.ltb_spec a t) as [Hlt|Hge].
    + rewrite wrap_small by lia.
      destruct (IH (a * 2) t) as (k & Hk & Hrun & Hge & Hmin); try lia.
      { rewrite Nat2Z.inj_succ, Z.pow_succ_r in Hfuel by lia. lia. }
      exists (S k). split; [lia|].
      rewrite Nat2Z.inj_succ, Z.pow_succ_r by lia.
      replace (a * (2 * 2 ^ Z.of_nat k)) with (a * 2 * 2 ^ Z.of_nat k) by lia.
      split; [exact Hrun|]. split; [exact Hge|].
      intros [|j] Hj.
      * simpl. lia.
      * rewrite Nat2Z.inj_succ, Z.pow_succ_r by lia.
        replace (a * (2 * 2 ^ Z.of_nat j)) with (a * 2 * 2 ^ Z.of_nat j) by lia.
        apply Hmin. lia.
    + exists 0%nat. simpl. rewrite Z.mul_1_r.
      split; [lia|]. split; [reflexivity|]. split; [lia|]. intros j Hj. lia.
Qed.

(** The same whenever some doubling that is enough is representable. *)
Lemma batchenq_capacity_reaches (K : nat) : forall fuel a t,
  1 <= a -> t <= a * 2 ^ Z.of_nat K -> a * 2 ^ Z.of_nat K < SIZE_MOD ->
  (K <= fuel)%nat ->
  exists k : nat,
    (k <= K)%nat
    /\ batchenq_capacity fuel a t = Done (a * 2 ^ Z.of_nat k)
    /\ t <= a * 2 ^ Z.of_nat k
    /\ (forall j : nat, (j < k)%nat -> a * 2 ^ Z.of_nat j < t).
Proof.
  induction K as [|K IH]; intros fuel a t Ha Ht Hrep Hfuel;
    rewrite batchenq_capacity_eq.
  - simpl in Ht. destruct (Z.ltb_spec a t); [lia|].
    exists 0%nat. simpl. rewrite Z.mul_1_r.
    split; [lia|]. split; [reflexivity|]. split; [lia|]. intros j Hj. lia.
  - destruct (Z.ltb_spec a t) as [Hlt|Hge].
    + destruct fuel as [|fuel]; [lia|].
      rewrite Nat2Z.inj_succ, Z.pow_succ_r in Ht, Hrep by lia.
      assert (Hpow : 1 <= 2 ^ Z.of_nat K) by (apply Z.pow_le_mono_r with (b := 0); lia).
      rewrite wrap_small by nia.
      destruct (IH fuel (a * 2) t) as (k & Hk & Hrun & Hle & Hmin); try lia.
      exists (S k). split; [lia|].
      rewrite Nat2Z.inj_succ, Z.pow_succ_r by lia.
      replace (a * (2 * 2 ^ Z.of_nat k)) with (a * 2 * 2 ^ Z.of_nat k) by lia.
      split; [exact Hrun|]. split; [exact Hle|].
      intros [|j] Hj.
      * simpl. lia.
      * rewrite Nat2Z.inj_succ, Z.pow_succ_r by lia.
        replace (a * (2 * 2 ^ Z.of_nat j)) with (a * 2 * 2 ^ Z.of_nat j) by lia.
        apply Hmin. lia.
    + exists 0%nat. simpl. rewrite Z.mul_1_r.
      split; [lia|]. split; [reflexivity|]. split; [lia|]. intros j Hj. lia.
Qed.

(** A representable doubling of a non-zero capacity takes fewer than
    [size_bits] rounds. *)
Lemma representable_rounds a (K : nat) :
  1 <= a -> a * 2 ^ Z.of_nat K < SIZE_MOD -> (K < Z.to_nat size_bits)%nat.
Proof.
  intros Ha Hrep. unfold SIZE_MOD in Hrep.
  assert (H0 : 0 < 2 ^ Z.of_nat K) by (apply Z.pow_pos_nonneg; lia).
  assert (Hlt : 2 ^ Z.of_nat K < 2 ^ size_bits) by nia.
  apply Z.pow_lt_mono_r_iff in Hlt; unfold size_bits in *; lia.
Qed.

(** ** Batch enqueue *)

Lemma batchenq_unfold self items itemsize count want_nodes realloc_ok :
  islbh_batchenq self items itemsize count want_nodes realloc_ok =
  let* allocated' :=
    batchenq_capacity capacity_fuel (allocated self) (wrap (length self + count)) in
  if allocated self <? allocated' then
    if realloc_ok
    then batchenq_tail (snd (islbh__grow self allocated' true))
           items itemsize count want_nodes
    else Done (ISLBH_ERROR_BAD_ALLOC, snd (islbh__grow self allocated' false), None)
  else batchenq_tail self items itemsize count want_nodes.
Proof.
  unfold islbh_batchenq, batchenq_tail.
  destruct (batchenq_capacity capacity_fuel (allocated self)
              (wrap (length self + count))) as [a'| |]; simpl; try reflexivity.
  destruct (allocated self <? a'); [|reflexivity].
  destruct realloc_ok; reflexivity.
Qed.

Lemma batchenq_append_correct items itemsize len0 todo : forall self i,
  0 <= len0 -> 0 <= i ->
  len0 + i + Z.of_nat todo <= Z.of_nat (List.length (nodes self)) ->
  Z.of_nat (List.length (nodes self)) < SIZE_MOD ->
  exists self',
    batchenq_append todo self items itemsize len0 i = Done self'
    /\ length self' = length self /\ allocated self' = allocated self
    /\ cmp self' = cmp self
    /\ List.length (nodes self') = List.length (nodes self)
    /\ (forall p, 0 <= p < len0 + i -> load self' p = load self p)
    /\ (forall q, 0 <= q < Z.of_nat todo ->
          load self' (len0 + i + q)
          = Done (mk_node (item_address items itemsize (i + q)) (len0 + i + q)))
    /\ heap_items (set_length self' (len0 + i + Z.of_nat todo))
       = heap_items (set_length self (len0 + i))
         ++ (item_address items itemsize <$> seqZ i (Z.of_nat todo)).
Proof.
  induction todo as [|todo IH]; intros self i Hlen Hi Hfit Hsz; simpl batchenq_append.
  - exists self. split; [reflexivity|]. do 4 (split; [reflexivity|]).
    split; [intros; reflexivity|]. split; [intros; lia|].
    simpl. rewrite Z.add_0_r, app_nil_r. reflexivity.
  - rewrite (wrap_small (len0 + i)) by lia. rewrite (wrap_small (i + 1)) by lia.
    rewrite store_Done by lia. simpl.
    set (node := mk_node (item_address items itemsize i) (len0 + i)).
    set (s1 := set_nodes self (<[Z.to_nat (len0 + i) := Some node]> (nodes self))).
    destruct (IH s1 (i + 1)) as (s' & Hrun & Hl & Ha & Hc & Hn & Hold & Hnew & Hit);
      try lia.
    { unfold s1; simpl. rewrite length_insert. lia. }
    { unfold s1; simpl. rewrite length_insert. lia. }
    assert (Hn1 : List.length (nodes s1) = List.length (nodes self))
      by (unfold s1; simpl; apply length_insert).
    exists s'. split; [exact Hrun|]. split; [exact Hl|]. split; [exact Ha|].
    split; [exact Hc|]. split; [congruence|]. split; [|split].
    + intros p Hp. rewrite Hold by lia. unfold s1. apply load_store_ne; lia.
    + intros q Hq. destruct (Z.eq_dec q 0) as [->|Hne].
      * rewrite Z.add_0_r. rewrite Hold by lia. rewrite Z.add_0_r.
        unfold s1. apply load_store_eq. lia.
      * replace (len0 + i + q) with (len0 + (i + 1) + (q - 1)) by lia.
        rewrite Hnew by lia.
        replace (i + 1 + (q - 1)) with (i + q) by lia.
        replace (len0 + (i + 1) + (q - 1)) with (len0 + i + q) by lia.
        reflexivity.
    + replace (len0 + i + Z.of_nat (S todo)) with (len0 + (i + 1) + Z.of_nat todo) by lia.
      rewrite Hit.
      replace (len0 + (i + 1)) with ((len0 + i) + 1) by lia.
      rewrite heap_items_snoc by (rewrite Hn1; lia).
      rewrite (seqZ_cons i) by lia.
      replace (Z.pred (Z.of_nat (S todo))) with (Z.of_nat todo) by lia.
      replace (Z.succ i) with (i + 1) by lia.
      rewrite fmap_cons, <- app_assoc. simpl. f_equal.
      * unfold heap_items, s1; simpl. rewrite take_insert_ge by lia. reflexivity.
      * f_equal. apply (load_key s1 (len0 + i) node). apply load_store_eq. lia.
Qed.

Lemma batchenq_append_Done_inv items itemsize len0 todo : forall self i self',
  0 <= len0 -> 0 <= i ->
  len0 + i <= Z.of_nat (List.length (nodes self)) ->
  Z.of_nat (List.length (nodes self)) < SIZE_MOD ->
  batchenq_append todo self items itemsize len0 i = Done self' ->
  len0 + i + Z.of_nat todo <= Z.of_nat (List.length (nodes self)).
Proof.
  induction todo as [|todo IH]; intros self i self' Hlen Hi Hfit Hsz; simpl batchenq_append.
  - intros _. lia.
  - rewrite (wrap_small (len0 + i)) by lia.
    destruct (store self (len0 + i) _) as [s1| |] eqn:E; simpl; try discriminate.
    pose proof (store_Done_inv _ _ _ _ E) as Hlt.
    rewrite store_Done in E by lia. inversion E; subst s1; clear E.
    rewrite (wrap_small (i + 1)) by lia. intros Hrun.
    apply IH in Hrun; try lia.
    + simpl in Hrun. rewrite length_insert in Hrun. lia.
    + simpl. rewrite length_insert. lia.
    + simpl. rewrite length_insert. lia.
Qed.

Lemma batchenq_copy_correct len0 (f : Z -> islbh_node) todo : forall self i,
  0 <= len0 -> 0 <= i -> len0 + i + Z.of_nat todo < SIZE_MOD ->
  (forall q, 0 <= q < Z.of_nat todo -> load self (len0 + i + q) = Done (f (i + q))) ->
  batchenq_copy todo self len0 i = Done (f <$> seqZ i (Z.of_nat todo)).
Proof.
  induction todo as [|todo IH]; intros self i Hlen Hi Hsz Hload; simpl batchenq_copy.
  - reflexivity.
  - rewrite (wrap_small (len0 + i)) by lia. rewrite (wrap_small (i + 1)) by lia.
    pose proof (Hload 0 ltac:(lia)) as H0. rewrite !Z.add_0_r in H0.
    rewrite H0. simpl. rewrite IH; try lia.
    + simpl. rewrite (seqZ_cons i) by lia.
      replace (Z.pred (Z.of_nat (S todo))) with (Z.of_nat todo) by lia.
      replace (Z.succ i) with (i + 1) by lia. reflexivity.
    + intros q Hq. replace (len0 + (i + 1) + q) with (len0 + i + (q + 1)) by lia.
      rewrite Hload by lia. f_equal. f_equal. lia.
Qed.

Lemma set_length_same self : set_length self (length self) = self.
Proof. destruct self; reflexivity. Qed.

Lemma batchenq_tail_correct self items itemsize count want_nodes :
  total_preorder (cmp self) -> heap_rep self ->
  0 <= count -> length self + count <= allocated self ->
  exists self',
    batchenq_tail self items itemsize count want_nodes
    = Done (ISLBH_ERROR_OK, self',
            if want_nodes
            then Some (batch_snapshot items itemsize (length self) count)
            else None)
    /\ heap_ok self'
    /\ length self' = length self + count
    /\ allocated self' = allocated self
    /\ cmp self' = cmp self
    /\ heap_items self' ≡ₚ heap_items self ++ batch_items items itemsize count.
Proof.
  intros TP R Hcount Hfit. unfold batchenq_tail.
  pose proof (rep_length self R) as HL. pose proof (rep_allocated self R) as HA.
  pose proof (rep_bytes self R) as HB. unfold sizeof_islbh_node in HB.
  destruct (batchenq_append_correct items itemsize (length self) (Z.to_nat count) self 0)
    as (s1 & Hrun & Hl1 & Ha1 & Hc1 & Hn1 & Hold & Hnew & Hit); try lia.
  rewrite Hrun. simpl.
  assert (Hcopy : (if want_nodes
                   then let* l := batchenq_copy (Z.to_nat count) s1 (length self) 0
                        in Done (Some l)
                   else Done None)
                  = Done (if want_nodes
                          then Some (batch_snapshot items itemsize (length self) count)
                          else None)).
  { destruct want_nodes; [|reflexivity].
    rewrite (batchenq_copy_correct (length self)
               (fun i => mk_node (item_address items itemsize i) (length self + i)));
      try lia.
    - simpl. unfold batch_snapshot. rewrite Z2Nat.id by lia. reflexivity.
    - intros q Hq. rewrite Hnew by lia. rewrite !Z.add_0_l, Z.add_0_r. reflexivity. }
  rewrite Hcopy. simpl. rewrite wrap_small by lia.
  set (s2 := set_length s1 (length self + count)).
  assert (R2 : heap_rep s2).
  { constructor; simpl.
    - lia.
    - lia.
    - rewrite Hn1. exact (rep_bytes self R).
    - intros p Hp. destruct (Z_lt_ge_dec p (length self)) as [Hlt|Hge].
      + unfold s2. rewrite load_set_length. rewrite Hold by lia.
        apply (rep_position self R). lia.
      + unfold s2. rewrite load_set_length.
        pose proof (Hnew (p - length self) ltac:(lia)) as Hq.
        replace (length self + 0 + (p - length self)) with p in Hq by lia.
        rewrite Hq. eexists. split; [reflexivity|]. reflexivity. }
  destruct (floyd_algorithm_correct s2) as (s3 & Hrun3 & R3 & Hre3 & Hord3);
    [simpl; rewrite Hc1; exact TP | exact R2 |].
  rewrite Hrun3. simpl. exists s3. split; [reflexivity|].
  destruct Hre3 as (Hl3 & Ha3 & Hc3 & Hp3).
  split; [split; assumption|]. split; [exact Hl3|].
  split; [rewrite Ha3; exact Ha1|]. split; [rewrite Hc3; exact Hc1|].
  rewrite Hp3. unfold s2.
  replace (length self + count) with (length self + 0 + Z.of_nat (Z.to_nat count)) by lia.
  rewrite Hit. rewrite Z.add_0_r, set_length_same.
  unfold batch_items. rewrite Z2Nat.id by lia. reflexivity.
Qed.

Lemma batchenq_tail_Done_inv self items itemsize count want_nodes res :
  0 <= count -> 0 <= length self < SIZE_MOD ->
  Z.of_nat (List.length (nodes self)) < SIZE_MOD ->
  (count = 0 -> length self <= Z.of_nat (List.length (nodes self))) ->
  batchenq_tail self items itemsize count want_nodes = Done res ->
  length self + count <= Z.of_nat (List.length (nodes self)).
Proof.
  intros Hcount Hlen Hsz Hzero. unfold batchenq_tail.
  destruct (batchenq_append (Z.to_nat count) self items itemsize (length self) 0)
    as [s1| |] eqn:E; simpl; try discriminate.
  intros _.
  assert (Hle : length self <= Z.of_nat (List.length (nodes self))).
  { destruct (Z.eq_dec count 0) as [H0|H0]; [auto|].
    destruct (Z.to_nat count) as [|todo] eqn:Et; [lia|].
    simpl in E. rewrite Z.add_0_r, wrap_small in E by lia.
    destruct (store self (length self) _) as [s0| |] eqn:E0; simpl in E; try discriminate.
    apply store_Done_inv in E0. lia. }
  apply batchenq_append_Done_inv in E; lia.
Qed.

(** Every completed call either reports the refused reallocation, or leaves
    a valid heap that holds the new items. *)
Lemma batchenq_Done self items itemsize count want_nodes realloc_ok e self' copied :
  total_preorder (cmp self) -> heap_rep self -> 0 <= count ->
  islbh_batchenq self items itemsize count want_nodes realloc_ok
  = Done (e, self', copied) ->
  (e = ISLBH_ERROR_BAD_ALLOC /\ copied = None
   /\ exists a',
        batchenq_capacity capacity_fuel (allocated self) (wrap (length self + count))
        = Done a'
        /\ allocated self < a'
        /\ self' = snd (islbh__grow self a' false))
  \/ (e = ISLBH_ERROR_OK /\ heap_ok self'
      /\ length self' = length self + count
      /\ cmp self' = cmp self
      /\ heap_items self' ≡ₚ heap_items self ++ batch_items items itemsize count).
Proof.
  intros TP R Hcount. rewrite batchenq_unfold.
  pose proof (rep_length self R) as HL. pose proof (rep_allocated self R) as HA.
  pose proof (rep_bytes self R) as HB. unfold sizeof_islbh_node in HB.
  destruct (batchenq_capacity capacity_fuel (allocated self)
              (wrap (length self + count))) as [a'| |] eqn:Ecap; simpl; try discriminate.
  assert (Ha0 : 0 <= allocated self) by lia.
  destruct (batchenq_capacity_Done _ _ _ _ Ha0 Ecap) as [Ht Hshape].
  destruct (Z.ltb_spec (allocated self) a') as [Hgrow|Hkeep].
  - destruct realloc_ok.
    2:{ intros H. inversion H; subst. left.
        split; [reflexivity|]. split; [reflexivity|].
        exists a'. split; [reflexivity|]. split; [exact Hgrow | reflexivity]. }
    intros Hrun.
    destruct Hshape as [->|(a'' & Ha'' & Hdbl)]; [lia|].
    pose proof (wrap_range (sizeof_islbh_node * a')) as Hw.
    unfold sizeof_islbh_node in Hw.
    assert (Hcount1 : count <> 0).
    { intros ->. rewrite Z.add_0_r, wrap_small in Ha'' by lia.
      rewrite Z.add_0_r, wrap_small in Ht by lia.
      pose proof Ecap as Ecap'. rewrite batchenq_capacity_eq in Ecap'.
      rewrite Z.add_0_r, wrap_small in Ecap' by lia.
      destruct (Z.ltb_spec (allocated self) (length self)); [lia|].
      inversion Ecap'. lia. }
    assert (Hm0 : 0 <= wrap (sizeof_islbh_node * a') / sizeof_islbh_node)
      by (unfold sizeof_islbh_node; lia).
    assert (Hslots : length self + count
                     <= wrap (sizeof_islbh_node * a') / sizeof_islbh_node).
    { pose proof Hrun as Hrun'.
      apply batchenq_tail_Done_inv in Hrun'; simpl length in *; simpl nodes in *;
        try rewrite length_resize in *; try lia.
      unfold sizeof_islbh_node in *. lia. }
    assert (Hsmall : wrap (sizeof_islbh_node * a') / sizeof_islbh_node * 16 < SIZE_MOD)
      by (unfold sizeof_islbh_node; lia).
    rewrite (wrap_small (length self + count)) in * by lia.
    destruct (doubling_fits a'') as [F1 F2];
      [lia | unfold sizeof_islbh_node; lia | rewrite <- Hdbl; lia |].
    rewrite <- Hdbl in F1, F2.
    destruct (heap_rep_grown self a' R ltac:(lia) F2)
      as (R1 & Hit1 & Hl1 & Ha1 & Hc1 & _).
    destruct (batchenq_tail_correct _ items itemsize count want_nodes
                ltac:(rewrite Hc1; exact TP) R1 Hcount ltac:(lia))
      as (s' & Hrun' & OK' & Hl' & Ha' & Hc' & Hp').
    pose proof (eq_trans (eq_sym Hrun) Hrun') as Heq.
    inversion Heq; subst. right.
    split; [reflexivity|]. split; [exact OK'|]. split; [lia|].
    split; [congruence|]. rewrite Hp', Hit1. reflexivity.
  - intros Hrun.
    assert (Hslots : length self + count <= Z.of_nat (List.length (nodes self))).
    { pose proof Hrun as Hrun'.
      apply batchenq_tail_Done_inv in Hrun'; lia. }
    rewrite (wrap_small (length self + count)) in * by lia.
    destruct (batchenq_tail_correct self items itemsize count want_nodes
                TP R Hcount ltac:(lia))
      as (s' & Hrun' & OK' & Hl' & Ha' & Hc' & Hp').
    rewrite Hrun' in Hrun. inversion Hrun; subst. right.
    repeat split; try assumption; apply OK'.
Qed.

(** Where the array is not empty (or already large enough) and the new
    length is small enough for its doubling to be representable, the call
    completes. *)
Lemma batchenq_total self items itemsize count want_nodes realloc_ok :
  total_preorder (cmp self) -> heap_rep self -> 0 <= count ->
  1 <= allocated self \/ length self + count <= allocated self ->
  (length self + count) * 2 * sizeof_islbh_node <= SIZE_MOD ->
  exists res,
    islbh_batchenq self items itemsize count want_nodes realloc_ok = Done res.
Proof.
  intros TP R Hcount Hcap Hsmall. rewrite batchenq_unfold.
  pose proof (rep_length self R) as HL. pose proof (rep_allocated self R) as HA.
  pose proof (rep_bytes self R) as HB. unfold sizeof_islbh_node in HB, Hsmall.
  rewrite (wrap_small (length self + count)) by lia.
  destruct (Z_lt_ge_dec (allocated self) (length self + count)) as [Hlt|Hge].
  - destruct (batchenq_capacity_doubles capacity_fuel (allocated self)
                (length self + count)) as (k & Hk & Hrun & Hle & Hmin); try lia.
    { change (Z.of_nat capacity_fuel) with 65.
      assert (allocated self * 2 ^ 63 <= allocated self * 2 ^ 65)
        by (apply Z.mul_le_mono_nonneg_l; lia).
      rewrite SIZE_MOD_val in *. lia. }
    rewrite Hrun. simpl.
    destruct k as [|k]; [simpl in Hle; lia|].
    pose proof (Hmin k ltac:(lia)) as Hprev.
    rewrite Nat2Z.inj_succ, Z.pow_succ_r in * by lia.
    set (a' := allocated self * (2 * 2 ^ Z.of_nat k)) in *.
    assert (Ha' : a' = 2 * (allocated self * 2 ^ Z.of_nat k)) by (unfold a'; lia).
    destruct (Z.ltb_spec (allocated self) a'); [|lia].
    destruct realloc_ok; [|eauto].
    assert (Hfit : a' <= wrap (sizeof_islbh_node * a') / sizeof_islbh_node).
    { unfold wrap, sizeof_islbh_node. rewrite SIZE_MOD_val in *. lia. }
    destruct (heap_rep_grown self a' R ltac:(lia) Hfit)
      as (R1 & Hit1 & Hl1 & Ha1 & Hc1 & _).
    destruct (batchenq_tail_correct _ items itemsize count want_nodes
                ltac:(rewrite Hc1; exact TP) R1 Hcount ltac:(lia))
      as (s' & Hrun' & _). eauto.
  - rewrite batchenq_capacity_eq.
    destruct (Z.ltb_spec (allocated self) (length self + count)); [lia|]. simpl.
    destruct (Z.ltb_spec (allocated self) (allocated self)); [lia|].
    destruct (batchenq_tail_correct self items itemsize count want_nodes
                TP R Hcount ltac:(lia)) as (s' & Hrun' & _). eauto.
Qed.

(** A refused reallocation for a batch that is not too large leaves the
    array in place: the request is not of 0 bytes. *)
Lemma batchenq_refused_same self count a' :
  heap_rep self -> 0 <= count ->
  (length self + count) * 2 * sizeof_islbh_node <= SIZE_MOD ->
  batchenq_capacity capacity_fuel (allocated self) (wrap (length self + count))
  = Done a' ->
  allocated self < a' ->
  snd (islbh__grow self a' false) = self.
Proof.
  intros R Hcount Hsmall Ecap Hgrow.
  pose proof (rep_length self R) as HL. unfold sizeof_islbh_node in Hsmall.
  rewrite SIZE_MOD_val in Hsmall.
  rewrite wrap_small in Ecap by (rewrite SIZE_MOD_val; lia).
  assert (Ha0 : 0 <= allocated self) by lia.
  destruct (batchenq_capacity_Done _ _ _ _ Ha0 Ecap)
    as [Ht [->|(a'' & Ha'' & ->)]]; [lia|].
  apply grow_refused_same.
  rewrite (wrap_small (a'' * 2)) in * by (rewrite SIZE_MOD_val; lia).
  unfold sizeof_islbh_node. rewrite wrap_small by (rewrite SIZE_MOD_val; lia). lia.
Qed.

Lemma batchenq_Done_ok self items itemsize count want_nodes realloc_ok e self' copied :
  total_preorder (cmp self) -> heap_ok self -> 0 <= count ->
  (length self + count) * 2 * sizeof_islbh_node <= SIZE_MOD ->
  islbh_batchenq self items itemsize count want_nodes realloc_ok
  = Done (e, self', copied) ->
  heap_ok self'.
Proof.
  intros TP OK Hcount Hsmall Hrun.
  destruct (batchenq_Done _ _ _ _ _ _ _ _ _ TP (proj1 OK) Hcount Hrun)
    as [(_ & _ & a' & Ecap & Hgrow & ->)|(_ & OK' & _)]; [|exact OK'].
  rewrite (batchenq_refused_same self count a') by (try apply OK; assumption).
  exact OK.
Qed.

(** ** Results of the tails *)

Lemma bind_Done_inv {A B : Type} (c : outcome A) (k : A -> outcome B) (r : B) :
  bind c k = Done r -> exists a, c = Done a /\ k a = Done r.
Proof. destruct c as [a| |]; simpl; intros H; try discriminate. eauto. Qed.

Lemma enqueue_tail_not_null self it self' :
  enqueue_tail self it = Done (NullNode, self') -> False.
Proof.
  unfold enqueue_tail. intros H.
  apply bind_Done_inv in H. destruct H as (s1 & _ & H).
  apply bind_Done_inv in H. destruct H as ([j s2] & _ & H). discriminate.
Qed.

Lemma batchenq_tail_not_bad_alloc self items itemsize count want_nodes self' copied :
  batchenq_tail self items itemsize count want_nodes
  = Done (ISLBH_ERROR_BAD_ALLOC, self', copied) -> False.
Proof.
  unfold batchenq_tail. intros H.
  apply bind_Done_inv in H. destruct H as (s1 & _ & H).
  apply bind_Done_inv in H. destruct H as (l & _ & H).
  apply bind_Done_inv in H. destruct H as (s2 & _ & H). discriminate.
Qed.

Lemma batchenq_granted_not_bad_alloc self items itemsize count want_nodes self' copied :
  islbh_batchenq self items itemsize count want_nodes true
  = Done (ISLBH_ERROR_BAD_ALLOC, self', copied) -> False.
Proof.
  rewrite batchenq_unfold. intros H.
  apply bind_Done_inv in H. destruct H as (a' & _ & H).
  destruct (allocated self <? a');
    eapply batchenq_tail_not_bad_alloc; exact H.
Qed.

(** ** Remove, case by case *)

Lemma remove_null self :
  islbh_remove self NullNode = Done (ISLBH_ERROR_NULL_NODE, self).
Proof. reflexivity. Qed.

Lemma remove_not_exist self node n :
  deref self node = Done n ->
  length self <= index n \/ same_slot (index n) node = false ->
  islbh_remove self node = Done (ISLBH_ERROR_NOT_EXIST, self).
Proof.
  intros Hn Hbad. unfold islbh_remove.
  destruct node as [|j|m]; [discriminate| |]; rewrite Hn; simpl;
    (destruct (Z.leb_spec (length self) (index n)); [reflexivity|]);
    (destruct Hbad as [?|Hs]; [lia|]); simpl in Hs; rewrite ?Hs; reflexivity.
Qed.

Lemma remove_ok self node n :
  total_preorder (cmp self) -> heap_ok self ->
  deref self node = Done n -> 0 <= index n < length self ->
  same_slot (index n) node = true ->
  exists self',
    islbh_remove self node = Done (ISLBH_ERROR_OK, self') /\ heap_ok self'.
Proof.
  intros TP OK Hn Hi Hslot.
  destruct node as [|j|m]; try discriminate. simpl in Hslot.
  apply Z.eqb_eq in Hslot. subst j.
  destruct (remove_correct self (index n) TP OK Hi) as (self' & Hrun & OK' & _).
  eauto.
Qed.

(** ** Peek and growth *)

(** [islbh_peek] never looks at [length]. *)
Lemma peek_ignores_length self n :
  islbh_peek (set_length self n) = islbh_peek self.
Proof. reflexivity. Qed.

(** A full array of at least one slot is reallocated to twice its size. *)
Lemma enqueue_doubles self it :
  total_preorder (cmp self) -> heap_ok self ->
  length self = allocated self -> 0 < allocated self ->
  allocated self * 2 * sizeof_islbh_node < SIZE_MOD ->
  exists j self',
    islbh_enqueue self it true = Done (NodeAt j, self')
    /\ allocated self' = Z.max 1 (allocated self * 2)
    /\ length self' = length self + 1.
Proof.
  intros TP OK Hfull Hpos Hsmall.
  destruct (enqueue_total self it true TP OK) as (r & self' & Hrun); [right; lia|].
  destruct (enqueue_Done _ _ _ _ _ TP OK Hrun) as (_ & [(-> & _)|Hadd]).
  - exfalso. rewrite enqueue_unfold in Hrun.
    destruct (Z.leb_spec (allocated self) (length self)); [|lia].
    eapply enqueue_tail_not_null. exact Hrun.
  - destruct Hadd as (_ & (j & -> & _) & Hl & _ & Ha).
    exists j, self'. split; [exact Hrun|]. split; [|exact Hl].
    rewrite Ha. destruct (Z.leb_spec (allocated self) (length self)); [|lia].
    destruct (doubling_small _ Hpos Hsmall) as [-> _]. lia.
Qed.

(** ** The steps of the conditional sift-down *)

Lemma sift_down_deterministic self i s1 :
  sift_down self i s1 -> forall s2, sift_down self i s2 -> s1 = s2.
Proof.
  induction 1 as [self i Hl|self i Hl Hlt|self i s1 Hl Hge Hrec IH];
    intros s2 H2; inversion H2; subst; try reflexivity; try lia.
  apply IH. assumption.
Qed.

Lemma siftdown_loop_steps fuel : forall self i,
  heap_rep self -> 0 <= i < length self ->
  (Z.to_nat (length self - i) <= fuel)%nat ->
  exists self',
    siftdown_loop fuel self i (left_of i) (right_of (left_of i)) = Done self'
    /\ sift_down self i self'.
Proof.
  induction fuel as [|fuel IH]; intros self i R Hi Hfuel;
    rewrite siftdown_loop_eq; pose proof (rep_bound self R) as RB;
    unfold sizeof_islbh_node in RB; rewrite (left_of_eq i) by lia.
  - lia.
  - destruct (Z.ltb_spec (2 * i + 1) (length self)) as [Hl|Hl].
    2:{ exists self. split; [reflexivity|]. apply sift_down_leaf. lia. }
    rewrite <- (left_of_eq i) by lia.
    rewrite higher_child_pick by (try assumption; lia). simpl.
    destruct (pick_child self i ltac:(lia) Hl) as [Hc Hcp].
    destruct (rep_load self i R ltac:(lia)) as (a & Ha & _ & Ka).
    destruct (rep_load self (pick self i) R ltac:(lia)) as (b & Hb & _ & Kb).
    rewrite Ha, Hb. simpl. rewrite Ka, Kb.
    destruct (Z.ltb_spec (cmp self (key self i) (key self (pick self i))) 0) as [Hlt|Hge].
    + exists self. split; [reflexivity|]. apply sift_down_stop; assumption.
    + erewrite swap_done by (try eassumption; lia). simpl.
      destruct (swapped_fields self i (pick self i)) as (Hlen & _).
      destruct (IH (swapped self i (pick self i)) (pick self i))
        as (self' & Hrun & Hrel).
      * eapply heap_rep_swapped; try eassumption; lia.
      * rewrite Hlen. lia.
      * rewrite Hlen. lia.
      * exists self'. split; [exact Hrun|].
        apply sift_down_swap; [assumption | lia | exact Hrel].
Qed.

(** ** The two sift-downs compared *)

Lemma parent_of_lt i : 0 < i -> 0 <= parent_of i < i.
Proof.
  intros Hi. unfold parent_of, wrap. rewrite Z.shiftr_div_pow2 by lia.
  change (2 ^ 1) with 2. rewrite SIZE_MOD_val. lia.
Qed.

(** With enough fuel the result of the sift-up loop does not depend on it. *)
Lemma siftup_loop_fuel f : forall self i f',
  (Z.to_nat i <= f)%nat -> (Z.to_nat i <= f')%nat ->
  siftup_loop f self i (parent_of i) = siftup_loop f' self i (parent_of i).
Proof.
  induction f as [|f IH]; intros self i f' Hf Hf'; rewrite !siftup_loop_eq.
  - destruct (Z.ltb_spec 0 i); [lia | reflexivity].
  - destruct (Z.ltb_spec 0 i) as [Hpos|]; [|reflexivity].
    destruct (load self i) as [a| |]; simpl; try reflexivity.
    destruct (load self (parent_of i)) as [b| |]; simpl; try reflexivity.
    destruct (cmp self (item a) (item b) <? 0); [|reflexivity].
    destruct f' as [|f']; [lia|].
    destruct (islbh__swap self i (parent_of i)) as [s| |]; simpl; try reflexivity.
    pose proof (parent_of_lt i Hpos). apply IH; lia.
Qed.

Lemma node_eta n : mk_node (item n) (index n) = n.
Proof. destruct n; reflexivity. Qed.

Lemma set_nodes_same self : set_nodes self (nodes self) = self.
Proof. destruct self; reflexivity. Qed.

(** Swapping twice restores the array, position fields included. *)
Lemma swap_back self i c :
  heap_rep self -> 0 <= i < length self -> 0 <= c < length self -> i <> c ->
  swapped (swapped self i c) c i = self.
Proof.
  intros R Hi Hc Hne.
  destruct (rep_load self i R Hi) as (a & Ha & Xa & Ka).
  destruct (rep_load self c R Hc) as (b & Hb & Xb & Kb).
  assert (Hi0 : 0 <= i) by lia. assert (Hc0 : 0 <= c) by lia.
  unfold swapped at 1.
  rewrite (key_swapped_r self i c a b) by assumption.
  rewrite (key_swapped_l self i c a b) by assumption.
  unfold swapped, set_nodes; simpl.
  rewrite list_insert_insert_eq.
  rewrite (list_insert_insert_ne _ (Z.to_nat c) (Z.to_nat i)) by lia.
  rewrite list_insert_insert_eq.
  rewrite <- Ka, <- Kb. rewrite <- Xa at 2. rewrite <- Xb at 2.
  rewrite !node_eta.
  apply load_Done in Ha, Hb.
  rewrite (list_insert_id _ _ _ Hb). rewrite (list_insert_id _ _ _ Ha).
  destruct self; reflexivity.
Qed.

Lemma siftup_idle self i :
  heap_rep self -> 0 <= i < length self -> up_ok 0 self i ->
  islbh__siftup self i = Done (i, self).
Proof.
  intros R Hi Hup. pose proof (rep_bound self R) as RB.
  unfold sizeof_islbh_node in RB.
  destruct (Z.eq_dec i 0) as [->|Hne]; [apply siftup_root|].
  destruct (rep_load self i R Hi) as (a & Ha & _ & Ka).
  destruct (rep_load self ((i - 1) / 2) R ltac:(lia)) as (b & Hb & _ & Kb).
  eapply siftup_stay; try eassumption; try lia.
  rewrite Ka, Kb. apply Hup; lia.
Qed.

(** When the slot at [i] is strictly before everything below it, the
    descent of [islbh__siftdown_floyd] followed by the sift-up from the leaf
    brings the array back, and the sift-up goes on from [i]. *)
Lemma floyd_descend_returns fuel : forall self i,
  total_preorder (cmp self) -> heap_rep self ->
  0 <= i < length self -> (Z.to_nat (length self - i) <= fuel)%nat ->
  ordered_from (i + 1) self ->
  (forall j, 0 < j < length self -> (j - 1) / 2 = i ->
             cmp self (key self i) (key self j) < 0) ->
  exists leaf s1,
    floyd_descend fuel self i (left_of i) (right_of (left_of i)) = Done (leaf, s1)
    /\ islbh__siftup s1 leaf = islbh__siftup self i.
Proof.
  induction fuel as [|fuel IH]; intros self i TP R Hi Hfuel Hord Hbelow;
    rewrite floyd_descend_eq; pose proof (rep_bound self R) as RB;
    unfold sizeof_islbh_node in RB; rewrite (left_of_eq i) by lia.
  - lia.
  - destruct (Z.ltb_spec (2 * i + 1) (length self)) as [Hl|Hl].
    2:{ exists i, self. split; reflexivity. }
    rewrite <- (left_of_eq i) by lia.
    rewrite higher_child_pick by (try assumption; lia). simpl.
    destruct (pick_child self i ltac:(lia) Hl) as [Hc Hcp].
    set (c := pick self i) in *.
    destruct (rep_load self i R ltac:(lia)) as (a & Ha & _ & Ka).
    destruct (rep_load self c R ltac:(lia)) as (b & Hb & _ & Kb).
    assert (Hi0 : 0 <= i) by lia. assert (Hc0 : 0 <= c) by lia.
    rewrite (swap_done self i c a b) by assumption. simpl.
    destruct (swapped_fields self i c) as (Hlen & _ & Hcm & _).
    assert (R' : heap_rep (swapped self i c))
      by (apply (heap_rep_swapped self i c a b); assumption).
    destruct (IH (swapped self i c) c) as (leaf & s1 & Hrun & Hup);
      try assumption.
    + rewrite Hlen. lia.
    + rewrite Hlen. lia.
    + intros j Hj Hk. rewrite Hlen in Hj. unfold edge. rewrite Hcm.
      swapped_keys Hi0 Hc0 Ha Hb. apply Hord; lia.
    + intros j Hj Hp. rewrite Hlen in Hj. rewrite Hcm.
      swapped_keys Hi0 Hc0 Ha Hb.
      eapply cmp_lt_ge_lt; [exact TP | apply (Hbelow c); lia |].
      pose proof (Hord j Hj ltac:(lia)) as E. unfold edge in E.
      rewrite Hp in E. exact E.
    + exists leaf, s1. split; [exact Hrun|]. rewrite Hup.
      unfold islbh__siftup at 1.
      destruct (Z.to_nat c) as [|m] eqn:Em; [lia|].
      rewrite siftup_loop_eq.
      destruct (Z.ltb_spec 0 c); [|lia].
      rewrite parent_of_eq by lia. rewrite Hcp.
      rewrite (load_swapped_r self i c a b) by assumption.
      rewrite (load_swapped_l self i c a b) by (assumption || lia).
      simpl. rewrite Ka, Kb.
      destruct (Z.ltb_spec (cmp self (key self i) (key self c)) 0) as [_|Hge].
      2:{ specialize (Hbelow c ltac:(lia) Hcp). lia. }
      erewrite (swap_done (swapped self i c) c i);
        [ | lia | lia
          | eapply load_swapped_r; eassumption
          | eapply load_swapped_l; try eassumption; lia ].
      simpl. rewrite swap_back by (assumption || lia).
      unfold islbh__siftup. apply siftup_loop_fuel; lia.
Qed.

Lemma siftdown_floyd_agree fuel : forall self i,
  total_preorder (cmp self) -> heap_rep self ->
  0 <= i < length self -> (Z.to_nat (length self - i) <= fuel)%nat ->
  ordered_from (i + 1) self -> up_ok 0 self i ->
  exists self' leaf s1 j,
    siftdown_loop fuel self i (left_of i) (right_of (left_of i)) = Done self'
    /\ floyd_descend fuel self i (left_of i) (right_of (left_of i)) = Done (leaf, s1)
    /\ islbh__siftup s1 leaf = Done (j, self').
Proof.
  induction fuel as [|fuel IH]; intros self i TP R Hi Hfuel Hord Hup.
  - lia.
  - pose proof (rep_bound self R) as RB. unfold sizeof_islbh_node in RB.
    destruct (Z_lt_ge_dec (2 * i + 1) (length self)) as [Hl|Hl].
    2:{ exists self, i, self, i.
        rewrite siftdown_loop_eq, floyd_descend_eq, (left_of_eq i) by lia.
        destruct (Z.ltb_spec (2 * i + 1) (length self)); [lia|].
        split; [reflexivity|]. split; [reflexivity|].
        apply siftup_idle; assumption. }
    destruct (pick_child self i ltac:(lia) Hl) as [Hc Hcp].
    destruct (rep_load self i R ltac:(lia)) as (a & Ha & _ & Ka).
    destruct (rep_load self (pick self i) R ltac:(lia)) as (b & Hb & _ & Kb).
    assert (Hi0 : 0 <= i) by lia. assert (Hc0 : 0 <= pick self i) by lia.
    destruct (Z_lt_ge_dec (cmp self (key self i) (key self (pick self i))) 0)
      as [Hlt|Hge].
    + (* the conditional sift-down stops here *)
      destruct (floyd_descend_returns (S fuel) self i TP R Hi Hfuel Hord)
        as (leaf & s1 & Hrun & Hback).
      { intros j Hj Hp.
        eapply cmp_lt_ge_lt; [exact TP | exact Hlt |].
        apply pick_first; try assumption; lia. }
      exists self, leaf, s1, i. split; [|split; [exact Hrun|]].
      * rewrite siftdown_loop_eq, (left_of_eq i) by lia.
        destruct (Z.ltb_spec (2 * i + 1) (length self)); [|lia].
        rewrite <- (left_of_eq i) by lia.
        rewrite higher_child_pick by (try assumption; lia). simpl.
        rewrite Ha, Hb. simpl. rewrite Ka, Kb.
        destruct (Z.ltb_spec (cmp self (key self i) (key self (pick self i))) 0);
          [reflexivity | lia].
      * rewrite Hback. apply siftup_idle; assumption.
    + (* both swap and go on from the child *)
      destruct (swapped_fields self i (pick self i)) as (Hlen & _ & Hcm & _).
      destruct (IH (swapped self i (pick self i)) (pick self i))
        as (self' & leaf & s1 & j & Hdown & Hdesc & Hup').
      * rewrite Hcm. exact TP.
      * apply (heap_rep_swapped self i (pick self i) a b); assumption.
      * rewrite Hlen. lia.
      * rewrite Hlen. lia.
      * intros e He Hk. rewrite Hlen in He. unfold edge. rewrite Hcm.
        swapped_keys Hi0 Hc0 Ha Hb. apply Hord; lia.
      * intros _ _. unfold edge. rewrite Hcm, Hcp.
        swapped_keys Hi0 Hc0 Ha Hb. exact Hge.
      * exists self', leaf, s1, j. split; [|split; [|exact Hup']].
        { rewrite siftdown_loop_eq, (left_of_eq i) by lia.
          destruct (Z.ltb_spec (2 * i + 1) (length self)); [|lia].
          rewrite <- (left_of_eq i) by lia.
          rewrite higher_child_pick by (try assumption; lia). simpl.
          rewrite Ha, Hb. simpl. rewrite Ka, Kb.
          destruct (Z.ltb_spec (cmp self (key self i) (key self (pick self i))) 0);
            [lia|].
          rewrite (swap_done self i (pick self i) a b) by assumption.
          exact Hdown. }
        { rewrite floyd_descend_eq, (left_of_eq i) by lia.
          destruct (Z.ltb_spec (2 * i + 1) (length self)); [|lia].
          rewrite <- (left_of_eq i) by lia.
          rewrite higher_child_pick by (try assumption; lia). simpl.
          rewrite (swap_done self i (pick self i) a b) by assumption.
          exact Hdesc. }
Qed.

(** ** Sequences of calls *)

Lemma heap_items_empty self : length self = 0 -> heap_items self = [].
Proof. intros H. unfold heap_items. rewrite H. reflexivity. Qed.

Lemma dequeue_loop_eq fuel self :
  dequeue_loop fuel self =
  if 0 <? length self then
    match fuel with
    | O => OutOfFuel
    | S fuel' =>
        let* (it, self) := islbh_dequeue self in
        let* (rest, self) := dequeue_loop fuel' self in
        Done (it :: rest, self)
    end
  else Done ([], self).
Proof. destruct fuel; reflexivity. Qed.

(** Draining a valid heap returns its items, each one not after the next. *)
Lemma dequeue_loop_correct fuel : forall self,
  total_preorder (cmp self) -> heap_ok self ->
  (Z.to_nat (length self) <= fuel)%nat ->
  exists out self',
    dequeue_loop fuel self = Done (out, self')
    /\ length self' = 0 /\ heap_ok self'
    /\ cmp self' = cmp self /\ allocated self' = allocated self
    /\ out ≡ₚ heap_items self
    /\ StronglySorted (fun a b => cmp self a b <= 0) out.
Proof.
  induction fuel as [|fuel IH]; intros self TP OK Hfuel; rewrite dequeue_loop_eq;
    pose proof (rep_length self (proj1 OK)) as HL.
  - destruct (Z.ltb_spec 0 (length self)); [lia|].
    exists [], self. split; [reflexivity|]. split; [lia|]. split; [exact OK|].
    split; [reflexivity|]. split; [reflexivity|].
    split; [rewrite heap_items_empty by lia; reflexivity | constructor].
  - destruct (Z.ltb_spec 0 (length self)) as [Hpos|Hzero].
    2:{ exists [], self. split; [reflexivity|]. split; [lia|]. split; [exact OK|].
        split; [reflexivity|]. split; [reflexivity|].
        split; [rewrite heap_items_empty by lia; reflexivity | constructor]. }
    destruct (dequeue_correct self TP OK Hpos)
      as (s1 & Hrun & OK1 & Hl1 & Ha1 & Hc1 & Hp1).
    rewrite Hrun. simpl.
    destruct (IH s1 ltac:(rewrite Hc1; exact TP) OK1 ltac:(lia))
      as (rest & s2 & Hrun2 & Hl2 & OK2 & Hc2 & Ha2 & Hp2 & Hs2).
    rewrite Hrun2. simpl.
    exists (key self 0 :: rest), s2. split; [reflexivity|]. split; [exact Hl2|].
    split; [exact OK2|]. split; [congruence|]. split; [congruence|].
    split; [rewrite Hp1, Hp2; reflexivity|].
    constructor.
    + rewrite Hc1 in Hs2. exact Hs2.
    + apply Forall_forall. intros y Hy.
      assert (Hin : y ∈ heap_items self).
      { rewrite Hp1. apply elem_of_cons. right. rewrite <- Hp2. exact Hy. }
      destruct OK as [R Hord].
      apply heap_items_key in Hin.
      2:{ pose proof (rep_length self R). pose proof (rep_allocated self R). lia. }
      destruct Hin as (i & Hi & <-). apply root_first; assumption.
Qed.

Lemma dequeue_all_correct self :
  total_preorder (cmp self) -> heap_ok self ->
  exists out self',
    dequeue_all self = Done (out, self')
    /\ length self' = 0 /\ heap_ok self'
    /\ cmp self' = cmp self /\ allocated self' = allocated self
    /\ out ≡ₚ heap_items self
    /\ StronglySorted (fun a b => cmp self a b <= 0) out.
Proof.
  intros TP OK. unfold dequeue_all. apply dequeue_loop_correct; auto.
Qed.

(** A call whose reallocation is granted does not return [NULL]. *)
Lemma enqueue_granted_not_null self it self' :
  islbh_enqueue self it true = Done (NullNode, self') -> False.
Proof.
  rewrite enqueue_unfold. intros H.
  destruct (allocated self <=? length self);
    eapply enqueue_tail_not_null; exact H.
Qed.

(** The calls leave a valid heap as long as no refused doubling is requested
    from a capacity of [2^59] slots (a request of 0 bytes): when the heap
    stays below that size, or when every reallocation is granted. *)
Lemma enqueue_all_Done calls : forall self self1,
  total_preorder (cmp self) -> heap_ok self ->
  (length self + Z.of_nat (List.length calls)) * 2 * sizeof_islbh_node <= SIZE_MOD
  \/ Forall (fun call => snd call = true) calls ->
  enqueue_all self calls = Done self1 ->
  heap_ok self1 /\ cmp self1 = cmp self.
Proof.
  induction calls as [|[it ok] calls IH]; intros self self1 TP OK Hsafe; simpl.
  - intros H. inversion H; subst. split; [exact OK | reflexivity].
  - intros H. apply bind_Done_inv in H. destruct H as ([r s] & Hrun & H).
    pose proof (rep_length self (proj1 OK)) as HL.
    replace (Z.of_nat (List.length ((it, ok) :: calls)))
      with (Z.of_nat (List.length calls) + 1) in Hsafe by (simpl; lia).
    unfold sizeof_islbh_node in Hsafe.
    destruct (enqueue_Done _ _ _ _ _ TP OK Hrun) as (Hc' & [(-> & Hfull & ->)|Hadd]).
    + destruct (grow_refused_fields self (wrap (allocated self * 2))) as (Hl & _ & _).
      destruct Hsafe as [Hlen|Hall].
      2:{ exfalso. apply Forall_cons in Hall. destruct Hall as [Hok _].
          simpl in Hok. subst ok. eapply enqueue_granted_not_null. exact Hrun. }
      destruct (IH _ self1 ltac:(rewrite Hc'; exact TP)
                  ltac:(apply doubling_refused_ok;
                        [exact OK | exact Hfull | unfold sizeof_islbh_node; lia])
                  ltac:(left; rewrite Hl; unfold sizeof_islbh_node; lia) H)
        as (OK1 & Hc1).
      split; [exact OK1 | congruence].
    + destruct Hadd as (OK' & _ & Hl & _).
      destruct (IH s self1 ltac:(rewrite Hc'; exact TP) OK') as (OK1 & Hc1).
      * destruct Hsafe as [Hlen|Hall].
        -- left. rewrite Hl. unfold sizeof_islbh_node. lia.
        -- right. apply Forall_cons in Hall. apply Hall.
      * exact H.
      * split; [exact OK1 | congruence].
Qed.

(** When every reallocation succeeds, the calls leave a valid heap. *)
Lemma enqueue_all_granted_Done its self self1 :
  total_preorder (cmp self) -> heap_ok self ->
  enqueue_all self ((fun it => (it, true)) <$> its) = Done self1 ->
  heap_ok self1 /\ cmp self1 = cmp self.
Proof.
  intros TP OK. apply enqueue_all_Done; [exact TP | exact OK |].
  right. apply Forall_fmap. apply Forall_forall. intros it _. reflexivity.
Qed.

Lemma enqueue_all_total calls : forall self,
  total_preorder (cmp self) -> heap_ok self ->
  0 < allocated self -> allocated self * 32 <= SIZE_MOD ->
  (length self + Z.of_nat (List.length calls)) * 64 <= SIZE_MOD ->
  exists self1, enqueue_all self calls = Done self1.
Proof.
  induction calls as [|[it ok] calls IH]; intros self TP OK Hpos Hcap Hlen; simpl.
  - eauto.
  - pose proof (rep_length self (proj1 OK)) as HL.
    replace (Z.of_nat (List.length ((it, ok) :: calls)))
      with (Z.of_nat (List.length calls) + 1) in Hlen by (simpl; lia).
    destruct (enqueue_total self it ok TP OK) as (r & s & Hrun).
    { destruct (Z_lt_ge_dec (length self) (allocated self)); [left; assumption|].
      right. unfold sizeof_islbh_node. lia. }
    rewrite Hrun. simpl.
    destruct (enqueue_Done _ _ _ _ _ TP OK Hrun) as (Hc' & [(_ & Hfull & ->)|Hadd]).
    + destruct (grow_refused_fields self (wrap (allocated self * 2))) as (Hl & Ha & Hc).
      apply IH; rewrite ?Hl, ?Ha, ?Hc; try assumption; try lia.
      apply doubling_refused_ok;
        [exact OK | exact Hfull | unfold sizeof_islbh_node; lia].
    + destruct Hadd as (OK' & _ & Hl' & _ & Ha').
      apply IH; try assumption.
      * rewrite Hc'. exact TP.
      * rewrite Ha'. destruct (Z.leb_spec (allocated self) (length self)); [|lia].
        rewrite wrap_small by (rewrite SIZE_MOD_val in *; lia). lia.
      * rewrite Ha'. destruct (Z.leb_spec (allocated self) (length self)); [|lia].
        rewrite wrap_small by (rewrite SIZE_MOD_val in *; lia). lia.
      * lia.
Qed.

(** When every reallocation succeeds, every item is added. *)
Lemma enqueue_all_items its : forall self self1,
  total_preorder (cmp self) -> heap_ok self ->
  enqueue_all self ((fun it => (it, true)) <$> its) = Done self1 ->
  heap_items self1 ≡ₚ heap_items self ++ its.
Proof.
  induction its as [|it its IH]; intros self self1 TP OK; simpl.
  - intros H. inversion H; subst. rewrite app_nil_r. reflexivity.
  - intros H. apply bind_Done_inv in H. destruct H as ([r s] & Hrun & H).
    destruct (enqueue_Done _ _ _ _ _ TP OK Hrun) as (Hc' & [(-> & _)|Hadd]).
    + exfalso. eapply enqueue_granted_not_null. exact Hrun.
    + destruct Hadd as (OK' & _ & _ & Hp & _).
      rewrite (IH s self1 ltac:(rewrite Hc'; exact TP) OK' H), Hp.
      rewrite <- Permutation_middle. reflexivity.
Qed.

(** ** The invariants in the words of the specification *)

Lemma heap_ok_spec_invariants self : heap_ok self -> spec_invariants self.
Proof.
  intros [R Hord]. split; [apply (rep_length self R)|]. split.
  - apply (rep_position self R).
  - intros i Hi.
    destruct (rep_load self i R ltac:(lia)) as (n & Hn & _ & Kn).
    destruct (rep_load self ((i - 1) / 2) R ltac:(lia)) as (p & Hp & _ & Kp).
    exists n, p. split; [exact Hn|]. split; [exact Hp|].
    rewrite Kn, Kp. apply Hord. exact Hi.
Qed.

Lemma update_valid self node n :
  total_preorder (cmp self) -> heap_ok self ->
  deref self node = Done n -> 0 <= index n < length self ->
  exists self', islbh_update self node = Done self' /\ heap_ok self'.
Proof.
  intros TP [R Hord] Hn Hi.
  destruct (update_correct self node n TP R Hn Hi) as (self' & Hrun & R' & _ & Hord').
  - apply ordered_from_hole; [assumption | lia |].
    apply heap_order_ordered_from. exact Hord.
  - exists self'. split; [exact Hrun | split; assumption].
Qed.

(** ** Sorted sequences of the same items *)

Lemma count_before_perm c x l1 l2 :
  l1 ≡ₚ l2 -> count_before c x l1 = count_before c x l2.
Proof.
  unfold count_before. induction 1 as [|a l1 l2 _ IH|a b l|l1 l2 l3 _ IH1 _ IH2]; simpl.
  - reflexivity.
  - destruct (c a x <? 0); simpl; congruence.
  - destruct (c a x <? 0), (c b x <? 0); reflexivity.
  - congruence.
Qed.

Lemma count_before_none c x l :
  Forall (fun z => c z x >= 0) l -> count_before c x l = 0%nat.
Proof.
  unfold count_before. induction 1 as [|z l Hz _ IH]; simpl; [reflexivity|].
  destruct (Z.ltb_spec (c z x) 0); [lia | exact IH].
Qed.

(** In a sorted sequence the items strictly before [x] are a prefix. *)
Lemma sorted_prefix c x l :
  total_preorder c ->
  StronglySorted (fun a b => c a b <= 0) l ->
  forall i y, l !! i = Some y -> (c y x < 0 <-> (i < count_before c x l)%nat).
Proof.
  intros TP. induction 1 as [|a l Hs IH Ha]; intros i y Hy.
  - discriminate.
  - unfold count_before in *. simpl.
    destruct (Z.ltb_spec (c a x) 0) as [Hlt|Hge]; simpl.
    + destruct i as [|i]; simpl in Hy.
      * inversion Hy; subst. split; [lia | auto].
      * rewrite (IH i y Hy). lia.
    + assert (Hnone : Forall (fun z => c z x >= 0) l).
      { eapply Forall_impl; [exact Ha|]. intros z Hz. simpl in Hz.
        apply (cmp_ge_le c TP). eapply (cmp_trans c TP); [|exact Hz].
        apply (cmp_ge_le c TP). lia. }
      pose proof (count_before_none c x l Hnone) as H0.
      unfold count_before in H0. rewrite H0.
      destruct i as [|i]; simpl in Hy.
      * inversion Hy; subst. lia.
      * apply list_elem_of_lookup_2 in Hy.
        rewrite Forall_forall in Hnone. specialize (Hnone y Hy). lia.
Qed.

(** Two sorted sequences of the same items agree position by position, up
    to the order of items that tie. *)
Lemma sorted_perm_pointwise c l1 l2 :
  total_preorder c ->
  StronglySorted (fun a b => c a b <= 0) l1 ->
  StronglySorted (fun a b => c a b <= 0) l2 ->
  l1 ≡ₚ l2 ->
  Forall2 (fun a b => c a b = 0) l1 l2.
Proof.
  intros TP S1 S2 Hp.
  apply Forall2_same_length_lookup_2; [apply Permutation_length; exact Hp|].
  intros i a b Ha Hb.
  destruct (Z.lt_trichotomy (c a b) 0) as [Hlt|[Heq|Hgt]]; [exfalso | exact Heq | exfalso].
  - apply (sorted_prefix c b l1 TP S1 i a Ha) in Hlt.
    rewrite (count_before_perm c b l1 l2 Hp) in Hlt.
    apply (sorted_prefix c b l2 TP S2 i b Hb) in Hlt.
    rewrite (cmp_refl c TP) in Hlt. lia.
  - apply (cmp_sign c TP) in Hgt.
    apply (sorted_prefix c a l2 TP S2 i b Hb) in Hgt.
    rewrite <- (count_before_perm c a l1 l2 Hp) in Hgt.
    apply (sorted_prefix c a l1 TP S1 i a Ha) in Hgt.
    rewrite (cmp_refl c TP) in Hgt. lia.
Qed.

Lemma batch_items_length items itemsize count :
  0 <= count ->
  Z.of_nat (List.length (batch_items items itemsize count)) = count.
Proof.
  intros H. unfold batch_items. rewrite length_fmap, length_seqZ. lia.
Qed.

(** ** Deciding the invariants of a concrete heap *)

Lemma check_rep_sound self : check_rep self = true -> heap_rep self.
Proof.
  unfold check_rep. rewrite !andb_true_iff.
  intros [[[[H1 H2] H3] H4] H5].
  apply Z.leb_le in H1, H2, H3. apply Z.ltb_lt in H4.
  rewrite forallb_forall in H5.
  constructor; try lia.
  intros i Hi. specialize (H5 i). rewrite <- list_elem_of_In in H5.
  rewrite elem_of_seqZ in H5. specialize (H5 ltac:(lia)).
  destruct (load self i) as [n| |]; try discriminate.
  exists n. split; [reflexivity|]. apply Z.eqb_eq. exact H5.
Qed.

Lemma check_order_sound self : check_order self = true -> heap_order self.
Proof.
  unfold check_order. rewrite forallb_forall. intros H i Hi.
  specialize (H i). rewrite <- list_elem_of_In in H.
  rewrite elem_of_seqZ in H. specialize (H ltac:(lia)).
  apply Z.leb_le in H. unfold edge. lia.
Qed.

Lemma check_heap_ok self :
  check_rep self && check_order self = true -> heap_ok self.
Proof.
  rewrite andb_true_iff. intros [H1 H2].
  split; [apply check_rep_sound | apply check_order_sound]; assumption.
Qed.

Lemma check_ordered_from_sound k self :
  check_ordered_from k self = true -> ordered_from k self.
Proof.
  unfold check_ordered_from. rewrite forallb_forall. intros H j Hj Hk.
  specialize (H j). rewrite <- list_elem_of_In in H.
  rewrite elem_of_seqZ in H. specialize (H ltac:(lia)).
  destruct (Z.leb_spec k ((j - 1) / 2)); [|lia]. simpl in H.
  apply Z.leb_le in H. unfold edge. lia.
Qed.

Lemma by_address_preorder : total_preorder by_address.
Proof. constructor; unfold by_address; intros; lia. Qed.

Lemma by_tens_preorder : total_preorder by_tens.
Proof. constructor; unfold by_tens; intros; lia. Qed.

Lemma sample_heap_ok : heap_ok sample_heap.
Proof. apply check_heap_ok. vm_compute. reflexivity. Qed.

Lemma tied_heap_ok : heap_ok tied_heap.
Proof. apply check_heap_ok. vm_compute. reflexivity. Qed.

(** ** A full heap whose doubling is a request of 0 bytes *)

Section Filled.
Variable n : Z.
Hypothesis Hpos : 1 < n.
Hypothesis Hfits : n * sizeof_islbh_node < SIZE_MOD.




End Filled.

(** * The specification's claims *)

(** ** The order of dequeued items *)




(** Scenario A of the specification: priorities 5, 3, 8, 1, 4 come out as
    1, 3, 4, 5, 8. *)
Example scenario_a :
  match islbh_create 4 by_address true true with
  | Some h =>
      let* h := enqueue_all h [(5, true); (3, true); (8, true); (1, true); (4, true)] in
      let* (out, _) := dequeue_all h in
      Done out
  | None => Fault
  end = Done [1; 3; 4; 5; 8].
Proof. vm_compute. reflexivity. Qed.

(** In the manner of scenario B: a batch of four items (the addresses 0, 3,
    6 and 9 of an array of stride 3), then 5, come out in order. *)
Example scenario_b :
  match islbh_create 1 by_address true true with
  | Some h =>
      let* (_, h, _) := islbh_batchenq h 0 3 4 false true in
      let* (_, h) := islbh_enqueue h 5 true in
      let* (out, _) := dequeue_all h in
      Done out
  | None => Fault
  end = Done [0; 3; 5; 6; 9].
Proof. vm_compute. reflexivity. Qed.

(** ** The invariants after every operation *)

(** C2. A public operation applied to a heap that satisfies the invariants,
    under a comparator that is a total preorder, completes and leaves a heap
    that satisfies them: every active slot [i] has [position == i], and
    every active slot [i > 0] has
    [cmp(nodes[i].item, nodes[(i-1)/2].item) >= 0].  This holds of
    [islbh_dequeue], of [islbh_update] on a node that records an active
    position, and of [islbh_remove] on a null or readable node; it holds of
    [islbh_enqueue] when there is room or the capacity is not 0 and its
    double is representable, and of [islbh_batchenq] when there is room or
    the capacity is not 0, for at most [2^59] items in all.  Without these
    conditions the two calls may fail to complete, or leave the active
    slots unreadable. *)
Theorem operations_preserve_invariants (self : islbh_binary_heap) :
  total_preorder (cmp self) -> heap_ok self ->
  (* enqueue *)
  (forall it realloc_ok,
      length self < allocated self
      \/ (0 < allocated self
          /\ allocated self * 2 * sizeof_islbh_node < SIZE_MOD) ->
      exists r self', islbh_enqueue self it realloc_ok = Done (r, self')
                      /\ heap_ok self' /\ spec_invariants self')
  (* dequeue *)
  /\ (exists it self', islbh_dequeue self = Done (it, self')
                       /\ heap_ok self' /\ spec_invariants self')
  (* update *)
  /\ (forall node n,
        deref self node = Done n -> 0 <= index n < length self ->
        exists self', islbh_update self node = Done self'
                      /\ heap_ok self' /\ spec_invariants self')
  (* remove *)
  /\ (forall node,
        node = NullNode \/ (exists n, deref self node = Done n /\ 0 <= index n) ->
        exists e self', islbh_remove self node = Done (e, self')
                        /\ heap_ok self' /\ spec_invariants self')
  (* batchEnqueue *)
  /\ (forall items itemsize count want_nodes realloc_ok,
        0 <= count ->
        1 <= allocated self \/ length self + count <= allocated self ->
        (length self + count) * 2 * sizeof_islbh_node <= SIZE_MOD ->
        exists e self' copied,
          islbh_batchenq self items itemsize count want_nodes realloc_ok
          = Done (e, self', copied)
          /\ heap_ok self' /\ spec_invariants self').
Proof.
  intros TP OK.
  assert (Both : forall s, heap_ok s -> heap_ok s /\ spec_invariants s)
    by (intros s Hs; split; [exact Hs | apply heap_ok_spec_invariants; exact Hs]).
  split; [|split; [|split; [|split]]].
  - intros it realloc_ok Hcond.
    destruct (enqueue_total self it realloc_ok TP OK Hcond) as (r & self' & Hrun).
    exists r, self'. split; [exact Hrun|]. apply Both.
    apply (enqueue_Done_ok _ _ _ _ _ TP OK) in Hrun; [apply Hrun|].
    destruct Hcond as [Hroom|[_ Hsmall]]; [left | right]; assumption.
  - destruct (Z.eq_dec (length self) 0) as [Hz|Hnz].
    + exists NULL, self. split; [apply dequeue_empty; exact Hz | apply Both; exact OK].
    + pose proof (rep_length self (proj1 OK)) as HL.
      destruct (dequeue_correct self TP OK ltac:(lia)) as (self' & Hrun & OK' & _).
      exists (key self 0), self'. split; [exact Hrun | apply Both; exact OK'].
  - intros node n Hn Hi.
    destruct (update_valid self node n TP OK Hn Hi) as (self' & Hrun & OK').
    exists self'. split; [exact Hrun | apply Both; exact OK'].
  - intros node [->|(n & Hn & Hpos)].
    + exists ISLBH_ERROR_NULL_NODE, self. split; [apply remove_null | apply Both; exact OK].
    + destruct (Z_le_gt_dec (length self) (index n)) as [Hout|Hin].
      * exists ISLBH_ERROR_NOT_EXIST, self.
        split; [eapply remove_not_exist; [exact Hn | left; exact Hout]
               | apply Both; exact OK].
      * destruct (same_slot (index n) node) eqn:Hslot.
        { destruct (remove_ok self node n TP OK Hn ltac:(lia) Hslot)
            as (self' & Hrun & OK').
          exists ISLBH_ERROR_OK, self'. split; [exact Hrun | apply Both; exact OK']. }
        { exists ISLBH_ERROR_NOT_EXIST, self.
          split; [eapply remove_not_exist; [exact Hn | right; exact Hslot]
                 | apply Both; exact OK]. }
  - intros items itemsize count want_nodes realloc_ok Hcount Hcap Hsmall.
    destruct (batchenq_total self items itemsize count want_nodes realloc_ok
                TP (proj1 OK) Hcount Hcap Hsmall) as ([[e self'] copied] & Hrun).
    exists e, self', copied. split; [exact Hrun|]. apply Both.
    exact (batchenq_Done_ok _ _ _ _ _ _ _ _ _ TP OK Hcount Hsmall Hrun).
Qed.

Lemma operations_preserve_invariants_witness :
  (exists r self', islbh_enqueue sample_heap 20 true = Done (r, self')
                   /\ heap_ok self' /\ spec_invariants self')
  /\ (exists it self', islbh_dequeue sample_heap = Done (it, self')
                       /\ heap_ok self' /\ spec_invariants self')
  /\ (exists self', islbh_update sample_heap (NodeAt 1) = Done self'
                    /\ heap_ok self' /\ spec_invariants self')
  /\ (exists e self', islbh_remove sample_heap (NodeAt 0) = Done (e, self')
                      /\ heap_ok self' /\ spec_invariants self')
  /\ (exists e self' copied,
        islbh_batchenq sample_heap 100 8 5 true true = Done (e, self', copied)
        /\ heap_ok self' /\ spec_invariants self').
Proof.
  destruct (operations_preserve_invariants sample_heap
              by_address_preorder sample_heap_ok)
    as (Henq & Hdeq & Hupd & Hrem & Hbat).
  split; [|split; [exact Hdeq|split; [|split]]].
  - apply (Henq 20 true). left. simpl. lia.
  - apply (Hupd (NodeAt 1) (mk_node 50 1)); [reflexivity | simpl; lia].
  - apply (Hrem (NodeAt 0)). right. exists (mk_node 10 0).
    split; [reflexivity | simpl; lia].
  - apply (Hbat 100 8 5 true true);
      [lia | left; simpl; lia
       | simpl; rewrite SIZE_MOD_val; unfold sizeof_islbh_node; lia].
Defined.

(** Three calls on valid heaps that leave no valid heap.  On a heap of
    capacity 0, [islbh_enqueue] writes outside the array when its
    reallocation (of 0 slots) is granted, and the capacity loop of
    [islbh_batchenq] does not end.  On a heap of three items in four slots,
    a batch of [2^60 - 3] items asks for [2^60] slots, [2^64] bytes, which is
    0 in [size_t]: the refused reallocation has freed the array, and the
    call returns with the three active slots unreadable. *)
Lemma operations_preserve_invariants_counterexample :
  total_preorder (cmp zero_heap) /\ heap_ok zero_heap
  /\ islbh_enqueue zero_heap 7 true = Fault
  /\ islbh_batchenq zero_heap 100 8 1 false true = OutOfFuel
  /\ total_preorder (cmp sample_heap) /\ heap_ok sample_heap
  /\ (exists self',
        islbh_batchenq sample_heap 100 8 1152921504606846973 false false
        = Done (ISLBH_ERROR_BAD_ALLOC, self', None)
        /\ length self' = 3
        /\ load self' 0 = Fault).
Proof.
  split; [exact by_address_preorder|].
  split; [apply check_heap_ok; vm_compute; reflexivity|].
  split; [vm_compute; reflexivity|].
  split; [vm_compute; reflexivity|].
  split; [exact by_address_preorder|].
  split; [exact sample_heap_ok|].
  exists (set_nodes sample_heap []).
  split; [vm_compute; reflexivity|]. split; reflexivity.
Qed.

(** ** Growth on enqueue *)

(** C3. [islbh_enqueue] on a full array asks for [allocated * 2] slots.  On
    a heap created with capacity 0 that is 0 slots again, where the claim
    says [max(1, capacity * 2)]: the call returns [NULL] if the reallocation
    fails, and writes the node outside the (empty) array if it succeeds; in
    neither case is the item added or the capacity grown. *)
Theorem enqueue_on_zero_capacity (c : islbh_cmp) (it : ptr) (realloc_ok : bool) :
  exists h,
    islbh_create 0 c true true = Some h
    /\ allocated h = 0
    /\ snd (islbh__grow h (wrap (allocated h * 2)) true) = h
    /\ islbh_enqueue h it realloc_ok
       = if realloc_ok then Fault else Done (NullNode, h).
Proof.
  eexists. split; [reflexivity|]. split; [reflexivity|]. split; [reflexivity|].
  destruct realloc_ok; reflexivity.
Qed.

(** ** Empty heaps *)

(** C4. On a heap with [length == 0], [islbh_dequeue] returns [NULL] and
    leaves the heap as it is, but [islbh_peek] returns [nodes[0].item]
    without looking at [length]: on a new heap it reads a slot that was
    never written (outside the array, when the capacity is 0), and on a
    heap that has been emptied it returns the item that was dequeued last,
    not an empty indicator. *)
Theorem peek_on_empty_heap :
  (exists h, islbh_create 0 by_address true true = Some h
             /\ length h = 0 /\ nodes h = []
             /\ islbh_dequeue h = Done (NULL, h)
             /\ islbh_peek h = Fault)
  /\ (exists h h1, islbh_create 1 by_address true true = Some h
             /\ islbh_peek h = Fault
             /\ islbh_enqueue h 7 true = Done (NodeAt 0, h1)
             /\ islbh_dequeue h1 = Done (7, drained_heap))
  /\ length drained_heap = 0
  /\ islbh_dequeue drained_heap = Done (NULL, drained_heap)
  /\ islbh_peek drained_heap = Done 7.
Proof.
  split; [|split].
  - eexists. split; [reflexivity|]. repeat split.
  - eexists. eexists. split; [reflexivity|]. split; [reflexivity|].
    split; reflexivity.
  - repeat split.
Qed.

(** ** The steps of the conditional sift-down *)

(** On a tie the code swaps, where the specification stops. *)
Lemma siftdown_swaps_on_tie :
  by_tens (key tied_heap 0) (key tied_heap 1) = 0
  /\ siftdown_as_specified 2 tied_heap 0 = Done tied_heap
  /\ islbh__siftdown tied_heap 0
     = Done (mk_heap 2 2 by_tens [Some (mk_node 51 0); Some (mk_node 50 1)]).
Proof. repeat split. Qed.

(** C5 (amended). In [islbh__siftdown], at every step the higher-priority
    child is picked (the left one, unless a right child exists and compares
    strictly before the left one); the descent stops when there is no child
    or when the current slot compares strictly before that child; when the
    child compares before the slot or ties with it, the two are swapped and
    the descent continues from the child.  [islbh__siftdown] ends, in the
    one array that these steps lead to. *)
Theorem siftdown_steps (self : islbh_binary_heap) (i : Z) :
  heap_rep self -> 0 <= i < length self ->
  exists self',
    islbh__siftdown self i = Done self'
    /\ sift_down self i self'
    /\ (forall s, sift_down self i s -> s = self').
Proof.
  intros R Hi.
  destruct (siftdown_loop_steps (Z.to_nat (length self)) self i R Hi ltac:(lia))
    as (self' & Hrun & Hrel).
  exists self'. split; [exact Hrun|]. split; [exact Hrel|].
  intros s Hs. eapply sift_down_deterministic; eassumption.
Qed.

Lemma siftdown_steps_witness :
  exists self',
    islbh__siftdown tied_heap 0 = Done self'
    /\ sift_down tied_heap 0 self'
    /\ (forall s, sift_down tied_heap 0 s -> s = self').
Proof.
  apply (siftdown_steps tied_heap 0).
  - apply tied_heap_ok.
  - simpl. lia.
Defined.

(** ** The two sift-downs *)

(** On a state that is not heap-ordered below the root, the conditional
    sift-down leaves the array as it is and the sift-down of
    [islbh_dequeue] does not. *)
Lemma siftdown_floyd_differs :
  islbh__siftdown unordered_heap 0 = Done unordered_heap
  /\ islbh__siftdown_floyd unordered_heap 0
     = Done (mk_heap 4 4 by_address
               [Some (mk_node 50 0); Some (mk_node 5 1);
                Some (mk_node 60 2); Some (mk_node 10 3)]).
Proof. split; reflexivity. Qed.

(** C6 (amended). Let the comparator be a total preorder and the heap
    record every active position.  If every active slot whose parent lies
    after [index] is in heap order with its parent (only the slot at
    [index] may be out of order with its children), and [index] is the
    root or its slot is not strictly before its parent, then the sift-down
    of [islbh_dequeue] (descend to a leaf, then sift up) and the conditional
    sift-down from [index] both end, in the same array of (item, position)
    slots. *)
Theorem siftdown_floyd_equivalent (self : islbh_binary_heap) (index : Z) :
  total_preorder (cmp self) -> heap_rep self ->
  0 <= index < length self ->
  ordered_from (index + 1) self -> up_ok 0 self index ->
  exists self',
    islbh__siftdown self index = Done self'
    /\ islbh__siftdown_floyd self index = Done self'.
Proof.
  intros TP R Hi Hord Hup.
  destruct (siftdown_floyd_agree (Z.to_nat (length self)) self index TP R Hi
              ltac:(lia) Hord Hup)
    as (self' & leaf & s1 & j & Hdown & Hdesc & Hup').
  exists self'. split; [exact Hdown|].
  unfold islbh__siftdown_floyd. rewrite Hdesc. simpl. rewrite Hup'. reflexivity.
Qed.

Lemma siftdown_floyd_equivalent_witness :
  exists self',
    islbh__siftdown displaced_heap 0 = Done self'
    /\ islbh__siftdown_floyd displaced_heap 0 = Done self'.
Proof.
  apply (siftdown_floyd_equivalent displaced_heap 0).
  - exact by_address_preorder.
  - apply check_rep_sound. vm_compute. reflexivity.
  - simpl. lia.
  - apply check_ordered_from_sound. vm_compute. reflexivity.
  - intros H. lia.
Defined.

(** ** Batch enqueue against sequential enqueue *)

(** C7. Let the comparator be a total preorder and the heap valid.
    Whenever one [islbh_batchenq] call inserts the [count] items of an
    array, and [count] [islbh_enqueue] calls insert the same items in any
    order, dequeuing either heap until it is empty ends, and the two
    dequeued sequences are sorted, hold the same items, and agree position
    by position up to ties.  Both insertions do complete when every
    reallocation succeeds, the capacity is not zero and the sizes are small
    enough for the doublings to be representable. *)
Theorem batch_equivalent_to_sequential
    (self : islbh_binary_heap) (items : ptr) (itemsize count : Z)
    (want_nodes : bool) (order : list ptr) :
  total_preorder (cmp self) -> heap_ok self -> 0 <= count ->
  order ≡ₚ batch_items items itemsize count ->
  (forall realloc_ok hb copied hs,
      islbh_batchenq self items itemsize count want_nodes realloc_ok
      = Done (ISLBH_ERROR_OK, hb, copied) ->
      enqueue_all self ((fun it => (it, true)) <$> order) = Done hs ->
      same_drain (cmp self) hb hs)
  /\ (0 < allocated self ->
      allocated self * 2 * sizeof_islbh_node <= SIZE_MOD ->
      (length self + count) * 4 * sizeof_islbh_node <= SIZE_MOD ->
      exists hb copied hs,
        islbh_batchenq self items itemsize count want_nodes true
        = Done (ISLBH_ERROR_OK, hb, copied)
        /\ enqueue_all self ((fun it => (it, true)) <$> order) = Done hs).
Proof.
  intros TP OK Hcount Horder.
  pose proof (rep_length self (proj1 OK)) as HL.
  split.
  - intros realloc_ok hb copied hs Hbatch Hseq.
    destruct (batchenq_Done _ _ _ _ _ _ _ _ _ TP (proj1 OK) Hcount Hbatch)
      as [(Hbad & _)|(_ & OKb & _ & Hcb & Hpb)]; [discriminate|].
    destruct (dequeue_all_correct hb ltac:(rewrite Hcb; exact TP) OKb)
      as (out_b & end_b & Hdrain_b & Hend_b & _ & _ & _ & Hout_b & Hsorted_b).
    rewrite Hcb in Hsorted_b.
    destruct (enqueue_all_granted_Done _ _ _ TP OK Hseq) as (OKs & Hcs).
    pose proof (enqueue_all_items order self hs TP OK Hseq) as Hps.
    destruct (dequeue_all_correct hs ltac:(rewrite Hcs; exact TP) OKs)
      as (out_s & end_s & Hdrain_s & Hend_s & _ & _ & _ & Hout_s & Hsorted_s).
    rewrite Hcs in Hsorted_s.
    assert (Hperm : out_b ≡ₚ out_s).
    { rewrite Hout_b, Hout_s, Hpb, Hps, Horder. reflexivity. }
    exists out_b, end_b, out_s, end_s.
    split; [exact Hdrain_b|]. split; [exact Hdrain_s|].
    split; [exact Hend_b|]. split; [exact Hend_s|].
    split; [exact Hperm|]. split; [exact Hsorted_b|]. split; [exact Hsorted_s|].
    apply sorted_perm_pointwise; assumption.
  - intros Hpos Hcap Hsmall. unfold sizeof_islbh_node in Hcap, Hsmall.
    destruct (batchenq_total self items itemsize count want_nodes true
                TP (proj1 OK) Hcount)
      as ([[e hb] copied] & Hbatch);
      [left; lia | unfold sizeof_islbh_node; lia |].
    destruct (batchenq_Done _ _ _ _ _ _ _ _ _ TP (proj1 OK) Hcount Hbatch)
      as [(-> & _)|(-> & _)].
    { exfalso. eapply batchenq_granted_not_bad_alloc. exact Hbatch. }
    assert (Hn : Z.of_nat (List.length ((fun it => (it, true)) <$> order)) = count).
    { rewrite length_fmap, (Permutation_length Horder).
      apply batch_items_length. exact Hcount. }
    destruct (enqueue_all_total ((fun it => (it, true)) <$> order) self TP OK Hpos)
      as (hs & Hseq); [lia | lia |].
    exists hb, copied, hs. split; assumption.
Qed.

Lemma batch_equivalent_to_sequential_witness :
  exists hb copied hs,
    islbh_batchenq sample_heap 100 8 5 true true
    = Done (ISLBH_ERROR_OK, hb, copied)
    /\ enqueue_all sample_heap
         ((fun it => (it, true)) <$> rev (batch_items 100 8 5)) = Done hs
    /\ same_drain by_address hb hs.
Proof.
  destruct (batch_equivalent_to_sequential sample_heap 100 8 5 true
              (rev (batch_items 100 8 5))
              by_address_preorder sample_heap_ok ltac:(lia)
              (Permutation_sym (Permutation_rev _)))
    as [Hsame Hrun].
  destruct Hrun as (hb & copied & hs & Hbatch & Hseq);
    [simpl; lia
    | simpl; rewrite SIZE_MOD_val; unfold sizeof_islbh_node; lia
    | simpl; rewrite SIZE_MOD_val; unfold sizeof_islbh_node; lia |].
  exists hb, copied, hs. split; [exact Hbatch|]. split; [exact Hseq|].
  apply (Hsame true hb copied hs Hbatch Hseq).
Defined.

(** ** The results of remove *)

(** C8. [islbh_remove] returns [ISLBH_ERROR_NULL_NODE] exactly when the node
    pointer is null; [ISLBH_ERROR_NOT_EXIST] exactly when the position
    recorded in the node is at or past [length], or the slot at that
    position is not the node pointed to; and [ISLBH_ERROR_OK] otherwise.
    The pointer is null or points to a node that can be read, and the
    position it records is a [size_t]. *)
Theorem remove_result (self : islbh_binary_heap) (node : node_ptr) :
  total_preorder (cmp self) -> heap_ok self ->
  (node = NullNode \/ exists n, deref self node = Done n /\ 0 <= index n) ->
  exists e self',
    islbh_remove self node = Done (e, self')
    /\ (e = ISLBH_ERROR_NULL_NODE <-> node = NullNode)
    /\ (e = ISLBH_ERROR_NOT_EXIST <->
        exists n, deref self node = Done n
                  /\ (length self <= index n \/ same_slot (index n) node = false))
    /\ (e = ISLBH_ERROR_OK <->
        exists n, deref self node = Done n
                  /\ index n < length self /\ same_slot (index n) node = true).
Proof.
  intros TP OK [->|(n & Hn & Hpos)].
  - exists ISLBH_ERROR_NULL_NODE, self. split; [apply remove_null|].
    split; [tauto|]. split; (split; [discriminate | intros (n & Hn & _); discriminate]).
  - assert (Hnn : node <> NullNode) by (intros ->; discriminate).
    destruct (Z_le_gt_dec (length self) (index n)) as [Hout|Hin].
    + exists ISLBH_ERROR_NOT_EXIST, self.
      split; [eapply remove_not_exist; [exact Hn | left; exact Hout]|].
      split; [split; [discriminate | tauto]|].
      split; [split; [intros _; exists n; split; [exact Hn | left; lia] | reflexivity]|].
      split; [discriminate|].
      intros (m & Hm & Hlt & _). rewrite Hn in Hm. inversion Hm; subst. lia.
    + destruct (same_slot (index n) node) eqn:Hslot.
      * destruct (remove_ok self node n TP OK Hn ltac:(lia) Hslot)
          as (self' & Hrun & _).
        exists ISLBH_ERROR_OK, self'. split; [exact Hrun|].
        split; [split; [discriminate | tauto]|].
        split.
        { split; [discriminate|]. intros (m & Hm & Hor).
          rewrite Hn in Hm. inversion Hm; subst m.
          destruct Hor; [lia | congruence]. }
        { split; [|reflexivity]. intros _. exists n.
          split; [exact Hn|]. split; [lia | exact Hslot]. }
      * exists ISLBH_ERROR_NOT_EXIST, self.
        split; [eapply remove_not_exist; [exact Hn | right; exact Hslot]|].
        split; [split; [discriminate | tauto]|].
        split; [split; [intros _; exists n; split; [exact Hn | right; exact Hslot]
                       | reflexivity]|].
        split; [discriminate|].
        intros (m & Hm & _ & Hs). rewrite Hn in Hm. inversion Hm; subst. congruence.
Qed.

Lemma remove_result_witness :
  exists e self',
    islbh_remove sample_heap (NodeAt 1) = Done (e, self')
    /\ (e = ISLBH_ERROR_NULL_NODE <-> NodeAt 1 = NullNode)
    /\ (e = ISLBH_ERROR_NOT_EXIST <->
        exists n, deref sample_heap (NodeAt 1) = Done n
                  /\ (length sample_heap <= index n
                      \/ same_slot (index n) (NodeAt 1) = false))
    /\ (e = ISLBH_ERROR_OK <->
        exists n, deref sample_heap (NodeAt 1) = Done n
                  /\ index n < length sample_heap
                  /\ same_slot (index n) (NodeAt 1) = true).
Proof.
  apply (remove_result sample_heap (NodeAt 1)).
  - exact by_address_preorder.
  - exact sample_heap_ok.
  - right. exists (mk_node 50 1). split; [reflexivity | simpl; lia].
Defined.

(** ** Error returns *)

(** C9. An error return leaves the length, the capacity and the comparator
    as they were before the call, and the array too, with one exception.
    When [islbh_remove] returns [ISLBH_ERROR_NULL_NODE] or
    [ISLBH_ERROR_NOT_EXIST] the heap is exactly as it was.  When
    [islbh_enqueue] returns [NULL], or [islbh_batchenq] returns
    [ISLBH_ERROR_BAD_ALLOC], the heap is exactly as it was if the refused
    reallocation was a request of at least one byte; if it was a request of
    0 bytes (the size of the new array is a multiple of [2^64]), the array
    has been freed and no slot of it can be read any more. *)
Theorem error_returns_are_atomic (self : islbh_binary_heap) :
  (forall it realloc_ok self',
      islbh_enqueue self it realloc_ok = Done (NullNode, self') ->
      realloc_ok = false
      /\ length self' = length self /\ allocated self' = allocated self
      /\ cmp self' = cmp self
      /\ (wrap (sizeof_islbh_node * wrap (allocated self * 2)) <> 0 -> self' = self)
      /\ (wrap (sizeof_islbh_node * wrap (allocated self * 2)) = 0 ->
          forall i, load self' i = Fault))
  /\ (forall items itemsize count want_nodes realloc_ok self' copied,
        islbh_batchenq self items itemsize count want_nodes realloc_ok
        = Done (ISLBH_ERROR_BAD_ALLOC, self', copied) ->
        realloc_ok = false /\ copied = None
        /\ length self' = length self /\ allocated self' = allocated self
        /\ cmp self' = cmp self
        /\ exists allocated',
            batchenq_capacity capacity_fuel (allocated self)
              (wrap (length self + count)) = Done allocated'
            /\ (wrap (sizeof_islbh_node * allocated') <> 0 -> self' = self)
            /\ (wrap (sizeof_islbh_node * allocated') = 0 ->
                forall i, load self' i = Fault))
  /\ (forall node self',
        islbh_remove self node = Done (ISLBH_ERROR_NULL_NODE, self') -> self' = self)
  /\ (forall node self',
        islbh_remove self node = Done (ISLBH_ERROR_NOT_EXIST, self') -> self' = self).
Proof.
  split; [|split; [|split]].
  - intros it realloc_ok self'. rewrite enqueue_unfold.
    destruct (allocated self <=? length self).
    + destruct realloc_ok.
      * intros H. exfalso. eapply enqueue_tail_not_null. exact H.
      * intros H.
        assert (Hs : self' = snd (islbh__grow self (wrap (allocated self * 2)) false))
          by (inversion H; reflexivity).
        subst self'. clear H.
        destruct (grow_refused_fields self (wrap (allocated self * 2)))
          as (Hl & Ha & Hc).
        split; [reflexivity|]. split; [exact Hl|]. split; [exact Ha|].
        split; [exact Hc|]. split.
        -- intros Hne. apply grow_refused_same. exact Hne.
        -- intros Hz i. rewrite grow_refused_freed by exact Hz.
           reflexivity.
    + intros H. exfalso. eapply enqueue_tail_not_null. exact H.
  - intros items itemsize count want_nodes realloc_ok self' copied.
    rewrite batchenq_unfold. intros H.
    apply bind_Done_inv in H. destruct H as (a' & Ecap & H).
    destruct (allocated self <? a').
    + destruct realloc_ok.
      * exfalso. eapply batchenq_tail_not_bad_alloc. exact H.
      * assert (Hs : self' = snd (islbh__grow self a' false) /\ copied = None)
          by (inversion H; split; reflexivity).
        destruct Hs as [-> ->]. clear H.
        destruct (grow_refused_fields self a') as (Hl & Ha & Hc).
        split; [reflexivity|]. split; [reflexivity|].
        split; [exact Hl|]. split; [exact Ha|]. split; [exact Hc|].
        exists a'. split; [exact Ecap|]. split.
        -- intros Hne. apply grow_refused_same. exact Hne.
        -- intros Hz i. rewrite grow_refused_freed by exact Hz.
           reflexivity.
    + exfalso. eapply batchenq_tail_not_bad_alloc. exact H.
  - intros node self'. unfold islbh_remove. destruct node as [|i|n].
    + intros H. inversion H. reflexivity.
    + intros H. apply bind_Done_inv in H. destruct H as (n & _ & H).
      destruct ((length self <=? index n) || negb (same_slot (index n) (NodeAt i))).
      * discriminate.
      * apply bind_Done_inv in H. destruct H as (s1 & _ & H).
        apply bind_Done_inv in H. destruct H as (s2 & _ & H). discriminate.
    + intros H. apply bind_Done_inv in H. destruct H as (m & _ & H).
      destruct ((length self <=? index m) || negb (same_slot (index m) (Detached n))).
      * discriminate.
      * apply bind_Done_inv in H. destruct H as (s1 & _ & H).
        apply bind_Done_inv in H. destruct H as (s2 & _ & H). discriminate.
  - intros node self'. unfold islbh_remove. destruct node as [|i|n].
    + discriminate.
    + intros H. apply bind_Done_inv in H. destruct H as (n & _ & H).
      destruct ((length self <=? index n) || negb (same_slot (index n) (NodeAt i))).
      * inversion H. reflexivity.
      * apply bind_Done_inv in H. destruct H as (s1 & _ & H).
        apply bind_Done_inv in H. destruct H as (s2 & _ & H). discriminate.
    + intros H. apply bind_Done_inv in H. destruct H as (m & _ & H).
      destruct ((length self <=? index m) || negb (same_slot (index m) (Detached n))).
      * inversion H. reflexivity.
      * apply bind_Done_inv in H. destruct H as (s1 & _ & H).
        apply bind_Done_inv in H. destruct H as (s2 & _ & H). discriminate.
Qed.

(** A batch of [2^60 - 3] items for a heap of three items in four slots
    needs [2^60] slots, a request of [2^64] bytes: 0 in [size_t].  The
    reallocation returns [NULL] and [islbh_batchenq] returns
    [ISLBH_ERROR_BAD_ALLOC], but the array has been freed: the root, which
    could be read before the call, cannot be read after it. *)
Lemma error_returns_are_atomic_counterexample :
  heap_ok sample_heap
  /\ batchenq_capacity capacity_fuel (allocated sample_heap)
       (wrap (length sample_heap + 1152921504606846973))
     = Done 1152921504606846976
  /\ wrap (sizeof_islbh_node * 1152921504606846976) = 0
  /\ islbh_peek sample_heap = Done 10
  /\ exists self',
       islbh_batchenq sample_heap 100 8 1152921504606846973 false false
       = Done (ISLBH_ERROR_BAD_ALLOC, self', None)
       /\ length self' = length sample_heap
       /\ islbh_peek self' = Fault.
Proof.
  split; [exact sample_heap_ok|].
  split; [vm_compute; reflexivity|].
  split; [vm_compute; reflexivity|].
  split; [reflexivity|].
  exists (set_nodes sample_heap []).
  split; [vm_compute; reflexivity|]. split; reflexivity.
Qed.

(** ** The capacity computed by batch enqueue *)

(** A heap of capacity 1 and a count above half the range of [size_t]: the
    loop doubles 1 up to [2^63], which is still too small, then to
    [2^64 mod 2^64 = 0], and stays there. *)
Lemma batchenq_capacity_overflow :
  batchenq_capacity capacity_fuel 1 (wrap (0 + 9223372036854775809)) = OutOfFuel
  /\ (forall fuel,
        batchenq_capacity fuel 1 (wrap (0 + 9223372036854775809)) = OutOfFuel)
  /\ islbh_batchenq (mk_heap 0 1 by_address [None]) 0 0 9223372036854775809 false true
     = OutOfFuel.
Proof.
  assert (H : batchenq_capacity capacity_fuel 1 (wrap (0 + 9223372036854775809))
              = OutOfFuel) by (vm_compute; reflexivity).
  split; [exact H|]. split.
  - apply batchenq_capacity_fuel; [rewrite SIZE_MOD_val; lia | exact H].
  - vm_compute. reflexivity.
Qed.

(** C10 (amended). Let the heap have [length <= allocated].  If the capacity
    is at least 1 and some [allocated * 2^K] that is at least
    [length + count] is representable in [size_t] (as it is whenever
    [length + count] is at most [2^63]), the capacity loop of
    [islbh_batchenq] ends, and returns the smallest [allocated * 2^k] that
    is at least [length + count]; the same when [count] is 0.  If the
    capacity is 0 and [count >= 1] the loop never ends, whatever the fuel. *)
Theorem batchenq_capacity_loop (self : islbh_binary_heap) (count : Z) :
  0 <= length self <= allocated self -> allocated self < SIZE_MOD ->
  0 <= count < SIZE_MOD ->
  (1 <= allocated self ->
   (exists K : nat,
       length self + count <= allocated self * 2 ^ Z.of_nat K < SIZE_MOD)
   \/ 2 * (length self + count) <= SIZE_MOD ->
   exists k : nat,
     (forall fuel, (capacity_fuel <= fuel)%nat ->
        batchenq_capacity fuel (allocated self) (wrap (length self + count))
        = Done (allocated self * 2 ^ Z.of_nat k))
     /\ length self + count <= allocated self * 2 ^ Z.of_nat k
     /\ (forall j : nat,
           length self + count <= allocated self * 2 ^ Z.of_nat j -> (k <= j)%nat))
  /\ (count = 0 ->
      forall fuel,
        batchenq_capacity fuel (allocated self) (wrap (length self + count))
        = Done (allocated self))
  /\ (allocated self = 0 -> 1 <= count ->
      forall fuel,
        batchenq_capacity fuel (allocated self) (wrap (length self + count))
        = OutOfFuel).
Proof.
  intros Hlen Hcap Hcount. split; [|split].
  - intros Hpos [(K & HK & HKrep)|Hsmall].
    + assert (Hpow : 1 <= 2 ^ Z.of_nat K) by (apply Z.pow_le_mono_r with (b := 0); lia).
      rewrite wrap_small by nia.
      pose proof (representable_rounds _ K Hpos HKrep) as HKfuel.
      destruct (batchenq_capacity_reaches K capacity_fuel (allocated self)
                  (length self + count)) as (k & Hk & Hrun & Hle & Hmin);
        try lia.
      { unfold capacity_fuel. lia. }
      exists k. split; [|split; [exact Hle|]].
      * intros fuel Hfuel. eapply batchenq_capacity_more; eassumption.
      * intros j Hj. destruct (Nat.le_gt_cases k j) as [?|Hlt]; [assumption|].
        specialize (Hmin j Hlt). lia.
    + rewrite wrap_small by lia.
      destruct (batchenq_capacity_doubles capacity_fuel (allocated self)
                  (length self + count)) as (k & Hk & Hrun & Hle & Hmin); try lia.
      { change (Z.of_nat capacity_fuel) with 65.
        assert (allocated self * 2 ^ 63 <= allocated self * 2 ^ 65)
          by (apply Z.mul_le_mono_nonneg_l; lia).
        rewrite SIZE_MOD_val in *. lia. }
      exists k. split; [|split; [exact Hle|]].
      * intros fuel Hfuel. eapply batchenq_capacity_more; eassumption.
      * intros j Hj. destruct (Nat.le_gt_cases k j) as [?|Hlt]; [assumption|].
        specialize (Hmin j Hlt). lia.
  - intros -> fuel. rewrite Z.add_0_r, wrap_small by lia.
    rewrite batchenq_capacity_eq.
    destruct (Z.ltb_spec (allocated self) (length self)); [lia | reflexivity].
  - intros Hzero Hone fuel. rewrite Hzero in *.
    assert (length self = 0) by lia.
    apply batchenq_capacity_fuel; [rewrite SIZE_MOD_val; lia|].
    apply batchenq_capacity_OutOfFuel; [rewrite SIZE_MOD_val; lia|].
    intros k Hk. rewrite Z.mul_0_l. unfold wrap at 1. rewrite Z.mod_0_l
      by (rewrite SIZE_MOD_val; lia).
    rewrite wrap_small by lia. lia.
Qed.

Lemma batchenq_capacity_loop_witness :
  exists k : nat,
    (forall fuel, (capacity_fuel <= fuel)%nat ->
       batchenq_capacity fuel (allocated sample_heap)
         (wrap (length sample_heap + 6))
       = Done (allocated sample_heap * 2 ^ Z.of_nat k))
    /\ length sample_heap + 6 <= allocated sample_heap * 2 ^ Z.of_nat k
    /\ (forall j : nat,
          length sample_heap + 6 <= allocated sample_heap * 2 ^ Z.of_nat j ->
          (k <= j)%nat).
Proof.
  refine (proj1 (batchenq_capacity_loop sample_heap 6 _ _ _) _ (or_introl _)).
  - simpl. lia.
  - simpl. rewrite SIZE_MOD_val. lia.
  - rewrite SIZE_MOD_val. lia.
  - simpl. lia.
  - exists 2%nat. simpl. rewrite SIZE_MOD_val. lia.
Defined.

(** * Further properties of the code *)

(** ** Creation *)

Lemma create_fields prealloc c h :
  islbh_create prealloc c true true = Some h ->
  length h = 0 /\ allocated h = prealloc /\ cmp h = c
  /\ Z.of_nat (List.length (nodes h))
     = wrap (prealloc * sizeof_islbh_node) / sizeof_islbh_node.
Proof.
  unfold islbh_create. intros H. inversion H; subst h; simpl.
  rewrite length_replicate.
  pose proof (wrap_range (prealloc * sizeof_islbh_node)).
  unfold sizeof_islbh_node in *. repeat split; lia.
Qed.

Lemma create_heap_ok prealloc c h :
  0 <= prealloc < SIZE_MOD ->
  islbh_create prealloc c true true = Some h ->
  (heap_ok h <-> prealloc * sizeof_islbh_node < SIZE_MOD).
Proof.
  intros Hp Hc. destruct (create_fields _ _ _ Hc) as (Hl & Ha & _ & Hn).
  pose proof (wrap_range (prealloc * sizeof_islbh_node)) as Hw.
  split.
  - intros [R _]. pose proof (rep_allocated h R) as HA.
    rewrite Ha, Hn in HA. unfold wrap, sizeof_islbh_node in *.
    rewrite SIZE_MOD_val in *. lia.
  - intros Hsmall. split.
    + constructor.
      * lia.
      * rewrite Ha, Hn, wrap_small by (unfold sizeof_islbh_node in *; lia).
        unfold sizeof_islbh_node. lia.
      * rewrite Hn. unfold sizeof_islbh_node in *. lia.
      * intros i Hi. lia.
    + intros i Hi. lia.
Qed.

(** [islbh_create] returns [NULL] exactly when one of its two allocations
    fails.  Otherwise the heap is empty, has the capacity and the comparator
    that were given, and satisfies the invariants exactly when
    [prealloc * sizeof(islbh_node)] does not wrap around: when it does, the
    capacity recorded is larger than the array that was requested. *)
Theorem create_gives_empty_heap
    (prealloc : Z) (c : islbh_cmp) (self_ok nodes_ok : bool) :
  0 <= prealloc < SIZE_MOD ->
  (islbh_create prealloc c self_ok nodes_ok = None <-> self_ok && nodes_ok = false)
  /\ (forall h, islbh_create prealloc c self_ok nodes_ok = Some h ->
        length h = 0 /\ allocated h = prealloc /\ cmp h = c
        /\ (heap_ok h <-> prealloc * sizeof_islbh_node < SIZE_MOD)).
Proof.
  intros Hp. split.
  - unfold islbh_create. destruct self_ok, nodes_ok; simpl; split;
      intros H; try discriminate; reflexivity.
  - intros h Hc. destruct self_ok, nodes_ok; try discriminate.
    destruct (create_fields _ _ _ Hc) as (Hl & Ha & Hcm & _).
    split; [exact Hl|]. split; [exact Ha|]. split; [exact Hcm|].
    apply (create_heap_ok prealloc c h Hp Hc).
Qed.

Lemma create_gives_empty_heap_witness :
  (islbh_create 4 by_address true true = None <-> true && true = false)
  /\ (forall h, islbh_create 4 by_address true true = Some h ->
        length h = 0 /\ allocated h = 4 /\ cmp h = by_address
        /\ (heap_ok h <-> 4 * sizeof_islbh_node < SIZE_MOD)).
Proof.
  apply (create_gives_empty_heap 4 by_address true true).
  rewrite SIZE_MOD_val. lia.
Defined.

(** ** Swap *)

Lemma rep_load_node self i :
  heap_rep self -> 0 <= i < length self ->
  load self i = Done (mk_node (key self i) i).
Proof.
  intros R Hi. destruct (rep_load self i R Hi) as (n & Hn & Hx & Hk).
  rewrite Hn, <- Hk. f_equal. destruct n; simpl in *; subst; reflexivity.
Qed.

Lemma swapped_comm self i j :
  0 <= i -> 0 <= j -> i <> j -> swapped self i j = swapped self j i.
Proof.
  intros Hi Hj Hne. unfold swapped. f_equal.
  apply list_insert_insert_ne. lia.
Qed.

Lemma swapped_same self i :
  heap_rep self -> 0 <= i < length self -> swapped self i i = self.
Proof.
  intros R Hi. unfold swapped. rewrite list_insert_insert_eq.
  pose proof (rep_load_node self i R Hi) as Hn. apply load_Done in Hn.
  rewrite (list_insert_id _ _ _ Hn). apply set_nodes_same.
Qed.

Lemma swap_twice self i j :
  heap_rep self -> 0 <= i < length self -> 0 <= j < length self ->
  swapped (swapped self i j) i j = self.
Proof.
  intros R Hi Hj. destruct (Z.eq_dec i j) as [->|Hne].
  - rewrite (swapped_same self j) by assumption. apply swapped_same; assumption.
  - rewrite (swapped_comm (swapped self i j) i j) by lia.
    apply swap_back; assumption.
Qed.

(** [islbh__swap] on two active slots of an array whose active slots record
    their positions exchanges the two items, leaves in each slot the
    position field of the slot, and touches no other slot.  The order of its
    two arguments does not matter, and swapping the same two slots again
    brings the array back. *)
Theorem swap_exchanges (self : islbh_binary_heap) (i j : Z) :
  heap_rep self -> 0 <= i < length self -> 0 <= j < length self ->
  exists self',
    islbh__swap self i j = Done self'
    /\ load self' i = Done (mk_node (key self j) i)
    /\ load self' j = Done (mk_node (key self i) j)
    /\ (forall k, 0 <= k -> k <> i -> k <> j -> load self' k = load self k)
    /\ heap_rep self'
    /\ islbh__swap self j i = Done self'
    /\ islbh__swap self' i j = Done self.
Proof.
  intros R Hi Hj.
  pose proof (rep_load_node self i R Hi) as Ha.
  pose proof (rep_load_node self j R Hj) as Hb.
  assert (Hi0 : 0 <= i) by lia. assert (Hj0 : 0 <= j) by lia.
  assert (R' : heap_rep (swapped self i j))
    by (eapply heap_rep_swapped; eassumption).
  destruct (swapped_fields self i j) as (Hl & _).
  exists (swapped self i j).
  split; [eapply swap_done; eassumption|].
  split.
  { rewrite (rep_load_node _ i R') by (rewrite Hl; lia).
    destruct (Z.eq_dec i j) as [->|Hne].
    - rewrite swapped_same by assumption. reflexivity.
    - erewrite key_swapped_l by eassumption. reflexivity. }
  split.
  { rewrite (rep_load_node _ j R') by (rewrite Hl; lia).
    erewrite key_swapped_r by eassumption. reflexivity. }
  split; [intros k Hk Hki Hkj; apply load_swapped_other; lia|].
  split; [exact R'|].
  split.
  { destruct (Z.eq_dec i j) as [->|Hne].
    - eapply swap_done; eassumption.
    - rewrite (swapped_comm self i j) by lia. eapply swap_done; eassumption. }
  { rewrite <- (swap_twice self i j R Hi Hj) at 2.
    eapply swap_done; try apply rep_load_node; try assumption; rewrite Hl; lia. }
Qed.

Lemma swap_exchanges_witness :
  exists self',
    islbh__swap sample_heap 0 2 = Done self'
    /\ load self' 0 = Done (mk_node (key sample_heap 2) 0)
    /\ load self' 2 = Done (mk_node (key sample_heap 0) 2)
    /\ (forall k, 0 <= k -> k <> 0 -> k <> 2 -> load self' k = load sample_heap k)
    /\ heap_rep self'
    /\ islbh__swap sample_heap 2 0 = Done self'
    /\ islbh__swap self' 0 2 = Done sample_heap.
Proof.
  apply (swap_exchanges sample_heap 0 2).
  - apply sample_heap_ok.
  - simpl. lia.
  - simpl. lia.
Defined.

(** ** Growth *)

(** [islbh__grow] reports a refused reallocation with
    [ISLBH_ERROR_BAD_ALLOC] and leaves the length, the capacity and the
    comparator as they were; it leaves the array as it was too, unless
    [sizeof(islbh_node) * newalloc] is 0 in [size_t]: that request has freed
    the array, of which no slot can be read any more.  When the
    reallocation succeeds it returns [ISLBH_ERROR_OK], records the new
    capacity and keeps the length and the comparator; if the new capacity
    is at least the length, the heap still fits its array exactly when
    [sizeof(islbh_node) * newalloc] does not wrap around, and then every
    active slot, the items and the heap order are as before. *)
Theorem grow_keeps_active_slots (self : islbh_binary_heap) (newalloc : Z) :
  heap_rep self -> length self <= newalloc < SIZE_MOD ->
  (exists self0,
      islbh__grow self newalloc false = (ISLBH_ERROR_BAD_ALLOC, self0)
      /\ length self0 = length self
      /\ allocated self0 = allocated self
      /\ cmp self0 = cmp self
      /\ (wrap (sizeof_islbh_node * newalloc) <> 0 -> self0 = self)
      /\ (wrap (sizeof_islbh_node * newalloc) = 0 ->
          forall i, load self0 i = Fault))
  /\ exists self',
       islbh__grow self newalloc true = (ISLBH_ERROR_OK, self')
       /\ allocated self' = newalloc
       /\ length self' = length self
       /\ cmp self' = cmp self
       /\ (heap_rep self' <-> newalloc * sizeof_islbh_node < SIZE_MOD)
       /\ (newalloc * sizeof_islbh_node < SIZE_MOD ->
           (forall i, 0 <= i < length self -> load self' i = load self i)
           /\ heap_items self' = heap_items self
           /\ (heap_order self -> heap_order self')).
Proof.
  intros R Hn. split.
  { exists (snd (islbh__grow self newalloc false)).
    destruct (grow_refused_fields self newalloc) as (Hl & Ha & Hc).
    split; [reflexivity|]. split; [exact Hl|]. split; [exact Ha|].
    split; [exact Hc|]. split.
    - intros Hne. apply grow_refused_same. exact Hne.
    - intros Hz i. rewrite grow_refused_freed by exact Hz. reflexivity. }
  eexists. split; [reflexivity|]. simpl.
  split; [reflexivity|]. split; [reflexivity|]. split; [reflexivity|].
  pose proof (wrap_range (sizeof_islbh_node * newalloc)) as Hw.
  pose proof (rep_length self R) as HL.
  assert (Hfit : newalloc * sizeof_islbh_node < SIZE_MOD ->
                 newalloc <= wrap (sizeof_islbh_node * newalloc) / sizeof_islbh_node).
  { intros Hsmall. rewrite wrap_small by (unfold sizeof_islbh_node in *; lia).
    unfold sizeof_islbh_node. lia. }
  split.
  - split.
    + intros R'. pose proof (rep_allocated _ R') as HA. simpl in HA.
      rewrite length_resize in HA.
      unfold wrap, sizeof_islbh_node in *. rewrite SIZE_MOD_val in *. lia.
    + intros Hsmall.
      apply (heap_rep_grown self newalloc R (proj1 Hn) (Hfit Hsmall)).
  - intros Hsmall.
    destruct (heap_rep_grown self newalloc R (proj1 Hn) (Hfit Hsmall))
      as (R' & Hit & Hl & _ & Hc & _ & Hk).
    simpl in R', Hit, Hl, Hc, Hk.
    split.
    { intros i Hi.
      rewrite (rep_load_node _ i R') by (simpl; lia).
      rewrite (rep_load_node self i R) by lia.
      rewrite Hk by lia. reflexivity. }
    split; [exact Hit|].
    intros Hord i Hi. simpl in Hi. unfold edge. simpl.
    rewrite !Hk by lia. apply Hord. exact Hi.
Qed.

Lemma grow_keeps_active_slots_witness :
  (exists self0,
      islbh__grow sample_heap 8 false = (ISLBH_ERROR_BAD_ALLOC, self0)
      /\ length self0 = length sample_heap
      /\ allocated self0 = allocated sample_heap
      /\ cmp self0 = cmp sample_heap
      /\ (wrap (sizeof_islbh_node * 8) <> 0 -> self0 = sample_heap)
      /\ (wrap (sizeof_islbh_node * 8) = 0 -> forall i, load self0 i = Fault))
  /\ exists self',
       islbh__grow sample_heap 8 true = (ISLBH_ERROR_OK, self')
       /\ allocated self' = 8
       /\ length self' = length sample_heap
       /\ cmp self' = cmp sample_heap
       /\ (heap_rep self' <-> 8 * sizeof_islbh_node < SIZE_MOD)
       /\ (8 * sizeof_islbh_node < SIZE_MOD ->
           (forall i, 0 <= i < length sample_heap ->
                      load self' i = load sample_heap i)
           /\ heap_items self' = heap_items sample_heap
           /\ (heap_order sample_heap -> heap_order self')).
Proof.
  apply (grow_keeps_active_slots sample_heap 8).
  - apply sample_heap_ok.
  - simpl. rewrite SIZE_MOD_val. lia.
Defined.

(** ** Where sift-up leaves the item *)

Lemma ancestor_lt k i : ancestor k i -> 0 <= k < i.
Proof. induction 1; lia. Qed.

Lemma load_eq_key self self' k :
  load self' k = load self k -> key self' k = key self k.
Proof.
  unfold load, key. intros H.
  destruct (nodes self' !! Z.to_nat k) as [[a|]|], (nodes self !! Z.to_nat k) as [[b|]|];
    try discriminate; try reflexivity.
  inversion H. reflexivity.
Qed.

Lemma siftup_loop_moves fuel : forall self i,
  heap_rep self -> 0 <= i < length self -> (Z.to_nat i <= fuel)%nat ->
  exists j self',
    siftup_loop fuel self i (parent_of i) = Done (j, self')
    /\ heap_rep self' /\ rearranged self self' /\ 0 <= j <= i
    /\ key self' j = key self i
    /\ (0 < j -> cmp self (key self' j) (key self' ((j - 1) / 2)) >= 0)
    /\ (forall k, 0 <= k -> k < j \/ i < k -> load self' k = load self k)
    /\ (j < i -> cmp self (key self i) (key self j) < 0)
    /\ (j = i \/ ancestor j i)
    /\ (forall k, ancestor k i -> j <= k -> cmp self (key self i) (key self k) < 0)
    /\ (forall k, k = i \/ ancestor k i -> j < k ->
                  key self' k = key self ((k - 1) / 2)).
Proof.
  assert (Stay : forall self i, heap_rep self -> 0 <= i ->
            (0 < i -> cmp self (key self i) (key self ((i - 1) / 2)) >= 0) ->
            exists j self', Done (i, self) = Done (j, self')
              /\ heap_rep self' /\ rearranged self self' /\ 0 <= j <= i
              /\ key self' j = key self i
              /\ (0 < j -> cmp self (key self' j) (key self' ((j - 1) / 2)) >= 0)
              /\ (forall k, 0 <= k -> k < j \/ i < k -> load self' k = load self k)
              /\ (j < i -> cmp self (key self i) (key self j) < 0)
              /\ (j = i \/ ancestor j i)
              /\ (forall k, ancestor k i -> j <= k ->
                            cmp self (key self i) (key self k) < 0)
              /\ (forall k, k = i \/ ancestor k i -> j < k ->
                            key self' k = key self ((k - 1) / 2))).
  { intros self i R Hi Hup. exists i, self.
    split; [reflexivity|]. split; [exact R|]. split; [apply rearranged_refl|].
    split; [lia|]. split; [reflexivity|]. split; [exact Hup|].
    split; [reflexivity|]. split; [lia|]. split; [left; reflexivity|].
    split.
    - intros k Hk Hle. apply ancestor_lt in Hk. lia.
    - intros k [->|Hk] Hlt; [lia|]. apply ancestor_lt in Hk. lia. }
  induction fuel as [|fuel IH]; intros self i R Hi Hfuel;
    rewrite siftup_loop_eq; pose proof (rep_bound self R) as RB;
    unfold sizeof_islbh_node in RB.
  - assert (i = 0) by lia. subst i. simpl.
    apply Stay; try assumption; lia.
  - destruct (Z.ltb_spec 0 i) as [Hpos|Hzero].
    2:{ apply Stay; try assumption; lia. }
    rewrite parent_of_eq by lia.
    destruct (rep_load self i R ltac:(lia)) as (a & Ha & _ & Ka).
    destruct (rep_load self ((i - 1) / 2) R ltac:(lia)) as (b & Hb & _ & Kb).
    rewrite Ha, Hb. simpl. rewrite Ka, Kb.
    destruct (Z.ltb_spec (cmp self (key self i) (key self ((i - 1) / 2))) 0) as [Hlt|Hge].
    + erewrite swap_done by (try eassumption; lia). simpl.
      destruct (swapped_fields self i ((i - 1) / 2)) as (Hl & Hal & Hc & Hn).
      destruct (IH (swapped self i ((i - 1) / 2)) ((i - 1) / 2))
        as (j & self' & Hrun & R' & Hre & Hj & Hkey & Hup' & Hsame & Hstrict
            & Hpath & Hpassed & Hdown).
      * eapply heap_rep_swapped; try eassumption; lia.
      * rewrite Hl. lia.
      * lia.
      * assert (Hkp : key (swapped self i ((i - 1) / 2)) ((i - 1) / 2) = key self i)
          by (eapply key_swapped_r; try eassumption; lia).
        assert (Hki : key (swapped self i ((i - 1) / 2)) i = key self ((i - 1) / 2))
          by (eapply key_swapped_l; try eassumption; lia).
        exists j, self'. split; [exact Hrun|].
        split; [exact R'|]. split.
        { eapply rearranged_trans; [|exact Hre].
          apply rearranged_swapped; [assumption | lia | lia]. }
        split; [lia|]. split.
        { rewrite Hkey. exact Hkp. }
        split.
        { rewrite Hc in Hup'. exact Hup'. }
        split.
        { intros k Hk Hout. rewrite Hsame by lia.
          apply load_swapped_other; lia. }
        split.
        { intros _. destruct (Z.eq_dec j ((i - 1) / 2)) as [->|Hne]; [exact Hlt|].
          specialize (Hstrict ltac:(lia)). rewrite Hc in Hstrict.
          rewrite Hkp in Hstrict.
          rewrite key_swapped_other in Hstrict by lia. exact Hstrict. }
        split.
        { right. destruct Hpath as [->|Hanc];
            [apply ancestor_parent | apply ancestor_up]; assumption. }
        split.
        { intros k Hk Hle. inversion Hk as [i0 Hi0 Hek Hei|k0 i0 Hi0 Hanc Hek Hei]; subst.
          - exact Hlt.
          - pose proof (ancestor_lt _ _ Hanc) as Hlt'.
            specialize (Hpassed k Hanc Hle). rewrite Hc, Hkp in Hpassed.
            rewrite key_swapped_other in Hpassed by lia. exact Hpassed. }
        { intros k Hk Hlt'.
          assert (Hcase : k = i \/ k = (i - 1) / 2 \/ ancestor k ((i - 1) / 2)).
          { destruct Hk as [->|Hk]; [left; reflexivity|]. right.
            inversion Hk; subst; [left; reflexivity | right; assumption]. }
          destruct Hcase as [->|Hcase].
          - rewrite (load_eq_key _ self' i (Hsame i ltac:(lia) ltac:(lia))).
            exact Hki.
          - assert (Hlow : 0 < k < i).
            { destruct Hcase as [->|Hanc]; [lia|].
              apply ancestor_lt in Hanc. lia. }
            assert (Hlow' : k <= (i - 1) / 2).
            { destruct Hcase as [->|Hanc]; [lia|].
              apply ancestor_lt in Hanc. lia. }
            rewrite (Hdown k) by (try assumption; destruct Hcase; auto).
            apply key_swapped_other; lia. }
    + apply Stay; try assumption; lia.
Qed.

Lemma siftup_moves self i :
  heap_rep self -> 0 <= i < length self ->
  exists j self',
    islbh__siftup self i = Done (j, self')
    /\ heap_rep self' /\ rearranged self self' /\ 0 <= j <= i
    /\ key self' j = key self i
    /\ (0 < j -> cmp self (key self' j) (key self' ((j - 1) / 2)) >= 0)
    /\ (forall k, 0 <= k -> k < j \/ i < k -> load self' k = load self k)
    /\ (j < i -> cmp self (key self i) (key self j) < 0)
    /\ (j = i \/ ancestor j i)
    /\ (forall k, ancestor k i -> j <= k -> cmp self (key self i) (key self k) < 0)
    /\ (forall k, k = i \/ ancestor k i -> j < k ->
                  key self' k = key self ((k - 1) / 2)).
Proof.
  intros. unfold islbh__siftup. apply siftup_loop_moves; auto.
Qed.

(** [islbh__siftup] on any array whose active slots record their positions
    (whatever their order): it returns the index [j <= index] where the item
    that was at [index] now is, [index] itself or one of its ancestors.  The
    item went past the item of every ancestor of [index] from [j] on, each
    of which it is strictly before and each of which is now one level down,
    at the slot of the path whose parent it was; the item is not strictly
    before the item now at the parent of [j], if [j] has one, and the slots
    before [j] and after [index] are as they were. *)
Theorem siftup_result (self : islbh_binary_heap) (i : Z) :
  heap_rep self -> 0 <= i < length self ->
  exists j self',
    islbh__siftup self i = Done (j, self')
    /\ 0 <= j <= i
    /\ (j = i \/ ancestor j i)
    /\ load self' j = Done (mk_node (key self i) j)
    /\ (0 < j -> cmp self (key self i) (key self' ((j - 1) / 2)) >= 0)
    /\ (j < i -> cmp self (key self i) (key self j) < 0)
    /\ (forall k, ancestor k i -> j <= k ->
                  cmp self (key self i) (key self k) < 0)
    /\ (forall k, k = i \/ ancestor k i -> j < k ->
                  load self' k = Done (mk_node (key self ((k - 1) / 2)) k))
    /\ (forall k, 0 <= k -> k < j \/ i < k -> load self' k = load self k)
    /\ heap_rep self' /\ rearranged self self'.
Proof.
  intros R Hi.
  destruct (siftup_moves self i R Hi)
    as (j & self' & Hrun & R' & Hre & Hj & Hkey & Hup & Hsame & Hstrict
        & Hpath & Hpassed & Hdown).
  exists j, self'. split; [exact Hrun|]. split; [exact Hj|].
  split; [exact Hpath|].
  split.
  { rewrite (rep_load_node self' j R') by (rewrite (proj1 Hre); lia).
    rewrite Hkey. reflexivity. }
  split; [rewrite <- Hkey; exact Hup|].
  split; [exact Hstrict|]. split; [exact Hpassed|].
  split.
  { intros k Hk Hlt.
    assert (Hki : 0 <= k <= i).
    { destruct Hk as [->|Hk]; [lia|]. apply ancestor_lt in Hk. lia. }
    rewrite (rep_load_node self' k R') by (rewrite (proj1 Hre); lia).
    rewrite (Hdown k Hk Hlt). reflexivity. }
  split; [exact Hsame|]. split; assumption.
Qed.

Lemma siftup_result_witness :
  exists j self',
    islbh__siftup unordered_heap 3 = Done (j, self')
    /\ 0 <= j <= 3
    /\ (j = 3 \/ ancestor j 3)
    /\ load self' j = Done (mk_node (key unordered_heap 3) j)
    /\ (0 < j ->
        cmp unordered_heap (key unordered_heap 3) (key self' ((j - 1) / 2)) >= 0)
    /\ (j < 3 ->
        cmp unordered_heap (key unordered_heap 3) (key unordered_heap j) < 0)
    /\ (forall k, ancestor k 3 -> j <= k ->
                  cmp unordered_heap (key unordered_heap 3) (key unordered_heap k) < 0)
    /\ (forall k, k = 3 \/ ancestor k 3 -> j < k ->
                  load self' k = Done (mk_node (key unordered_heap ((k - 1) / 2)) k))
    /\ (forall k, 0 <= k -> k < j \/ 3 < k ->
                  load self' k = load unordered_heap k)
    /\ heap_rep self' /\ rearranged unordered_heap self'.
Proof.
  apply (siftup_result unordered_heap 3).
  - apply check_rep_sound. vm_compute. reflexivity.
  - simpl. lia.
Defined.

(** ** The length of the sift loops *)

Lemma parent_of_le i : 0 < i -> 0 <= parent_of i <= (i - 1) / 2.
Proof.
  intros Hi. unfold parent_of, wrap. rewrite Z.shiftr_div_pow2 by lia.
  change (2 ^ 1) with 2. rewrite SIZE_MOD_val. lia.
Qed.

Lemma pow2_succ (n : nat) : 2 ^ (Z.of_nat (S n) + 1) = 2 * 2 ^ (Z.of_nat n + 1).
Proof.
  rewrite Nat2Z.inj_succ.
  replace (Z.succ (Z.of_nat n) + 1) with (Z.succ (Z.of_nat n + 1)) by lia.
  apply Z.pow_succ_r. lia.
Qed.

Lemma pow2_pos (n : nat) : 0 < 2 ^ (Z.of_nat n + 1).
Proof. apply Z.pow_pos_nonneg; lia. Qed.

(** Each swap of the sift-up loop halves [index + 1]: the result does not
    depend on the fuel once [index + 1 < 2 ^ (fuel + 1)]. *)
Lemma siftup_loop_within f : forall self i f',
  0 <= i -> i + 1 < 2 ^ (Z.of_nat f + 1) -> i + 1 < 2 ^ (Z.of_nat f' + 1) ->
  siftup_loop f self i (parent_of i) = siftup_loop f' self i (parent_of i).
Proof.
  induction f as [|f IH]; intros self i f' Hi Hf Hf'; rewrite !siftup_loop_eq.
  - change (2 ^ (Z.of_nat 0 + 1)) with 2 in Hf.
    destruct (Z.ltb_spec 0 i); [lia | reflexivity].
  - destruct (Z.ltb_spec 0 i) as [Hpos|]; [|reflexivity].
    destruct (load self i) as [a| |]; simpl; try reflexivity.
    destruct (load self (parent_of i)) as [b| |]; simpl; try reflexivity.
    destruct (cmp self (item a) (item b) <? 0); [|reflexivity].
    destruct f' as [|f'].
    { change (2 ^ (Z.of_nat 0 + 1)) with 2 in Hf'. lia. }
    destruct (islbh__swap self i (parent_of i)) as [s| |]; simpl; try reflexivity.
    pose proof (parent_of_le i Hpos).
    rewrite pow2_succ in Hf, Hf'.
    apply IH; lia.
Qed.

Lemma log2_fuel n : 0 < n -> n < 2 ^ (Z.of_nat (Z.to_nat (Z.log2 n)) + 1).
Proof.
  intros Hn. pose proof (Z.log2_nonneg n).
  rewrite Z2Nat.id by lia. pose proof (Z.log2_spec n Hn).
  replace (Z.log2 n + 1) with (Z.succ (Z.log2 n)) by lia. lia.
Qed.

Lemma linear_fuel n : 0 <= n -> n + 1 < 2 ^ (Z.of_nat (Z.to_nat n) + 1).
Proof.
  intros Hn. rewrite Z2Nat.id by lia.
  apply Z.pow_gt_lin_r; lia.
Qed.

Lemma siftup_within self i :
  0 <= i ->
  siftup_loop (Z.to_nat (Z.log2 (i + 1))) self i (parent_of i)
  = islbh__siftup self i.
Proof.
  intros Hi. unfold islbh__siftup.
  apply siftup_loop_within; [lia | apply log2_fuel; lia | apply linear_fuel; lia].
Qed.

(** Each round of the sift-down loop doubles [index + 1]. *)
Lemma siftdown_loop_within fuel : forall self i,
  heap_rep self -> 0 <= i < length self ->
  length self < (i + 1) * 2 ^ (Z.of_nat fuel + 1) ->
  exists self',
    siftdown_loop fuel self i (left_of i) (right_of (left_of i)) = Done self'
    /\ sift_down self i self'.
Proof.
  induction fuel as [|fuel IH]; intros self i R Hi Hfuel;
    rewrite siftdown_loop_eq; pose proof (rep_bound self R) as RB;
    unfold sizeof_islbh_node in RB; rewrite (left_of_eq i) by lia.
  - change (2 ^ (Z.of_nat 0 + 1)) with 2 in Hfuel.
    destruct (Z.ltb_spec (2 * i + 1) (length self)) as [Hl|Hl]; [lia|].
    exists self. split; [reflexivity|]. apply sift_down_leaf. lia.
  - destruct (Z.ltb_spec (2 * i + 1) (length self)) as [Hl|Hl].
    2:{ exists self. split; [reflexivity|]. apply sift_down_leaf. lia. }
    rewrite <- (left_of_eq i) by lia.
    rewrite higher_child_pick by (try assumption; lia). simpl.
    destruct (pick_child self i ltac:(lia) Hl) as [Hc Hcp].
    destruct (rep_load self i R ltac:(lia)) as (a & Ha & _ & Ka).
    destruct (rep_load self (pick self i) R ltac:(lia)) as (b & Hb & _ & Kb).
    rewrite Ha, Hb. simpl. rewrite Ka, Kb.
    destruct (Z.ltb_spec (cmp self (key self i) (key self (pick self i))) 0) as [Hlt|Hge].
    + exists self. split; [reflexivity|]. apply sift_down_stop; assumption.
    + erewrite swap_done by (try eassumption; lia). simpl.
      destruct (swapped_fields self i (pick self i)) as (Hlen & _).
      destruct (IH (swapped self i (pick self i)) (pick self i))
        as (self' & Hrun & Hrel).
      * eapply heap_rep_swapped; try eassumption; lia.
      * rewrite Hlen. lia.
      * rewrite Hlen. rewrite pow2_succ in Hfuel.
        pose proof (pow2_pos fuel).
        assert (2 * (i + 1) <= pick self i + 1) by lia.
        nia.
      * exists self'. split; [exact Hrun|].
        apply sift_down_swap; [assumption | lia | exact Hrel].
Qed.

Lemma log2_gap_fuel n m :
  0 < m <= n ->
  n < m * 2 ^ (Z.of_nat (Z.to_nat (Z.log2 n - Z.log2 m)) + 1).
Proof.
  intros H. assert (Hle : Z.log2 m <= Z.log2 n) by (apply Z.log2_le_mono; lia).
  rewrite Z2Nat.id by lia.
  pose proof (Z.log2_spec n ltac:(lia)) as [_ Hn].
  pose proof (Z.log2_spec m ltac:(lia)) as [Hm _].
  pose proof (Z.log2_nonneg m).
  replace (Z.succ (Z.log2 n)) with (Z.log2 m + (Z.log2 n - Z.log2 m + 1)) in Hn by lia.
  rewrite Z.pow_add_r in Hn by lia.
  assert (0 < 2 ^ (Z.log2 n - Z.log2 m + 1)) by (apply Z.pow_pos_nonneg; lia).
  nia.
Qed.

Lemma siftdown_within self i :
  heap_rep self -> 0 <= i < length self ->
  siftdown_loop (Z.to_nat (Z.log2 (length self) - Z.log2 (i + 1))) self i
    (left_of i) (right_of (left_of i))
  = islbh__siftdown self i.
Proof.
  intros R Hi.
  destruct (siftdown_loop_within
              (Z.to_nat (Z.log2 (length self) - Z.log2 (i + 1))) self i R Hi)
    as (s1 & Hrun1 & Hrel1); [apply log2_gap_fuel; lia|].
  destruct (siftdown_loop_steps (Z.to_nat (length self)) self i R Hi ltac:(lia))
    as (s2 & Hrun2 & Hrel2).
  unfold islbh__siftdown. rewrite Hrun1, Hrun2. f_equal.
  eapply sift_down_deterministic; eassumption.
Qed.

(** On an array whose active slots record their positions, the loop of
    [islbh__siftup] swaps at most [floor(log2(index + 1))] times, and the
    loop of [islbh__siftdown] goes round at most
    [floor(log2(length)) - floor(log2(index + 1))] times: run with that many
    rounds of fuel, each loop returns what the function returns. *)
Theorem sift_loops_logarithmic (self : islbh_binary_heap) (i : Z) :
  heap_rep self -> 0 <= i < length self ->
  (exists j self',
      islbh__siftup self i = Done (j, self')
      /\ siftup_loop (Z.to_nat (Z.log2 (i + 1))) self i (parent_of i)
         = Done (j, self'))
  /\ (exists self',
        islbh__siftdown self i = Done self'
        /\ siftdown_loop (Z.to_nat (Z.log2 (length self) - Z.log2 (i + 1)))
             self i (left_of i) (right_of (left_of i))
           = Done self').
Proof.
  intros R Hi. split.
  - destruct (siftup_moves self i R Hi) as (j & self' & Hrun & _).
    exists j, self'. split; [exact Hrun|].
    rewrite siftup_within by lia. exact Hrun.
  - destruct (siftdown_loop_steps (Z.to_nat (length self)) self i R Hi ltac:(lia))
      as (self' & Hrun & _).
    exists self'. split; [exact Hrun|].
    rewrite siftdown_within by assumption. exact Hrun.
Qed.

Lemma sift_loops_logarithmic_witness :
  (exists j self',
      islbh__siftup unordered_heap 3 = Done (j, self')
      /\ siftup_loop (Z.to_nat (Z.log2 (3 + 1))) unordered_heap 3 (parent_of 3)
         = Done (j, self'))
  /\ (exists self',
        islbh__siftdown unordered_heap 3 = Done self'
        /\ siftdown_loop
             (Z.to_nat (Z.log2 (length unordered_heap) - Z.log2 (3 + 1)))
             unordered_heap 3 (left_of 3) (right_of (left_of 3))
           = Done self').
Proof.
  apply (sift_loops_logarithmic unordered_heap 3).
  - apply check_rep_sound. vm_compute. reflexivity.
  - simpl. lia.
Defined.

(** ** Peek and dequeue on a heap that is not empty *)

Lemma peek_root self :
  heap_rep self -> 0 < length self -> islbh_peek self = Done (key self 0).
Proof.
  intros R Hpos. unfold islbh_peek.
  rewrite (rep_load_node self 0 R) by lia. reflexivity.
Qed.

Lemma root_least self y :
  total_preorder (cmp self) -> heap_ok self ->
  y ∈ heap_items self -> cmp self (key self 0) y <= 0.
Proof.
  intros TP [R Hord] Hy.
  pose proof (rep_length self R). pose proof (rep_allocated self R).
  destruct (heap_items_key self y ltac:(lia) Hy) as (i & Hi & <-).
  apply root_first; assumption.
Qed.

Lemma root_item self :
  heap_rep self -> 0 < length self -> key self 0 ∈ heap_items self.
Proof.
  intros R Hpos.
  pose proof (rep_length self R). pose proof (rep_allocated self R).
  apply list_elem_of_lookup. exists (Z.to_nat 0).
  apply heap_items_lookup; lia.
Qed.

(** On a valid heap that is not empty, [islbh_peek] returns an item of the
    heap that no item of the heap is strictly before, and it is the item
    that [islbh_dequeue] would return. *)
Theorem peek_returns_first (self : islbh_binary_heap) :
  total_preorder (cmp self) -> heap_ok self -> 0 < length self ->
  exists x,
    islbh_peek self = Done x
    /\ x ∈ heap_items self
    /\ (forall y, y ∈ heap_items self -> cmp self x y <= 0)
    /\ (exists self', islbh_dequeue self = Done (x, self')).
Proof.
  intros TP OK Hpos. exists (key self 0).
  split; [apply peek_root; [apply OK | exact Hpos]|].
  split; [apply root_item; [apply OK | exact Hpos]|].
  split; [intros y Hy; apply root_least; assumption|].
  destruct (dequeue_correct self TP OK Hpos) as (self' & Hrun & _).
  exists self'. exact Hrun.
Qed.

Lemma peek_returns_first_witness :
  exists x,
    islbh_peek sample_heap = Done x
    /\ x ∈ heap_items sample_heap
    /\ (forall y, y ∈ heap_items sample_heap -> cmp sample_heap x y <= 0)
    /\ (exists self', islbh_dequeue sample_heap = Done (x, self')).
Proof.
  apply (peek_returns_first sample_heap by_address_preorder sample_heap_ok).
  simpl. lia.
Defined.

(** On a valid heap that is not empty, [islbh_dequeue] returns an item that
    no item of the heap is strictly before, and takes exactly that item out:
    the other items stay, the length goes down by one and the capacity is
    kept. *)
Theorem dequeue_removes_first (self : islbh_binary_heap) :
  total_preorder (cmp self) -> heap_ok self -> 0 < length self ->
  exists x self',
    islbh_dequeue self = Done (x, self')
    /\ (forall y, y ∈ heap_items self -> cmp self x y <= 0)
    /\ heap_items self ≡ₚ x :: heap_items self'
    /\ length self' = length self - 1
    /\ allocated self' = allocated self
    /\ cmp self' = cmp self.
Proof.
  intros TP OK Hpos.
  destruct (dequeue_correct self TP OK Hpos)
    as (self' & Hrun & _ & Hl & Ha & Hc & Hp).
  exists (key self 0), self'. split; [exact Hrun|].
  split; [intros y Hy; apply root_least; assumption|].
  split; [exact Hp|]. split; [exact Hl|]. split; [exact Ha | exact Hc].
Qed.

Lemma dequeue_removes_first_witness :
  exists x self',
    islbh_dequeue sample_heap = Done (x, self')
    /\ (forall y, y ∈ heap_items sample_heap -> cmp sample_heap x y <= 0)
    /\ heap_items sample_heap ≡ₚ x :: heap_items self'
    /\ length self' = length sample_heap - 1
    /\ allocated self' = allocated sample_heap
    /\ cmp self' = cmp sample_heap.
Proof.
  apply (dequeue_removes_first sample_heap by_address_preorder sample_heap_ok).
  simpl. lia.
Defined.

(** ** Enqueue *)

Lemma enqueue_tail_handle self it :
  heap_rep self -> length self < allocated self ->
  exists j self',
    enqueue_tail self it = Done (NodeAt j, self')
    /\ 0 <= j <= length self
    /\ load self' j = Done (mk_node it j)
    /\ (forall k, 0 <= k < j -> load self' k = load self k)
    /\ (j < length self -> cmp self it (key self j) < 0)
    /\ (0 < j -> cmp self it (key self ((j - 1) / 2)) >= 0).
Proof.
  intros R Hroom. unfold enqueue_tail.
  pose proof (rep_bound self R) as RB. unfold sizeof_islbh_node in RB.
  pose proof (rep_length self R) as HL. pose proof (rep_allocated self R) as HA.
  pose proof (rep_bytes self R) as HB. unfold sizeof_islbh_node in HB.
  set (a := length self) in *.
  rewrite store_Done by lia. simpl. rewrite wrap_small by lia.
  set (s1 := set_nodes self (<[Z.to_nat a := Some (mk_node it a)]> (nodes self))).
  set (s2 := set_length s1 (a + 1)).
  assert (Hload : forall i, 0 <= i -> i <> a -> load s2 i = load self i).
  { intros i Hi Hne. unfold s2. rewrite load_set_length. unfold s1.
    apply load_store_ne; lia. }
  assert (Hnew : load s2 a = Done (mk_node it a)).
  { unfold s2. rewrite load_set_length. unfold s1. apply load_store_eq. lia. }
  assert (R2 : heap_rep s2).
  { constructor; simpl.
    - fold a. lia.
    - rewrite length_insert. lia.
    - rewrite length_insert. exact (rep_bytes self R).
    - fold a. intros i Hi. destruct (Z.eq_dec i a) as [->|Hne].
      + eexists. split; [exact Hnew | reflexivity].
      + rewrite Hload by lia. apply (rep_position self R). fold a. lia. }
  destruct (siftup_moves s2 a R2 ltac:(simpl; lia))
    as (j & s3 & Hrun & R3 & Hre & Hj & Hkey & Hup & Hsame & Hstrict & _).
  change (set_length s1 (length self + 1)) with s2.
  rewrite Hrun. simpl. exists j, s3. split; [reflexivity|]. split; [lia|].
  destruct Hre as (Hl3 & _).
  assert (Hit : key s2 a = it) by (rewrite (load_key _ _ _ Hnew); reflexivity).
  assert (Hkey2 : forall k, 0 <= k -> k <> a -> key s2 k = key self k).
  { intros k Hk Hne. unfold key, s2, s1; simpl.
    rewrite list_lookup_insert_ne by lia. reflexivity. }
  split.
  { rewrite (rep_load_node s3 j R3) by (rewrite Hl3; simpl; lia).
    rewrite Hkey, Hit. reflexivity. }
  split.
  { intros k Hk. rewrite Hsame by lia. apply Hload; lia. }
  split.
  { intros Hlt. specialize (Hstrict Hlt).
    rewrite Hit, Hkey2 in Hstrict by lia. exact Hstrict. }
  { intros Hpos. specialize (Hup Hpos). rewrite Hkey, Hit in Hup.
    assert (Hp : key s3 ((j - 1) / 2) = key self ((j - 1) / 2)).
    { pose proof (Hsame ((j - 1) / 2) ltac:(lia) ltac:(lia)) as E.
      rewrite (rep_load_node s3 _ R3) in E by (rewrite Hl3; simpl; lia).
      rewrite (rep_load_node s2 _ R2) in E by (simpl; lia).
      inversion E as [E']. rewrite E'. apply Hkey2; lia. }
    rewrite Hp in Hup. exact Hup. }
Qed.

Lemma enqueue_handle self it realloc_ok :
  total_preorder (cmp self) -> heap_ok self ->
  length self < allocated self
  \/ (realloc_ok = true /\ 0 < allocated self
      /\ allocated self * 2 * sizeof_islbh_node < SIZE_MOD) ->
  exists j self',
    islbh_enqueue self it realloc_ok = Done (NodeAt j, self')
    /\ 0 <= j <= length self
    /\ load self' j = Done (mk_node it j)
    /\ (forall k, 0 <= k < j -> load self' k = load self k)
    /\ (j < length self -> cmp self it (key self j) < 0)
    /\ (0 < j -> cmp self it (key self ((j - 1) / 2)) >= 0).
Proof.
  intros TP OK Hcond. rewrite enqueue_unfold.
  pose proof OK as [R Hord].
  pose proof (rep_length self R) as HL.
  destruct (Z.leb_spec (allocated self) (length self)) as [Hfull|Hroom].
  - destruct Hcond as [?|(-> & Hpos & Hsmall)]; [lia|].
    destruct (doubling_small _ Hpos Hsmall) as [D1 D2].
    destruct (heap_rep_grown self (wrap (allocated self * 2)) R)
      as (R1 & Hit1 & Hl1 & Ha1 & Hc1 & Hn1 & Hk1); [lia | lia |].
    set (g := snd (islbh__grow self (wrap (allocated self * 2)) true)) in *.
    destruct (enqueue_tail_handle g it R1 ltac:(lia))
      as (j & s' & Hrun & Hj & Hnew & Hsame & Hstrict & Hup).
    exists j, s'. split; [exact Hrun|]. split; [lia|]. split; [exact Hnew|].
    split.
    { intros k Hk. rewrite Hsame by lia.
      rewrite (rep_load_node g k R1) by lia.
      rewrite (rep_load_node self k R) by lia.
      rewrite Hk1 by lia. reflexivity. }
    split.
    { intros Hlt. rewrite Hl1 in Hstrict. specialize (Hstrict Hlt).
      rewrite Hc1, Hk1 in Hstrict by lia. exact Hstrict. }
    { intros Hj0. specialize (Hup Hj0).
      rewrite Hc1, Hk1 in Hup by lia. exact Hup. }
  - apply enqueue_tail_handle; assumption.
Qed.

(** When there is room, or the array is full, not empty, its doubling is
    representable and the reallocation succeeds, [islbh_enqueue] adds
    exactly the item, and the pointer it returns is the address of the slot
    that holds the item, whose position field is that slot's index. *)
Theorem enqueue_returns_handle
    (self : islbh_binary_heap) (it : ptr) (realloc_ok : bool) :
  total_preorder (cmp self) -> heap_ok self ->
  length self < allocated self
  \/ (realloc_ok = true /\ 0 < allocated self
      /\ allocated self * 2 * sizeof_islbh_node < SIZE_MOD) ->
  exists j self',
    islbh_enqueue self it realloc_ok = Done (NodeAt j, self')
    /\ 0 <= j <= length self
    /\ deref self' (NodeAt j) = Done (mk_node it j)
    /\ length self' = length self + 1
    /\ heap_items self' ≡ₚ it :: heap_items self.
Proof.
  intros TP OK Hcond.
  destruct (enqueue_handle self it realloc_ok TP OK Hcond)
    as (j & self' & Hrun & Hj & Hnew & _).
  exists j, self'. split; [exact Hrun|]. split; [exact Hj|].
  split; [exact Hnew|].
  destruct (enqueue_Done _ _ _ _ _ TP OK Hrun)
    as (_ & [(Hnull & _)|(_ & _ & Hl & Hp & _)]); [discriminate|].
  split; [exact Hl | exact Hp].
Qed.

Lemma enqueue_returns_handle_witness :
  exists j self',
    islbh_enqueue sample_heap 20 false = Done (NodeAt j, self')
    /\ 0 <= j <= length sample_heap
    /\ deref self' (NodeAt j) = Done (mk_node 20 j)
    /\ length self' = length sample_heap + 1
    /\ heap_items self' ≡ₚ 20 :: heap_items sample_heap.
Proof.
  apply (enqueue_returns_handle sample_heap 20 false
           by_address_preorder sample_heap_ok).
  left. simpl. lia.
Defined.

(** [islbh_enqueue] reallocates only when the array is full.  With room
    left, the result does not depend on what a reallocation would return and
    the capacity is kept; on a full array of non-zero capacity whose doubling
    is representable, a successful reallocation doubles the capacity. *)
Theorem enqueue_capacity (self : islbh_binary_heap) (it : ptr) :
  total_preorder (cmp self) -> heap_ok self ->
  (length self < allocated self ->
   islbh_enqueue self it false = islbh_enqueue self it true
   /\ exists j self',
        islbh_enqueue self it true = Done (NodeAt j, self')
        /\ allocated self' = allocated self)
  /\ (length self = allocated self -> 0 < allocated self ->
      allocated self * 2 * sizeof_islbh_node < SIZE_MOD ->
      exists j self',
        islbh_enqueue self it true = Done (NodeAt j, self')
        /\ allocated self' = allocated self * 2).
Proof.
  intros TP OK. split.
  - intros Hroom. split.
    + rewrite !enqueue_unfold.
      destruct (Z.leb_spec (allocated self) (length self)); [lia | reflexivity].
    + destruct (enqueue_handle self it true TP OK (or_introl Hroom))
        as (j & self' & Hrun & _).
      exists j, self'. split; [exact Hrun|].
      destruct (enqueue_Done _ _ _ _ _ TP OK Hrun)
        as (_ & [(Hnull & _)|(_ & _ & _ & _ & Ha)]); [discriminate|].
      destruct (Z.leb_spec (allocated self) (length self)); [lia | exact Ha].
  - intros Hfull Hpos Hsmall.
    destruct (enqueue_handle self it true TP OK
                (or_intror (conj eq_refl (conj Hpos Hsmall))))
      as (j & self' & Hrun & _).
    exists j, self'. split; [exact Hrun|].
    destruct (enqueue_Done _ _ _ _ _ TP OK Hrun)
      as (_ & [(Hnull & _)|(_ & _ & _ & _ & Ha)]); [discriminate|].
    destruct (Z.leb_spec (allocated self) (length self)); [|lia].
    rewrite Ha. apply (doubling_small _ Hpos Hsmall).
Qed.

Lemma enqueue_capacity_witness :
  (islbh_enqueue sample_heap 20 false = islbh_enqueue sample_heap 20 true
   /\ exists j self',
        islbh_enqueue sample_heap 20 true = Done (NodeAt j, self')
        /\ allocated self' = allocated sample_heap)
  /\ (exists j self',
        islbh_enqueue tied_heap 20 true = Done (NodeAt j, self')
        /\ allocated self' = allocated tied_heap * 2).
Proof.
  split.
  - apply (enqueue_capacity sample_heap 20 by_address_preorder sample_heap_ok).
    simpl. lia.
  - apply (enqueue_capacity tied_heap 20 by_tens_preorder tied_heap_ok).
    + reflexivity.
    + simpl. lia.
    + simpl. rewrite SIZE_MOD_val. unfold sizeof_islbh_node. lia.
Defined.

(** After [islbh_enqueue] has added an item, [islbh_peek] returns the new
    item if the heap was empty or the item is strictly before the former
    first item, and the former first item otherwise: an item that ties with
    the first one does not displace it.  The pointer returned is the
    address of the root in the first case only. *)
Theorem peek_after_enqueue
    (self : islbh_binary_heap) (it : ptr) (realloc_ok : bool) :
  total_preorder (cmp self) -> heap_ok self ->
  length self < allocated self
  \/ (realloc_ok = true /\ 0 < allocated self
      /\ allocated self * 2 * sizeof_islbh_node < SIZE_MOD) ->
  exists j self',
    islbh_enqueue self it realloc_ok = Done (NodeAt j, self')
    /\ islbh_peek self'
       = Done (if (length self =? 0) || (cmp self it (key self 0) <? 0)
               then it else key self 0)
    /\ (j = 0 <-> length self = 0 \/ cmp self it (key self 0) < 0).
Proof.
  intros TP OK Hcond. pose proof OK as [R Hord].
  pose proof (rep_length self R) as HL.
  destruct (enqueue_handle self it realloc_ok TP OK Hcond)
    as (j & self' & Hrun & Hj & Hnew & Hsame & Hstrict & Hup).
  exists j, self'. split; [exact Hrun|].
  unfold islbh_peek.
  destruct (Z.eq_dec j 0) as [->|Hne].
  - rewrite Hnew. simpl.
    assert (Hc : length self = 0 \/ cmp self it (key self 0) < 0).
    { destruct (Z.eq_dec (length self) 0); [left; assumption|].
      right. apply Hstrict. lia. }
    split; [|tauto].
    destruct Hc as [->|Hlt]; [reflexivity|].
    destruct (Z.ltb_spec (cmp self it (key self 0)) 0); [|lia].
    rewrite orb_true_r. reflexivity.
  - rewrite Hsame by lia. rewrite (rep_load_node self 0 R) by lia. simpl.
    assert (Hge : cmp self it (key self 0) >= 0).
    { eapply cmp_ge_trans; [exact TP | apply Hup; lia |].
      apply cmp_ge_le; [exact TP|]. apply root_first; try assumption. lia. }
    split.
    + destruct (Z.eqb_spec (length self) 0); [lia|].
      destruct (Z.ltb_spec (cmp self it (key self 0)) 0); [lia | reflexivity].
    + split; [contradiction | lia].
Qed.

Lemma peek_after_enqueue_witness :
  exists j self',
    islbh_enqueue sample_heap 5 false = Done (NodeAt j, self')
    /\ islbh_peek self'
       = Done (if (length sample_heap =? 0)
                  || (cmp sample_heap 5 (key sample_heap 0) <? 0)
               then 5 else key sample_heap 0)
    /\ (j = 0 <-> length sample_heap = 0
                  \/ cmp sample_heap 5 (key sample_heap 0) < 0).
Proof.
  apply (peek_after_enqueue sample_heap 5 false
           by_address_preorder sample_heap_ok).
  left. simpl. lia.
Defined.

(** ** A node whose item has been changed *)

Section Changed.
Variable self : islbh_binary_heap.
Hypothesis R : heap_rep self.
Variable i : Z.
Hypothesis Hi : 0 <= i < length self.
Variable x : ptr.

Let s1 := set_nodes self (<[Z.to_nat i := Some (mk_node x i)]> (nodes self)).

Lemma set_item_Done : set_item self i x = Done s1.
Proof.
  unfold set_item. rewrite (rep_load_node self i R Hi). simpl.
  pose proof (rep_length self R). pose proof (rep_allocated self R).
  apply store_Done. lia.
Qed.

Lemma changed_key k : 0 <= k -> key s1 k = if k =? i then x else key self k.
Proof.
  intros Hk. pose proof (rep_length self R). pose proof (rep_allocated self R).
  unfold key, s1; simpl.
  destruct (Z.eqb_spec k i) as [->|Hne].
  - rewrite list_lookup_insert_eq by lia. reflexivity.
  - rewrite list_lookup_insert_ne by lia. reflexivity.
Qed.

Lemma changed_rep : heap_rep s1.
Proof.
  pose proof (rep_length self R). pose proof (rep_allocated self R).
  constructor; unfold s1; simpl.
  - lia.
  - rewrite length_insert. lia.
  - rewrite length_insert. exact (rep_bytes self R).
  - intros k Hk. destruct (Z.eq_dec k i) as [->|Hne].
    + eexists. split; [apply load_store_eq; lia | reflexivity].
    + rewrite load_store_ne by lia. apply (rep_position self R). exact Hk.
Qed.

Lemma changed_items : heap_items s1 = <[Z.to_nat i := x]> (heap_items self).
Proof.
  unfold heap_items, s1; simpl.
  rewrite take_insert_lt by lia. rewrite list_fmap_insert. reflexivity.
Qed.

Lemma changed_hole :
  total_preorder (cmp self) -> heap_order self -> hole 0 s1 i.
Proof.
  intros TP Hord.
  destruct (ordered_from_hole 0 self i TP ltac:(lia)
              (proj1 (heap_order_ordered_from self) Hord)) as [H1 H2].
  split.
  - intros j Hj Hp Hji Hpi. unfold edge.
    rewrite !changed_key by lia.
    destruct (Z.eqb_spec j i); [lia|].
    destruct (Z.eqb_spec ((j - 1) / 2) i); [lia|].
    apply H1; assumption.
  - intros j Hj Hpi Hpos Hp.
    rewrite !changed_key by lia.
    destruct (Z.eqb_spec j i); [lia|].
    destruct (Z.eqb_spec ((i - 1) / 2) i); [lia|].
    apply H2; assumption.
Qed.

Lemma changed_up :
  total_preorder (cmp self) -> heap_order self ->
  cmp self x (key self i) >= 0 -> up_ok 0 s1 i.
Proof.
  intros TP Hord Hx Hpos _. unfold edge.
  rewrite !changed_key by lia. rewrite Z.eqb_refl.
  destruct (Z.eqb_spec ((i - 1) / 2) i); [lia|].
  eapply cmp_ge_trans; [exact TP | exact Hx | apply Hord; lia].
Qed.

Lemma changed_down :
  total_preorder (cmp self) -> heap_order self ->
  cmp self x (key self i) <= 0 -> down_ok s1 i.
Proof.
  intros TP Hord Hx j Hj Hp. unfold edge. rewrite Hp.
  rewrite !changed_key by lia. rewrite Z.eqb_refl.
  destruct (Z.eqb_spec j i); [lia|].
  eapply cmp_ge_trans; [exact TP | | apply cmp_ge_le; [exact TP | exact Hx]].
  pose proof (Hord j Hj) as E. unfold edge in E. rewrite Hp in E. exact E.
Qed.

End Changed.

(** After the item of a node of a valid heap has been replaced by any other
    item (its priority has changed), [islbh_update] on that node ends with
    the invariants restored: the heap holds the new item in place of the old
    one, and the other items, the length and the capacity as before. *)
Theorem update_restores_order (self : islbh_binary_heap) (i : Z) (x : ptr) :
  total_preorder (cmp self) -> heap_ok self -> 0 <= i < length self ->
  exists s1 self',
    set_item self i x = Done s1
    /\ islbh_update s1 (NodeAt i) = Done self'
    /\ heap_ok self'
    /\ length self' = length self /\ allocated self' = allocated self
    /\ cmp self' = cmp self
    /\ heap_items self' ≡ₚ <[Z.to_nat i := x]> (heap_items self).
Proof.
  intros TP [R Hord] Hi.
  set (s1 := set_nodes self (<[Z.to_nat i := Some (mk_node x i)]> (nodes self))).
  exists s1.
  destruct (update_correct s1 (NodeAt i) (mk_node x i) TP (changed_rep self R i Hi x))
    as (self' & Hrun & R' & (Hl & Ha & Hc & Hp) & Hord').
  - simpl. pose proof (rep_length self R). pose proof (rep_allocated self R).
    apply load_store_eq. lia.
  - exact Hi.
  - simpl. apply changed_hole; assumption.
  - exists self'. split; [apply set_item_Done; assumption|].
    split; [exact Hrun|]. split; [split; assumption|].
    split; [exact Hl|]. split; [exact Ha|]. split; [exact Hc|].
    rewrite Hp. unfold s1. rewrite changed_items by assumption. reflexivity.
Qed.

Lemma update_restores_order_witness :
  exists s1 self',
    set_item sample_heap 0 60 = Done s1
    /\ islbh_update s1 (NodeAt 0) = Done self'
    /\ heap_ok self'
    /\ length self' = length sample_heap /\ allocated self' = allocated sample_heap
    /\ cmp self' = cmp sample_heap
    /\ heap_items self' ≡ₚ <[Z.to_nat 0 := 60]> (heap_items sample_heap).
Proof.
  apply (update_restores_order sample_heap 0 60 by_address_preorder sample_heap_ok).
  simpl. lia.
Defined.

(** After the item of a node of a valid heap has been replaced by an item
    that is not after it, [islbh__siftup] alone, from the slot of the node,
    restores the invariants, and returns the index of the slot that holds
    the new item. *)
Theorem siftup_restores_order (self : islbh_binary_heap) (i : Z) (x : ptr) :
  total_preorder (cmp self) -> heap_ok self -> 0 <= i < length self ->
  cmp self x (key self i) <= 0 ->
  exists s1 j self',
    set_item self i x = Done s1
    /\ islbh__siftup s1 i = Done (j, self')
    /\ 0 <= j <= i /\ load self' j = Done (mk_node x j)
    /\ heap_ok self'
    /\ length self' = length self /\ allocated self' = allocated self
    /\ cmp self' = cmp self
    /\ heap_items self' ≡ₚ <[Z.to_nat i := x]> (heap_items self).
Proof.
  intros TP [R Hord] Hi Hx.
  set (s1 := set_nodes self (<[Z.to_nat i := Some (mk_node x i)]> (nodes self))).
  exists s1.
  pose proof (changed_rep self R i Hi x) as R1.
  destruct (siftup_correct s1 i TP R1 Hi (changed_hole self R i Hi x TP Hord))
    as (j & self' & Hrun & R' & (Hl & Ha & Hc & Hp) & Hj & Hh & Hup & Hdown & _).
  destruct (siftup_moves s1 i R1 Hi)
    as (j' & self'' & Hrun' & _ & _ & _ & Hkey & _).
  rewrite Hrun in Hrun'. inversion Hrun'; subst j' self''.
  exists j, self'. split; [apply set_item_Done; assumption|].
  split; [exact Hrun|]. split; [exact Hj|]. split.
  { rewrite (rep_load_node self' j R') by (rewrite Hl; simpl; lia).
    rewrite Hkey. unfold s1. rewrite changed_key by (assumption || lia).
    rewrite Z.eqb_refl. reflexivity. }
  split.
  { split; [assumption|]. apply heap_order_ordered_from.
    eapply hole_closed; [exact Hh | exact Hup |].
    apply Hdown. right. apply changed_down; assumption. }
  split; [exact Hl|]. split; [exact Ha|]. split; [exact Hc|].
  rewrite Hp. unfold s1. rewrite changed_items by assumption. reflexivity.
Qed.

Lemma siftup_restores_order_witness :
  exists s1 j self',
    set_item sample_heap 2 5 = Done s1
    /\ islbh__siftup s1 2 = Done (j, self')
    /\ 0 <= j <= 2 /\ load self' j = Done (mk_node 5 j)
    /\ heap_ok self'
    /\ length self' = length sample_heap /\ allocated self' = allocated sample_heap
    /\ cmp self' = cmp sample_heap
    /\ heap_items self' ≡ₚ <[Z.to_nat 2 := 5]> (heap_items sample_heap).
Proof.
  apply (siftup_restores_order sample_heap 2 5
           by_address_preorder sample_heap_ok).
  - simpl. lia.
  - vm_compute. discriminate.
Defined.

(** After the item of a node of a valid heap has been replaced by an item
    that is not before it, [islbh__siftdown] alone, from the slot of the
    node, restores the invariants. *)
Theorem siftdown_restores_order (self : islbh_binary_heap) (i : Z) (x : ptr) :
  total_preorder (cmp self) -> heap_ok self -> 0 <= i < length self ->
  cmp self x (key self i) >= 0 ->
  exists s1 self',
    set_item self i x = Done s1
    /\ islbh__siftdown s1 i = Done self'
    /\ heap_ok self'
    /\ length self' = length self /\ allocated self' = allocated self
    /\ cmp self' = cmp self
    /\ heap_items self' ≡ₚ <[Z.to_nat i := x]> (heap_items self).
Proof.
  intros TP [R Hord] Hi Hx.
  set (s1 := set_nodes self (<[Z.to_nat i := Some (mk_node x i)]> (nodes self))).
  exists s1.
  destruct (siftdown_correct 0 s1 i TP (changed_rep self R i Hi x))
    as (self' & Hrun & R' & (Hl & Ha & Hc & Hp) & Hord').
  - lia.
  - exact (proj2 Hi).
  - apply changed_hole; assumption.
  - apply changed_up; assumption.
  - exists self'. split; [apply set_item_Done; assumption|].
    split; [exact Hrun|].
    split; [split; [assumption | apply heap_order_ordered_from; assumption]|].
    split; [exact Hl|]. split; [exact Ha|]. split; [exact Hc|].
    rewrite Hp. unfold s1. rewrite changed_items by assumption. reflexivity.
Qed.

Lemma siftdown_restores_order_witness :
  exists s1 self',
    set_item sample_heap 0 60 = Done s1
    /\ islbh__siftdown s1 0 = Done self'
    /\ heap_ok self'
    /\ length self' = length sample_heap /\ allocated self' = allocated sample_heap
    /\ cmp self' = cmp sample_heap
    /\ heap_items self' ≡ₚ <[Z.to_nat 0 := 60]> (heap_items sample_heap).
Proof.
  apply (siftdown_restores_order sample_heap 0 60
           by_address_preorder sample_heap_ok).
  - simpl. lia.
  - vm_compute. discriminate.
Defined.

(** The sift-down of [islbh_dequeue] needs no condition on the new item:
    whatever item is written into an active slot of a valid heap,
    [islbh__siftdown_floyd] from that slot ends with the invariants
    restored and the same items. *)
Theorem siftdown_floyd_restores_order
    (self : islbh_binary_heap) (i : Z) (x : ptr) :
  total_preorder (cmp self) -> heap_ok self -> 0 <= i < length self ->
  exists s1 self',
    set_item self i x = Done s1
    /\ islbh__siftdown_floyd s1 i = Done self'
    /\ heap_ok self'
    /\ length self' = length self /\ allocated self' = allocated self
    /\ cmp self' = cmp self
    /\ heap_items self' ≡ₚ <[Z.to_nat i := x]> (heap_items self).
Proof.
  intros TP [R Hord] Hi.
  set (s1 := set_nodes self (<[Z.to_nat i := Some (mk_node x i)]> (nodes self))).
  exists s1.
  destruct (siftdown_floyd_correct s1 i TP (changed_rep self R i Hi x) Hi)
    as (self' & Hrun & R' & (Hl & Ha & Hc & Hp) & Hord').
  - apply changed_hole; assumption.
  - exists self'. split; [apply set_item_Done; assumption|].
    split; [exact Hrun|]. split; [split; assumption|].
    split; [exact Hl|]. split; [exact Ha|]. split; [exact Hc|].
    rewrite Hp. unfold s1. rewrite changed_items by assumption. reflexivity.
Qed.

Lemma siftdown_floyd_restores_order_witness :
  exists s1 self',
    set_item sample_heap 0 5 = Done s1
    /\ islbh__siftdown_floyd s1 0 = Done self'
    /\ heap_ok self'
    /\ length self' = length sample_heap /\ allocated self' = allocated sample_heap
    /\ cmp self' = cmp sample_heap
    /\ heap_items self' ≡ₚ <[Z.to_nat 0 := 5]> (heap_items sample_heap).
Proof.
  apply (siftdown_floyd_restores_order sample_heap 0 5
           by_address_preorder sample_heap_ok).
  simpl. lia.
Defined.

(** ** Remove *)

(** [islbh_remove] on the address of an active slot of a valid heap takes
    out exactly the item that the slot holds: the other items stay, the
    length goes down by one, the capacity is kept and the invariants hold
    again. *)
Theorem remove_takes_out_item (self : islbh_binary_heap) (j : Z) :
  total_preorder (cmp self) -> heap_ok self -> 0 <= j < length self ->
  exists self',
    islbh_remove self (NodeAt j) = Done (ISLBH_ERROR_OK, self')
    /\ heap_items self ≡ₚ key self j :: heap_items self'
    /\ length self' = length self - 1
    /\ allocated self' = allocated self
    /\ heap_ok self'.
Proof.
  intros TP OK Hj.
  destruct (remove_correct self j TP OK Hj)
    as (self' & Hrun & OK' & Hl & Ha & _ & Hp).
  exists self'. split; [exact Hrun|]. split; [exact Hp|].
  split; [exact Hl|]. split; [exact Ha | exact OK'].
Qed.

Lemma remove_takes_out_item_witness :
  exists self',
    islbh_remove sample_heap (NodeAt 1) = Done (ISLBH_ERROR_OK, self')
    /\ heap_items sample_heap ≡ₚ key sample_heap 1 :: heap_items self'
    /\ length self' = length sample_heap - 1
    /\ allocated self' = allocated sample_heap
    /\ heap_ok self'.
Proof.
  apply (remove_takes_out_item sample_heap 1 by_address_preorder sample_heap_ok).
  simpl. lia.
Defined.

(** The heap of [islbh_dequeue] and of [islbh_remove] at the root, once the
    last item has been moved to the root. *)
Lemma root_displaced self :
  total_preorder (cmp self) -> heap_ok self -> 2 <= length self ->
  let last := length self - 1 in
  let s2 := swapped (set_length self last) 0 last in
  islbh__swap (set_length self last) 0 last = Done s2
  /\ heap_rep s2 /\ length s2 = last /\ cmp s2 = cmp self
  /\ load s2 0 = Done (mk_node (key self last) 0)
  /\ ordered_from 1 s2.
Proof.
  intros TP [R Hord] Hlen last s2.
  pose proof (rep_bound self R) as RB. unfold sizeof_islbh_node in RB.
  pose proof (rep_length self R) as HL. pose proof (rep_allocated self R) as HA.
  set (s1 := set_length self last) in *.
  assert (R1 : heap_rep s1) by (apply heap_rep_set_length; [assumption | lia]).
  destruct (rep_load self 0 R ltac:(lia)) as (n & Hn & _ & Kn).
  destruct (rep_load self last R ltac:(lia)) as (m & Hm & _ & Km).
  assert (Hn1 : load s1 0 = Done n) by exact Hn.
  assert (Hm1 : load s1 last = Done m) by exact Hm.
  destruct (swapped_fields s1 0 last) as (Hl2 & Ha2 & Hc2 & Hn2).
  split; [apply (swap_done s1 0 last n m); assumption || lia|].
  split; [apply (heap_rep_swapped s1 0 last n m); assumption || lia|].
  split; [exact Hl2|]. split; [exact Hc2|]. split.
  - unfold s2. rewrite (load_swapped_l s1 0 last n m) by (assumption || lia).
    rewrite Km. reflexivity.
  - intros j Hj Hp. unfold s2 in Hj. rewrite Hl2 in Hj. simpl in Hj.
    unfold edge. unfold s2 at 1. rewrite Hc2. simpl.
    unfold s2. rewrite !key_swapped_other by lia. apply Hord. lia.
Qed.

(** On a valid heap that is not empty, [islbh_remove] on the address of the
    root and [islbh_dequeue] leave the same array; the first returns
    [ISLBH_ERROR_OK] where the second returns the item of the root. *)
Theorem remove_root_is_dequeue (self : islbh_binary_heap) :
  total_preorder (cmp self) -> heap_ok self -> 0 < length self ->
  exists self',
    islbh_dequeue self = Done (key self 0, self')
    /\ islbh_remove self (NodeAt 0) = Done (ISLBH_ERROR_OK, self').
Proof.
  intros TP OK Hpos. pose proof OK as [R Hord].
  pose proof (rep_bound self R) as RB. unfold sizeof_islbh_node in RB.
  pose proof (rep_length self R) as HL.
  unfold islbh_dequeue, islbh_remove, deref.
  rewrite (rep_load_node self 0 R) by lia. simpl.
  destruct (Z.eqb_spec (length self) 0) as [?|_]; [lia|].
  destruct (Z.leb_spec (length self) 0) as [?|_]; [lia|]. simpl.
  rewrite wrap_small by lia.
  destruct (Z.eqb_spec (length self) 1) as [H1|H1].
  - rewrite load_set_length, (rep_load_node self 0 R) by lia. simpl.
    rewrite H1. simpl.
    exists (set_length self 0). split; [reflexivity|].
    unfold islbh_update, deref.
    rewrite load_set_length, (rep_load_node self 0 R) by lia. simpl.
    reflexivity.
  - destruct (root_displaced self TP OK ltac:(lia))
      as (Hswap & R2 & Hl2 & Hc2 & Hroot & Hfrom).
    set (last := length self - 1) in *.
    set (s2 := swapped (set_length self last) 0 last) in *.
    destruct (Z.eqb_spec 0 last) as [?|_]; [lia|]. simpl.
    change (length (set_length self last)) with last.
    rewrite Hswap. simpl.
    destruct (siftdown_floyd_agree (Z.to_nat (length s2)) s2 0)
      as (s3 & leaf & s1 & j & Hdown & Hdesc & Hup);
      [rewrite Hc2; exact TP | exact R2 | lia | lia | exact Hfrom
      | intros ?; lia |].
    exists s3. split.
    + unfold islbh__siftdown_floyd. rewrite Hdesc. simpl. rewrite Hup. reflexivity.
    + change (match last with 0 => true | _ => false end) with (0 =? last).
      destruct (Z.eqb_spec 0 last) as [?|_]; [lia|]. simpl.
      unfold islbh_update, deref. rewrite Hroot. simpl.
      change (islbh__siftup s2 0) with (Done (0, s2)). simpl.
      unfold islbh__siftdown. rewrite Hdown. reflexivity.
Qed.

Lemma remove_root_is_dequeue_witness :
  exists self',
    islbh_dequeue sample_heap = Done (key sample_heap 0, self')
    /\ islbh_remove sample_heap (NodeAt 0) = Done (ISLBH_ERROR_OK, self').
Proof.
  apply (remove_root_is_dequeue sample_heap by_address_preorder sample_heap_ok).
  simpl. lia.
Defined.

(** [islbh_remove] on the pointer that [islbh_enqueue] has just returned
    undoes the insertion: it returns [ISLBH_ERROR_OK] and leaves a valid
    heap with the items and the length it had before the two calls. *)
Theorem enqueue_then_remove
    (self : islbh_binary_heap) (it : ptr) (realloc_ok : bool) :
  total_preorder (cmp self) -> heap_ok self ->
  length self < allocated self
  \/ (realloc_ok = true /\ 0 < allocated self
      /\ allocated self * 2 * sizeof_islbh_node < SIZE_MOD) ->
  exists node s1 s2,
    islbh_enqueue self it realloc_ok = Done (node, s1)
    /\ islbh_remove s1 node = Done (ISLBH_ERROR_OK, s2)
    /\ heap_ok s2
    /\ length s2 = length self
    /\ heap_items s2 ≡ₚ heap_items self.
Proof.
  intros TP OK Hcond.
  destruct (enqueue_handle self it realloc_ok TP OK Hcond)
    as (j & s1 & Hrun & Hj & Hnew & _).
  destruct (enqueue_Done _ _ _ _ _ TP OK Hrun)
    as (Hc1 & [(Hnull & _)|(OK1 & _ & Hl1 & Hp1 & _)]); [discriminate|].
  destruct (remove_correct s1 j ltac:(rewrite Hc1; exact TP) OK1 ltac:(lia))
    as (s2 & Hrun2 & OK2 & Hl2 & _ & _ & Hp2).
  exists (NodeAt j), s1, s2. split; [exact Hrun|]. split; [exact Hrun2|].
  split; [exact OK2|]. split; [lia|].
  rewrite (load_key _ _ _ Hnew) in Hp2. simpl in Hp2.
  rewrite Hp1 in Hp2. symmetry. eapply Permutation_cons_inv. exact Hp2.
Qed.

Lemma enqueue_then_remove_witness :
  exists node s1 s2,
    islbh_enqueue sample_heap 5 false = Done (node, s1)
    /\ islbh_remove s1 node = Done (ISLBH_ERROR_OK, s2)
    /\ heap_ok s2
    /\ length s2 = length sample_heap
    /\ heap_items s2 ≡ₚ heap_items sample_heap.
Proof.
  apply (enqueue_then_remove sample_heap 5 false
           by_address_preorder sample_heap_ok).
  left. simpl. lia.
Defined.

(** ** Floyd's construction from any array *)

(** [islbh__floyd_algorithm] makes a heap of any array: if every active slot
    records its position, whatever the order of the items, it ends with the
    same items in heap order. *)
Theorem floyd_algorithm_builds_heap (self : islbh_binary_heap) :
  total_preorder (cmp self) -> heap_rep self ->
  exists self',
    islbh__floyd_algorithm self = Done self'
    /\ heap_ok self'
    /\ heap_items self' ≡ₚ heap_items self
    /\ length self' = length self
    /\ allocated self' = allocated self
    /\ cmp self' = cmp self.
Proof.
  intros TP R.
  destruct (floyd_algorithm_correct self TP R)
    as (self' & Hrun & R' & (Hl & Ha & Hc & Hp) & Hord).
  exists self'. split; [exact Hrun|]. split; [split; assumption|].
  split; [exact Hp|]. split; [exact Hl|]. split; [exact Ha | exact Hc].
Qed.

Lemma floyd_algorithm_builds_heap_witness :
  exists self',
    islbh__floyd_algorithm unordered_heap = Done self'
    /\ heap_ok self'
    /\ heap_items self' ≡ₚ heap_items unordered_heap
    /\ length self' = length unordered_heap
    /\ allocated self' = allocated unordered_heap
    /\ cmp self' = cmp unordered_heap.
Proof.
  apply (floyd_algorithm_builds_heap unordered_heap).
  - exact by_address_preorder.
  - apply check_rep_sound. vm_compute. reflexivity.
Defined.

(** ** What a batch leaves *)

Lemma batchenq_run self items itemsize count want_nodes realloc_ok :
  total_preorder (cmp self) -> heap_rep self -> 0 <= count ->
  length self + count <= allocated self
  \/ (realloc_ok = true /\ 1 <= allocated self
      /\ (length self + count) * 2 * sizeof_islbh_node <= SIZE_MOD) ->
  exists (k : nat) self',
    islbh_batchenq self items itemsize count want_nodes realloc_ok
    = Done (ISLBH_ERROR_OK, self',
            if want_nodes
            then Some (batch_snapshot items itemsize (length self) count)
            else None)
    /\ heap_ok self'
    /\ length self' = length self + count
    /\ cmp self' = cmp self
    /\ heap_items self' ≡ₚ heap_items self ++ batch_items items itemsize count
    /\ allocated self' = allocated self * 2 ^ Z.of_nat k
    /\ length self + count <= allocated self * 2 ^ Z.of_nat k
    /\ (forall j : nat, (j < k)%nat ->
          allocated self * 2 ^ Z.of_nat j < length self + count).
Proof.
  intros TP R Hcount Hcond. rewrite batchenq_unfold.
  pose proof (rep_length self R) as HL. pose proof (rep_allocated self R) as HA.
  pose proof (rep_bytes self R) as HB. unfold sizeof_islbh_node in HB.
  destruct (Z_lt_ge_dec (allocated self) (length self + count)) as [Hlt|Hge].
  - destruct Hcond as [?|(-> & Hpos & Hsmall)]; [lia|].
    unfold sizeof_islbh_node in Hsmall.
    rewrite (wrap_small (length self + count)) by lia.
    destruct (batchenq_capacity_doubles capacity_fuel (allocated self)
                (length self + count)) as (k & Hk & Hrun & Hle & Hmin); try lia.
    { change (Z.of_nat capacity_fuel) with 65.
      assert (allocated self * 2 ^ 63 <= allocated self * 2 ^ 65)
        by (apply Z.mul_le_mono_nonneg_l; lia).
      rewrite SIZE_MOD_val in *. lia. }
    rewrite Hrun. simpl.
    exists k.
    destruct k as [|k']; [simpl in Hle; lia|].
    pose proof (Hmin k' ltac:(lia)) as Hprev.
    set (k := S k') in *.
    assert (Hpow : 2 ^ Z.of_nat k = 2 * 2 ^ Z.of_nat k')
      by (unfold k; rewrite Nat2Z.inj_succ, Z.pow_succ_r by lia; reflexivity).
    set (a' := allocated self * 2 ^ Z.of_nat k) in *.
    assert (Ha' : a' = 2 * (allocated self * 2 ^ Z.of_nat k')) by (unfold a'; lia).
    destruct (Z.ltb_spec (allocated self) a'); [|lia].
    assert (Hfit : a' <= wrap (sizeof_islbh_node * a') / sizeof_islbh_node).
    { unfold wrap, sizeof_islbh_node. rewrite SIZE_MOD_val in *. lia. }
    destruct (heap_rep_grown self a' R ltac:(lia) Hfit)
      as (R1 & Hit1 & Hl1 & Ha1 & Hc1 & _).
    destruct (batchenq_tail_correct _ items itemsize count want_nodes
                ltac:(rewrite Hc1; exact TP) R1 Hcount ltac:(lia))
      as (s' & Hrun' & OK' & Hl' & Hal' & Hc' & Hp').
    exists s'. rewrite Hl1 in Hrun'. split; [exact Hrun'|].
    split; [exact OK'|]. split; [lia|]. split; [congruence|].
    split; [rewrite Hp', Hit1; reflexivity|].
    split; [lia|]. split; [exact Hle | exact Hmin].
  - rewrite (wrap_small (length self + count)) by lia.
    rewrite batchenq_capacity_eq.
    destruct (Z.ltb_spec (allocated self) (length self + count)); [lia|]. simpl.
    destruct (Z.ltb_spec (allocated self) (allocated self)); [lia|].
    destruct (batchenq_tail_correct self items itemsize count want_nodes
                TP R Hcount ltac:(lia)) as (s' & Hrun' & OK' & Hl' & Hal' & Hc' & Hp').
    exists 0%nat, s'. split; [exact Hrun'|].
    split; [exact OK'|]. split; [exact Hl'|]. split; [exact Hc'|].
    split; [exact Hp'|]. simpl.
    split; [lia|]. split; [lia|]. intros j Hj. lia.
Qed.

Lemma batchenq_room self items itemsize count want_nodes :
  heap_rep self -> 0 <= count -> length self + count <= allocated self ->
  islbh_batchenq self items itemsize count want_nodes false
  = islbh_batchenq self items itemsize count want_nodes true.
Proof.
  intros R Hcount Hroom. rewrite !batchenq_unfold.
  pose proof (rep_length self R) as HL. pose proof (rep_allocated self R) as HA.
  pose proof (rep_bytes self R) as HB. unfold sizeof_islbh_node in HB.
  rewrite (wrap_small (length self + count)) by lia.
  rewrite batchenq_capacity_eq.
  destruct (Z.ltb_spec (allocated self) (length self + count)); [lia|]. simpl.
  destruct (Z.ltb_spec (allocated self) (allocated self)); [lia|]. reflexivity.
Qed.




(** When the new items fit in the capacity, [islbh_batchenq] makes no
    allocation: its result does not depend on what a reallocation would
    return, and the capacity is kept.  In particular a batch of no items
    rebuilds the heap: it puts an array whose active slots record their
    positions, in whatever order, back in heap order, with the same items. *)
Theorem batchenq_with_room
    (self : islbh_binary_heap) (items : ptr) (itemsize count : Z)
    (want_nodes : bool) :
  total_preorder (cmp self) -> heap_rep self -> 0 <= count ->
  length self + count <= allocated self ->
  islbh_batchenq self items itemsize count want_nodes false
  = islbh_batchenq self items itemsize count want_nodes true
  /\ exists self' copied,
       islbh_batchenq self items itemsize count want_nodes false
       = Done (ISLBH_ERROR_OK, self', copied)
       /\ allocated self' = allocated self
       /\ heap_ok self'
       /\ (count = 0 -> length self' = length self
                        /\ heap_items self' ≡ₚ heap_items self).
Proof.
  intros TP R Hcount Hroom.
  split; [apply batchenq_room; assumption|].
  destruct (batchenq_run self items itemsize count want_nodes false
              TP R Hcount (or_introl Hroom))
    as (k & self' & Hrun & OK' & Hl & _ & Hp & Ha & _ & Hmin).
  exists self'. eexists. split; [exact Hrun|].
  pose proof (rep_length self R) as HL.
  assert (Hk : k = 0%nat).
  { destruct k as [|k]; [reflexivity|]. specialize (Hmin 0%nat ltac:(lia)).
    simpl in Hmin. lia. }
  subst k. split; [simpl in Ha; lia|]. split; [exact OK'|].
  intros ->. split; [lia|].
  rewrite Hp. unfold batch_items. simpl. rewrite app_nil_r. reflexivity.
Qed.

Lemma batchenq_with_room_witness :
  islbh_batchenq unordered_heap 0 0 0 false false
  = islbh_batchenq unordered_heap 0 0 0 false true
  /\ exists self' copied,
       islbh_batchenq unordered_heap 0 0 0 false false
       = Done (ISLBH_ERROR_OK, self', copied)
       /\ allocated self' = allocated unordered_heap
       /\ heap_ok self'
       /\ (0 = 0 -> length self' = length unordered_heap
                    /\ heap_items self' ≡ₚ heap_items unordered_heap).
Proof.
  apply (batchenq_with_room unordered_heap 0 0 0 false).
  - exact by_address_preorder.
  - apply check_rep_sound. vm_compute. reflexivity.
  - lia.
  - simpl. lia.
Defined.

(** ** From creation to the sorted sequence *)

(** A heap created with a non-zero capacity, filled by [islbh_enqueue] with
    the items of a list (every allocation succeeding) and then emptied by
    [islbh_dequeue], returns the items of the list, each as many times as
    it was given, in the order of the comparator; the emptied heap is valid
    and can be used again. *)
Theorem enqueue_then_drain_sorts
    (prealloc : Z) (c : islbh_cmp) (its : list ptr) :
  total_preorder c -> 0 < prealloc ->
  prealloc * 2 * sizeof_islbh_node <= SIZE_MOD ->
  Z.of_nat (List.length its) * 4 * sizeof_islbh_node <= SIZE_MOD ->
  exists h h1 out h2,
    islbh_create prealloc c true true = Some h
    /\ enqueue_all h ((fun it => (it, true)) <$> its) = Done h1
    /\ dequeue_all h1 = Done (out, h2)
    /\ out ≡ₚ its
    /\ StronglySorted (fun a b => c a b <= 0) out
    /\ length h2 = 0 /\ heap_ok h2.
Proof.
  intros TP Hpos Hcap Hlen. unfold sizeof_islbh_node in Hcap, Hlen.
  destruct (islbh_create prealloc c true true) as [h|] eqn:Hc; [|discriminate].
  destruct (create_fields _ _ _ Hc) as (Hl & Ha & Hcm & _).
  assert (OK : heap_ok h).
  { apply (create_heap_ok prealloc c h); [rewrite SIZE_MOD_val in *; lia | exact Hc |].
    unfold sizeof_islbh_node. lia. }
  assert (TPh : total_preorder (cmp h)) by (rewrite Hcm; exact TP).
  destruct (enqueue_all_total ((fun it => (it, true)) <$> its) h TPh OK)
    as (h1 & Hrun1); [lia | lia | rewrite length_fmap; lia |].
  destruct (enqueue_all_granted_Done _ _ _ TPh OK Hrun1) as (OK1 & Hc1).
  pose proof (enqueue_all_items its h h1 TPh OK Hrun1) as Hp1.
  destruct (dequeue_all_correct h1 ltac:(rewrite Hc1; exact TPh) OK1)
    as (out & h2 & Hrun2 & Hl2 & OK2 & _ & _ & Hout & Hsorted).
  exists h, h1, out, h2. split; [reflexivity|]. split; [exact Hrun1|].
  split; [exact Hrun2|]. split.
  { rewrite Hout, Hp1, (heap_items_empty h Hl). reflexivity. }
  split; [rewrite Hc1, Hcm in Hsorted; exact Hsorted|].
  split; [exact Hl2 | exact OK2].
Qed.

Lemma enqueue_then_drain_sorts_witness :
  exists h h1 out h2,
    islbh_create 2 by_address true true = Some h
    /\ enqueue_all h ((fun it => (it, true)) <$> [5; 3; 8; 1; 4]) = Done h1
    /\ dequeue_all h1 = Done (out, h2)
    /\ out ≡ₚ [5; 3; 8; 1; 4]
    /\ StronglySorted (fun a b => by_address a b <= 0) out
    /\ length h2 = 0 /\ heap_ok h2.
Proof.
  apply (enqueue_then_drain_sorts 2 by_address [5; 3; 8; 1; 4]).
  - exact by_address_preorder.
  - lia.
  - rewrite SIZE_MOD_val. unfold sizeof_islbh_node. lia.
  - simpl. rewrite SIZE_MOD_val. unfold sizeof_islbh_node. lia.
Defined.
